(** * WavePy3: split-step wave-optics simulation through turbulence

    A shallow embedding of [src/WavePy.py] (class [WavePy]) and of
    [src/wavepy3/atmos/atmos.py] (class [Atmos]).

    Modelling conventions.
    - Python floats and NumPy [float64]/[complex128] values are exact real
      and complex numbers ([R], [C]); rounding, overflow, [inf] and [nan]
      are outside the model.  The code is read as Python 3: [/] is true
      division ([7 / 6] is the real number 7/6), and the quotient of two
      ints is a float ([self.N/2] is the float [128.0] for [N = 256]).
    - A one-dimensional array is a [list R].  An N-by-N array [a] is its
      entry function [fun i j => a[i, j]]; only indices below [N] are read.
      An N-by-N-by-K stack is [fun i j t => a[i, j, t]].
    - [np.random]'s process-wide generator is a stream of the standard
      normal values it will hand out next; every drawing function takes the
      stream and returns the stream that is left.
    - Exceptions are modelled where the code decides on them: in [Atmos],
      in [EvalSI], and in the propagators, where [range] is handed a float
      and [P0 * self.Source] may meet [None]; the numerical kernels are
      modelled on the inputs on which they return.
      Facts about a constructed [WavePy] object that go beyond the claims
      are stated for [physical] arguments, on which the constructor and the
      screen generators are defined. *)

From Stdlib Require Import Reals Lra Lia List ZArith String Bool.
From stdpp Require Import gmap strings.
Import ListNotations.

Open Scope R_scope.

(** ** Real-number library functions *)

Module Num.

(** [x ** y] on floats.  For a positive base this is [exp (y * ln x)]; a
    negative base has a real power only for an integer exponent.  Where
    Python raises or NumPy returns [nan]/[inf] (zero to a negative power, a
    negative base to a fractional power) the value is fixed to [0]; no
    result below reads [fpow] there. *)
Definition fpow (x y : R) : R :=
  if Rlt_dec 0 x then Rpower x y
  else if Req_EM_T x 0 then (if Req_EM_T y 0 then 1 else 0)
  else if Req_EM_T (IZR (Int_part y)) y then powerRZ x (Int_part y)
  else 0.

(** Euler's product for the Gamma function, in logarithmic form: for
    [0 < x], [Gamma x = lim_m m^x * m! / (x * (x+1) * ... * (x+m))].
    [lgamma_seq x n] is the logarithm of the term [m = n + 1]. *)
Definition lgamma_seq (x : R) (n : nat) : R :=
  x * ln (INR (S n))
  + sum_f_R0 (fun k => ln (INR (S k))) n
  - sum_f_R0 (fun k => ln (x + INR k)) (S n).

Lemma ln_le_sub1 (y : R) : 0 < y -> ln y <= y - 1.
Proof.
  intros Hy. pose proof (exp_ineq1_le (ln y)) as H.
  rewrite exp_ln in H by assumption. lra.
Qed.

Lemma ln_diff_le (a b : R) : 0 < a -> 0 < b -> ln a - ln b <= a / b - 1.
Proof.
  intros Ha Hb.
  assert (Hq : 0 < a / b) by (apply Rdiv_lt_0_compat; assumption).
  pose proof (ln_le_sub1 _ Hq) as H.
  unfold Rdiv in H at 1. rewrite ln_mult in H; [|assumption|now apply Rinv_0_lt_compat].
  rewrite ln_Rinv in H by assumption. lra.
Qed.

Lemma lgamma_seq_step (x : R) (n : nat) :
  lgamma_seq x (S n) - lgamma_seq x n =
  x * (ln (INR (S (S n))) - ln (INR (S n)))
  + (ln (INR (S (S n))) - ln (x + INR (S (S n)))).
Proof.
  unfold lgamma_seq. cbn [sum_f_R0]. ring.
Qed.

Lemma lgamma_seq_growing (x : R) : 0 < x -> Un_growing (lgamma_seq x).
Proof.
  intros Hx n. pose proof (lgamma_seq_step x n) as Hs.
  set (m := INR (S n)) in *.
  assert (Hm : 0 < m) by (apply lt_0_INR; lia).
  assert (Hm1 : INR (S (S n)) = m + 1) by (unfold m; now rewrite (S_INR (S n))).
  rewrite Hm1 in Hs.
  pose proof (ln_diff_le m (m + 1) Hm ltac:(lra)) as H1.
  pose proof (ln_diff_le (x + (m + 1)) (m + 1) ltac:(lra) ltac:(lra)) as H2.
  assert (E1 : m / (m + 1) - 1 = - / (m + 1)) by (field; lra).
  assert (E2 : (x + (m + 1)) / (m + 1) - 1 = x * / (m + 1)) by (field; lra).
  rewrite E1 in H1. rewrite E2 in H2.
  assert (Hi : 0 < / (m + 1)) by (apply Rinv_0_lt_compat; lra).
  nra.
Qed.

Lemma lgamma_seq_bounded (x : R) (n : nat) :
  0 < x ->
  lgamma_seq x n <= lgamma_seq x 0 + x * (x + 1) * (1 - / INR (S n)).
Proof.
  intros Hx. induction n as [|n IH].
  - cbn [INR]. rewrite Rinv_1. lra.
  - pose proof (lgamma_seq_step x n) as Hs.
    set (m := INR (S n)) in *.
    assert (Hm : 1 <= m).
    { unfold m. rewrite S_INR. pose proof (pos_INR n). lra. }
    assert (Hm1 : INR (S (S n)) = m + 1) by (unfold m; now rewrite (S_INR (S n))).
    rewrite Hm1 in *.
    pose proof (ln_diff_le (m + 1) m ltac:(lra) ltac:(lra)) as H1.
    pose proof (ln_diff_le (m + 1) (x + (m + 1)) ltac:(lra) ltac:(lra)) as H2.
    assert (E1 : (m + 1) / m - 1 = / m) by (field; lra).
    assert (E2 : (m + 1) / (x + (m + 1)) - 1 = - (x * / (x + (m + 1)))) by (field; lra).
    rewrite E1 in H1. rewrite E2 in H2.
    assert (Hd : x * / m - x * / (x + (m + 1)) <= x * (x + 1) * (/ m - / (m + 1))).
    { assert (E3 : x * / m - x * / (x + (m + 1)) = x * (x + 1) * / (m * (x + (m + 1))))
        by (field; lra).
      assert (E4 : / m - / (m + 1) = / (m * (m + 1))) by (field; lra).
      rewrite E3, E4. apply Rmult_le_compat_l; [nra|].
      apply Rinv_le_contravar; nra. }
    assert (Hx1 : x * (ln (m + 1) - ln m) <= x * / m) by (apply Rmult_le_compat_l; lra).
    lra.
Qed.

Lemma lgamma_seq_has_ub (x : R) : 0 < x -> has_ub (lgamma_seq x).
Proof.
  intros Hx. exists (lgamma_seq x 0 + x * (x + 1)).
  intros r [n ->]. pose proof (lgamma_seq_bounded x n Hx) as H.
  assert (Hi : 0 < / INR (S n)) by (apply Rinv_0_lt_compat, lt_0_INR; lia).
  nra.
Qed.

Lemma lgamma_seq_cv (x : R) : 0 < x -> {l : R | Un_cv (lgamma_seq x) l}.
Proof.
  intros Hx. apply growing_cv.
  - now apply lgamma_seq_growing.
  - now apply lgamma_seq_has_ub.
Qed.

(** [ln (Gamma x)] for [0 < x]: the limit of [lgamma_seq x]. *)
Definition lgamma (x : R) : R :=
  match Rlt_dec 0 x with
  | left Hx => proj1_sig (lgamma_seq_cv x Hx)
  | right _ => 0
  end.

(** [x * (x + 1) * ... * (x + n - 1)]. *)
Fixpoint rising (x : R) (n : nat) : R :=
  match n with
  | O => 1
  | S p => rising x p * (x + INR p)
  end.

(** [math.gamma]: [exp (lgamma x)] for positive [x]; a negative [x] is
    brought to the positive side by [Gamma x = Gamma (x + n) / rising x n]
    with [n] the least natural number such that [0 < x + n].  At the poles
    [0, -1, -2, ...], where [math.gamma] raises, the quotient is by zero. *)
Definition gamma (x : R) : R :=
  let n := Z.to_nat (up (- x)) in
  exp (lgamma (x + INR n)) / rising x n.

Lemma lgamma_is_limit (x : R) : 0 < x -> Un_cv (lgamma_seq x) (lgamma x).
Proof.
  intros Hx. unfold lgamma. destruct (Rlt_dec 0 x) as [H|H]; [|contradiction].
  apply proj2_sig.
Qed.

(** The two defining equations of the Gamma function hold for [gamma]:
    [Gamma 1 = 1] and [Gamma (x + 1) = x * Gamma x]. *)

Lemma ln_ratio_bounds (c m : R) :
  0 <= c -> 0 < m -> - (c / m) <= ln m - ln (c + m) <= 0.
Proof.
  intros Hc Hm.
  pose proof (ln_diff_le (c + m) m ltac:(lra) Hm) as H1.
  pose proof (ln_diff_le m (c + m) Hm ltac:(lra)) as H2.
  assert (E1 : (c + m) / m - 1 = c / m) by (field; lra).
  assert (E2 : m / (c + m) - 1 = - (c / (c + m))) by (field; lra).
  rewrite E1 in H1. rewrite E2 in H2.
  assert (0 <= c / (c + m)).
  { unfold Rdiv. apply Rmult_le_pos; [exact Hc|].
    left. apply Rinv_0_lt_compat. lra. }
  lra.
Qed.

Lemma ln_ratio_cv (c : R) :
  0 <= c -> Un_cv (fun n => ln (INR (S n)) - ln (c + INR (S n))) 0.
Proof.
  intros Hc eps Heps.
  destruct (archimed (c / eps)) as [Hup _].
  exists (Z.to_nat (up (c / eps))). intros n Hn.
  assert (Hm : 0 < INR (S n)) by (apply lt_0_INR; lia).
  pose proof (ln_ratio_bounds c (INR (S n)) Hc Hm) as [Hlo Hhi].
  unfold R_dist. rewrite Rminus_0_r, Rabs_left1 by exact Hhi.
  assert (Hbig : c / eps < INR (S n)).
  { apply Rlt_le_trans with (IZR (up (c / eps))); [exact Hup|].
    rewrite INR_IZR_INZ. apply IZR_le. lia. }
  assert (Hce : c < INR (S n) * eps).
  { apply Rmult_lt_compat_r with (r := eps) in Hbig; [|exact Heps].
    unfold Rdiv in Hbig. rewrite Rmult_assoc, Rinv_l, Rmult_1_r in Hbig by lra.
    exact Hbig. }
  assert (c / INR (S n) < eps).
  { apply Rmult_lt_reg_r with (INR (S n)); [exact Hm|].
    unfold Rdiv. rewrite Rmult_assoc, Rinv_l, Rmult_1_r by lra. lra. }
  lra.
Qed.

Lemma lgamma_seq_shift (x : R) (n : nat) :
  lgamma_seq (x + 1) n - lgamma_seq x n
  = ln x + (ln (INR (S n)) - ln (x + 1 + INR (S n))).
Proof.
  induction n as [|n IH].
  - unfold lgamma_seq. cbn [sum_f_R0 INR]. rewrite ln_1.
    replace (x + 1 + 0) with (x + 1) by ring. replace (x + 0) with x by ring.
    ring.
  - pose proof (lgamma_seq_step (x + 1) n) as H1.
    pose proof (lgamma_seq_step x n) as H2.
    replace (x + 1 + INR (S (S n))) with (x + INR (S (S (S n)))) in H1
      by (rewrite (S_INR (S (S n))); ring).
    replace (x + 1 + INR (S n)) with (x + INR (S (S n))) in IH
      by (rewrite (S_INR (S n)); ring).
    replace (x + 1 + INR (S (S n))) with (x + INR (S (S (S n))))
      by (rewrite (S_INR (S (S n))); ring).
    lra.
Qed.

Lemma lgamma_succ (x : R) : 0 < x -> lgamma (x + 1) = ln x + lgamma x.
Proof.
  intros Hx.
  apply (UL_sequence (lgamma_seq (x + 1))).
  - apply lgamma_is_limit. lra.
  - assert (H : Un_cv (fun n => lgamma_seq x n
                                + (ln x + (ln (INR (S n)) - ln (x + 1 + INR (S n)))))
                  (lgamma x + (ln x + 0))).
    { apply CV_plus; [now apply lgamma_is_limit|].
      apply CV_plus; [intros eps Heps; exists O; intros; unfold R_dist;
                      rewrite Rminus_diag, Rabs_R0; exact Heps|].
      apply ln_ratio_cv. lra. }
    intros eps Heps. destruct (H eps Heps) as [N HN]. exists N. intros n Hn.
    specialize (HN n Hn).
    replace (lgamma_seq (x + 1) n)
      with (lgamma_seq x n + (ln x + (ln (INR (S n)) - ln (x + 1 + INR (S n)))))
      by (pose proof (lgamma_seq_shift x n); lra).
    replace (ln x + lgamma x) with (lgamma x + (ln x + 0)) by ring. exact HN.
Qed.

Lemma lgamma_one : lgamma 1 = 0.
Proof.
  apply (UL_sequence (lgamma_seq 1)); [apply lgamma_is_limit; lra|].
  assert (E : forall n, lgamma_seq 1 n = ln (INR (S n)) - ln (1 + INR (S n))).
  { induction n as [|n IH].
    - unfold lgamma_seq. cbn [sum_f_R0 INR]. rewrite ln_1.
      replace (1 + 0) with 1 by ring. rewrite ln_1. ring.
    - pose proof (lgamma_seq_step 1 n) as H.
      replace (1 + INR (S n)) with (INR (S (S n))) in IH
        by (rewrite (S_INR (S n)); ring).
      lra. }
  intros eps Heps. destruct (ln_ratio_cv 1 ltac:(lra) eps Heps) as [N HN].
  exists N. intros n Hn. rewrite E. now apply HN.
Qed.

Lemma gamma_positive_arg (x : R) : 0 < x -> gamma x = exp (lgamma x).
Proof.
  intros Hx. unfold gamma.
  assert (Hn : Z.to_nat (up (- x)) = O).
  { destruct (archimed (- x)) as [_ H].
    assert (Hlt : IZR (up (- x)) < IZR 1) by (simpl; lra).
    apply lt_IZR in Hlt. lia. }
  rewrite Hn. cbn [rising INR]. rewrite Rplus_0_r. unfold Rdiv.
  now rewrite Rinv_1, Rmult_1_r.
Qed.

Lemma gamma_one : gamma 1 = 1.
Proof. rewrite gamma_positive_arg by lra. rewrite lgamma_one. apply exp_0. Qed.

Lemma gamma_succ (x : R) : 0 < x -> gamma (x + 1) = x * gamma x.
Proof.
  intros Hx. rewrite !gamma_positive_arg by lra.
  rewrite lgamma_succ, exp_plus, exp_ln by exact Hx. reflexivity.
Qed.

Lemma gamma_pos (x : R) : 0 < x -> 0 < gamma x.
Proof. intros Hx. rewrite gamma_positive_arg by exact Hx. apply exp_pos. Qed.

Lemma gamma_neg2 (x : R) : -2 < x < -1 -> 0 < gamma x.
Proof.
  intros Hx. unfold gamma.
  assert (Hn : up (- x) = 2%Z).
  { symmetry. apply tech_up; simpl; lra. }
  rewrite Hn. change (Z.to_nat 2) with 2%nat. cbn [rising INR].
  apply Rdiv_lt_0_compat; [apply exp_pos|]. nra.
Qed.

(** Decimal literals such as [0.5] are quotients of integers. *)
Ltac dec := unfold Q2R; cbn [QArith_base.Qnum QArith_base.Qden].

Lemma fpow_pos (x y : R) : 0 < x -> 0 < fpow x y.
Proof.
  intros Hx. unfold fpow. destruct (Rlt_dec 0 x); [|contradiction].
  unfold Rpower. apply exp_pos.
Qed.

Lemma fpow_Rpower (x y : R) : 0 < x -> fpow x y = Rpower x y.
Proof.
  intros Hx. unfold fpow. now destruct (Rlt_dec 0 x).
Qed.

End Num.

(** ** Complex numbers ([complex128]) *)

Module Cx.

Definition C : Type := (R * R)%type.

Definition RtoC (x : R) : C := (x, 0).
(** The imaginary unit [1j]. *)
Definition Ci : C := (0, 1).
Definition Cadd (z w : C) : C := (fst z + fst w, snd z + snd w).
Definition Copp (z : C) : C := (- fst z, - snd z).
Definition Csub (z w : C) : C := Cadd z (Copp w).
Definition Cmul (z w : C) : C :=
  (fst z * fst w - snd z * snd w, fst z * snd w + snd z * fst w).
(** [np.real]. *)
Definition Cre (z : C) : R := fst z.
(** [np.exp] on a complex argument. *)
Definition Cexp (z : C) : C := (exp (fst z) * cos (snd z), exp (fst z) * sin (snd z)).

Fixpoint Cpow (z : C) (n : nat) : C :=
  match n with
  | O => RtoC 1
  | S p => Cmul z (Cpow z p)
  end.

Declare Scope C_scope.
Delimit Scope C_scope with C.
Bind Scope C_scope with C.
Infix "+" := Cadd : C_scope.
Infix "-" := Csub : C_scope.
Infix "*" := Cmul : C_scope.
Notation "- z" := (Copp z) : C_scope.

Lemma C_eq (z w : C) : fst z = fst w -> snd z = snd w -> z = w.
Proof. destruct z, w; simpl; intros -> ->; reflexivity. Qed.

Ltac csolve :=
  intros; apply C_eq; cbn [fst snd Cadd Cmul Copp Csub RtoC Ci Cre]; try ring.

Lemma C_ring_theory :
  ring_theory (RtoC 0) (RtoC 1) Cadd Cmul Csub Copp (@eq C).
Proof. constructor; try reflexivity; csolve. Qed.

Add Ring C_ring : C_ring_theory.

Lemma Cexp_0 : Cexp (RtoC 0) = RtoC 1.
Proof.
  unfold Cexp, RtoC. cbn [fst snd]. rewrite exp_0, cos_0, sin_0.
  apply C_eq; cbn [fst snd]; ring.
Qed.

Lemma Ci_mul_0 : (Ci * RtoC 0)%C = RtoC 0.
Proof. csolve. Qed.

End Cx.

(** ** NumPy arrays *)

Module Np.
Import Cx.

(** An N-by-N real or complex array, by its entries. *)
Definition RMat : Type := nat -> nat -> R.
Definition CMat : Type := nat -> nat -> C.

(** [sum_n f n = f 0 + ... + f (n-1)]. *)
Fixpoint sum_n (f : nat -> R) (n : nat) : R :=
  match n with
  | O => 0
  | S p => sum_n f p + f p
  end.

Fixpoint csum_n (f : nat -> C) (n : nat) : C :=
  match n with
  | O => RtoC 0
  | S p => (csum_n f p + f p)%C
  end.

(** [np.sum] and [np.mean] of an n-by-n array. *)
Definition np_sum (n : nat) (a : RMat) : R :=
  sum_n (fun i => sum_n (fun j => a i j) n) n.
Definition np_mean (n : nat) (a : RMat) : R :=
  np_sum n a / (INR n * INR n).
Definition np_csum (n : nat) (a : CMat) : C :=
  csum_n (fun i => csum_n (fun j => a i j) n) n.

(** [np.linspace(start, stop, num)[i]]. *)
Definition linspace (start stop : R) (num : nat) (i : nat) : R :=
  if (num =? 1)%nat then start
  else start + INR i * ((stop - start) / (INR num - 1)).

(** [np.arange(start, stop)[i]] (unit step). *)
Definition arange (start : R) (i : nat) : R := start + INR i.

(** [X, Y = np.meshgrid(x, y)]: [X[i, j] = x[j]] and [Y[i, j] = y[i]]. *)
Definition meshgrid_X (x : nat -> R) : RMat := fun _ j => x j.
Definition meshgrid_Y (y : nat -> R) : RMat := fun i _ => y i.

(** [np.sinc]. *)
Definition sinc (x : R) : R :=
  if Req_EM_T x 0 then 1 else sin (PI * x) / (PI * x).

(** The two-dimensional discrete Fourier transform of an n-by-n array and
    its inverse, [np.fft.fft2] and [np.fft.ifft2]. *)
Definition twiddle (sgn : R) (n p q m l : nat) : C :=
  Cexp (Ci * RtoC (sgn * 2 * PI * (INR p * INR m + INR q * INR l) / INR n))%C.

Definition fft2 (n : nat) (a : CMat) : CMat :=
  fun p q => np_csum n (fun m l => a m l * twiddle (-1) n p q m l)%C.

Definition ifft2 (n : nat) (a : CMat) : CMat :=
  fun m l =>
    (RtoC (/ (INR n * INR n)) * np_csum n (fun p q => a p q * twiddle 1 n p q m l))%C.

(** [np.fft.fftshift] rolls both axes forward by [n // 2], [np.fft.ifftshift]
    rolls them back. *)
Definition fftshift (n : nat) (a : CMat) : CMat :=
  fun i j => a ((i + (n - n / 2)) mod n)%nat ((j + (n - n / 2)) mod n)%nat.

Definition ifftshift (n : nat) (a : CMat) : CMat :=
  fun i j => a ((i + n / 2) mod n)%nat ((j + n / 2) mod n)%nat.

(** One-dimensional arrays. *)

(** [a[lo:hi] = v]: a slice assignment is clipped to the array. *)
Definition set_slice (a : list R) (lo hi : nat) (v : R) : list R :=
  take lo a ++ replicate (length (take hi a) - lo) v ++ drop hi a.

(** [a[i]] for an index within the array. *)
Definition item (a : list R) (i : nat) : R := List.nth i a 0.

(** [a[-1]]. *)
Definition item_last (a : list R) : R := List.last a 0.

Fixpoint list_sum (a : list R) : R :=
  match a with
  | [] => 0
  | x :: rest => x + list_sum rest
  end.

(** The process-wide generator of [np.random]: the normal values it will
    return, in order. *)
Definition rng : Type := nat -> R.

(** [np.random.randn(n, m)]: fills the array in row-major order and leaves
    the generator advanced by [n * m] values. *)
Definition randn (n m : nat) (g : rng) : RMat * rng :=
  (fun i j => g (i * m + j)%nat, fun t => g (t + n * m)%nat).

Lemma sum_n_ext (f g : nat -> R) (n : nat) :
  (forall i, (i < n)%nat -> f i = g i) -> sum_n f n = sum_n g n.
Proof.
  induction n as [|n IH]; intros H; cbn [sum_n]; [reflexivity|].
  rewrite IH by (intros; apply H; lia). rewrite H by lia. reflexivity.
Qed.

Lemma sum_n_plus (f g : nat -> R) (n : nat) :
  sum_n (fun i => f i + g i) n = sum_n f n + sum_n g n.
Proof. induction n as [|n IH]; cbn [sum_n]; [|rewrite IH]; ring. Qed.

Lemma sum_n_scal (c : R) (f : nat -> R) (n : nat) :
  sum_n (fun i => c * f i) n = c * sum_n f n.
Proof. induction n as [|n IH]; cbn [sum_n]; [|rewrite IH]; ring. Qed.

Lemma sum_n_const (c : R) (n : nat) : sum_n (fun _ => c) n = INR n * c.
Proof.
  induction n as [|n IH]; [cbn; ring|].
  cbn [sum_n]. rewrite IH, S_INR. ring.
Qed.

Lemma csum_n_ext (f g : nat -> C) (n : nat) :
  (forall i, (i < n)%nat -> f i = g i) -> csum_n f n = csum_n g n.
Proof.
  induction n as [|n IH]; intros H; cbn [csum_n]; [reflexivity|].
  rewrite IH by (intros; apply H; lia). rewrite H by lia. reflexivity.
Qed.

Lemma csum_n_scal (c : C) (f : nat -> C) (n : nat) :
  csum_n (fun i => c * f i)%C n = (c * csum_n f n)%C.
Proof. induction n as [|n IH]; cbn [csum_n]; [|rewrite IH]; ring. Qed.

Lemma csum_n_zero (n : nat) : csum_n (fun _ => RtoC 0) n = RtoC 0.
Proof. induction n as [|n IH]; cbn [csum_n]; [|rewrite IH]; ring. Qed.

Lemma np_csum_ext (n : nat) (a b : CMat) :
  (forall i j, (i < n)%nat -> (j < n)%nat -> a i j = b i j) ->
  np_csum n a = np_csum n b.
Proof.
  intros H. apply csum_n_ext. intros i Hi. apply csum_n_ext. intros j Hj.
  now apply H.
Qed.

Lemma np_csum_scal (n : nat) (c : C) (a : CMat) :
  np_csum n (fun i j => c * a i j)%C = (c * np_csum n a)%C.
Proof.
  unfold np_csum. rewrite <- csum_n_scal. apply csum_n_ext. intros i _.
  apply csum_n_scal.
Qed.

Lemma np_csum_zero (n : nat) : np_csum n (fun _ _ => RtoC 0) = RtoC 0.
Proof.
  unfold np_csum. rewrite (csum_n_ext _ (fun _ => RtoC 0)).
  - apply csum_n_zero.
  - intros i _. apply csum_n_zero.
Qed.

End Np.

(** ** [src/WavePy.py]: class [WavePy] *)

Module WavePy.
Import Num Cx Np.

(** The keyword arguments of [WavePy.__init__]. *)
Record Params : Type := {
  p_simOption : Z;
  p_N : nat;
  p_SideLen : R;
  p_NumScr : nat;
  p_DRx : R;
  p_dx : R;
  p_wvl : R;
  p_PropDist : R;
  p_Cn2 : R;
  p_loon : R;
  p_aniso : R;
  p_Rdx : R
}.

(** Their default values. *)
Definition defaults : Params := {|
  p_simOption := 0; p_N := 256; p_SideLen := 1.0; p_NumScr := 10;
  p_DRx := 0.1; p_dx := 5e-3; p_wvl := 1e-6; p_PropDist := 10e3;
  p_Cn2 := 1e-16; p_loon := 1; p_aniso := 1.0; p_Rdx := 5e-3
|}.

(** The attributes of a [WavePy] object.  [Source] is [None] when
    [simOption] selects no source, [Uout] is a placeholder that stays
    [None], and [rytov] is an attribute that only [SetCn2Rytov] creates. *)
Record WavePy : Type := {
  N : nat;
  SideLen : R;
  dx : R;
  Rdx : R;
  L0 : R;
  l0 : R;
  NumScr : nat;
  DRx : R;
  wvl : R;
  PropDist : R;
  Cn2 : R;
  simOption : Z;
  theta : R;
  aniso : R;
  alpha : R;
  k : R;
  NumSubHarmonics : nat;
  DTx : R;
  w0 : R;
  loon : R;
  Output : CMat;
  Source : option CMat;
  r1 : RMat;
  x1 : RMat;
  y1 : RMat;
  rR : RMat;
  xR : RMat;
  yR : RMat;
  Uout : option CMat;
  dzProps : list R;
  PropLocs : list R;
  ScrnLoc : list R;
  FracPropDist : list R;
  PropSampling : list R;
  SamplingRatioBetweenScreen : list R;
  r0 : R;
  r0scrn : R;
  log_ampl_var : R;
  phase_var : R;
  rho_0 : R;
  rytovNum : R;
  rytovVar : R;
  rytov : option R
}.

(** *** Sources and masks *)

Definition PlaneSource : CMat := fun _ _ => RtoC 1.

Definition PointSource (DRx wvl PropDist k : R) (r1 x1 y1 : RMat) : CMat :=
  let DROI := 4.0 * DRx in
  let D1 := wvl * PropDist / DROI in
  let R := PropDist in
  fun i j =>
    let temp :=
      (Cexp (- Ci * RtoC k * RtoC (/ (2 * R)) * RtoC (r1 i j ^ 2)) * RtoC (/ (D1 ^ 2)))%C in
    (temp * RtoC (sinc (x1 i j / D1)) * RtoC (sinc (y1 i j / D1))
     * RtoC (exp (- (r1 i j / (4.0 * D1)) ^ 2)))%C.

Definition FlattePointSource (dx : R) (r1 : RMat) : CMat :=
  fun i j =>
    RtoC (exp (- (r1 i j ^ 2) / (10 * dx ^ 2)) * cos (- (r1 i j ^ 2) / (10 * dx ^ 2))).

Definition MakePupil (N : nat) (SideLen D_eval : R) : RMat :=
  let boundary1 := - (SideLen / 2) in
  let boundary2 := SideLen / 2 in
  let A : RMat := fun _ j => linspace boundary1 boundary2 N j in
  let B : RMat := fun i _ => 1 * linspace boundary1 boundary2 N i in
  fun i j =>
    let rad_dist := sqrt (A i j ^ 2 + B i j ^ 2) in
    if Rlt_dec rad_dist D_eval then 1.0
    else if Rlt_dec D_eval rad_dist then 0.0
    else 0.5.

Definition CollimatedGaussian (N : nat) (SideLen DTx w0 : R) (r1 : RMat) : CMat :=
  fun i j => RtoC (exp (- (r1 i j ^ 2 / w0 ^ 2)) * MakePupil N SideLen DTx i j).

(** *** Propagation geometry (the block "Set Propagation Geometry / Screen
    placement" of [__init__]) *)

Definition make_dzProps (NumScr : nat) (PropDist : R) : list R :=
  let dzProps := (fun o => o * (PropDist / INR NumScr)) <$> replicate (NumScr + 2) 1 in
  let dzProps := set_slice dzProps 0 2 (0.5 * (PropDist / INR NumScr)) in
  set_slice dzProps NumScr (NumScr + 2) (0.5 * (PropDist / INR NumScr)).

(** [for zval in range(0, NumScr+2): PropLocs[zval+1] = PropLocs[zval] +
    dzProps[zval]]; every index written or read is within its array. *)
Definition make_PropLocs (NumScr : nat) (dzProps : list R) : list R :=
  fold_left
    (fun PropLocs zval => <[S zval := item PropLocs zval + item dzProps zval]> PropLocs)
    (seq 0 (NumScr + 2))
    (replicate (NumScr + 3) 0).

Definition make_ScrnLoc (NumScr : nat) (PropLocs : list R) : list R :=
  drop 1 (take NumScr PropLocs) ++ [item PropLocs (NumScr + 1)].

Definition make_FracPropDist (PropLocs : list R) (PropDist : R) : list R :=
  (fun z => z / PropDist) <$> PropLocs.

Definition make_PropSampling (FracPropDist : list R) (dx Rdx : R) : list R :=
  (fun f => (Rdx - dx) * f + dx) <$> FracPropDist.

Definition make_SamplingRatio (PropSampling : list R) : list R :=
  zip_with Rdiv (drop 1 PropSampling) (take (length PropSampling - 1) PropSampling).

(** *** The constructor *)

Definition __init__ (p : Params) : WavePy :=
  let N := p_N p in
  let dx := p_dx p in
  let Rdx := p_Rdx p in
  let NumScr := p_NumScr p in
  let PropDist := p_PropDist p in
  let Cn2 := p_Cn2 p in
  let wvl := p_wvl p in
  let L0 := 1e3 in
  let k := 2 * PI / wvl in
  let DTx := 0.1 in
  let w0 := exp (-1) * DTx in
  let x := fun i => linspace (- INR N / 2) (INR N / 2 - 1) N i * dx in
  let x1 := meshgrid_X x in
  let y1 := meshgrid_Y x in
  let r1 : RMat := fun i j => sqrt (x1 i j ^ 2 + y1 i j ^ 2) in
  let Source :=
    if (p_simOption p =? 0)%Z then Some PlaneSource
    else if (p_simOption p =? 1)%Z then
      Some (PointSource (p_DRx p) wvl PropDist k r1 x1 y1)
    else if (p_simOption p =? 2)%Z then
      Some (CollimatedGaussian N (p_SideLen p) DTx w0 r1)
    else if (p_simOption p =? 3)%Z then Some (FlattePointSource dx r1)
    else None in
  let xr := fun i => linspace (- INR N / 2) (INR N / 2 - 1) N i * Rdx in
  let xR := meshgrid_X xr in
  let yR := meshgrid_Y xr in
  let rR : RMat := fun i j => sqrt (xR i j ^ 2 + yR i j ^ 2) in
  let dzProps := make_dzProps NumScr PropDist in
  let PropLocs := make_PropLocs NumScr dzProps in
  let FracPropDist := make_FracPropDist PropLocs PropDist in
  let PropSampling := make_PropSampling FracPropDist dx Rdx in
  let rytovNum := sqrt (1.23 * Cn2 * fpow k (7 / 6) * fpow PropDist (11 / 6)) in
  {| N := N;
     SideLen := p_SideLen p;
     dx := dx;
     Rdx := Rdx;
     L0 := L0;
     l0 := 1e-3;
     NumScr := NumScr;
     DRx := p_DRx p;
     wvl := wvl;
     PropDist := PropDist;
     Cn2 := Cn2;
     simOption := p_simOption p;
     theta := 0;
     aniso := p_aniso p;
     alpha := 22.0;
     k := k;
     NumSubHarmonics := 5;
     DTx := DTx;
     w0 := w0;
     loon := p_loon p;
     Output := fun _ _ => RtoC 0;
     Source := Source;
     r1 := r1; x1 := x1; y1 := y1;
     rR := rR; xR := xR; yR := yR;
     Uout := None;
     dzProps := dzProps;
     PropLocs := PropLocs;
     ScrnLoc := make_ScrnLoc NumScr PropLocs;
     FracPropDist := FracPropDist;
     PropSampling := PropSampling;
     SamplingRatioBetweenScreen := make_SamplingRatio PropSampling;
     r0 := fpow (0.423 * k ^ 2 * Cn2 * PropDist) (-3.0 / 5.0);
     r0scrn := fpow (0.423 * k ^ 2 * Cn2 * (PropDist / INR NumScr)) (-3.0 / 5.0);
     log_ampl_var := 0.3075 * k ^ 2 * fpow PropDist (11.0 / 6.0) * Cn2;
     phase_var := 0.78 * Cn2 * k ^ 2 * PropDist * fpow L0 (-5.0 / 3.0);
     rho_0 := fpow (1.46 * Cn2 * k ^ 2 * PropDist) (-5.0 / 3.0);
     rytovNum := rytovNum;
     rytovVar := rytovNum ^ 2;
     rytov := None |}.

(** *** [SetCn2Rytov] *)

(** The squared Rytov number is stored in the attribute [rytov];
    [rytovVar] is not assigned. *)
Definition SetCn2Rytov (self : WavePy) (UserRytov : R) : WavePy :=
  let rytovNum' := UserRytov in
  let rytov' := rytovNum' ^ 2 in
  let rytov_denom :=
    1.23 * fpow (k self) (7.0 / 6.0) * fpow (PropDist self) (11.0 / 6.0) in
  let Cn2' := rytov' / rytov_denom in
  {| N := N self;
     SideLen := SideLen self;
     dx := dx self;
     Rdx := Rdx self;
     L0 := L0 self;
     l0 := l0 self;
     NumScr := NumScr self;
     DRx := DRx self;
     wvl := wvl self;
     PropDist := PropDist self;
     Cn2 := Cn2';
     simOption := simOption self;
     theta := theta self;
     aniso := aniso self;
     alpha := alpha self;
     k := k self;
     NumSubHarmonics := NumSubHarmonics self;
     DTx := DTx self;
     w0 := w0 self;
     loon := loon self;
     Output := Output self;
     Source := Source self;
     r1 := r1 self; x1 := x1 self; y1 := y1 self;
     rR := rR self; xR := xR self; yR := yR self;
     Uout := Uout self;
     dzProps := dzProps self;
     PropLocs := PropLocs self;
     ScrnLoc := ScrnLoc self;
     FracPropDist := FracPropDist self;
     PropSampling := PropSampling self;
     SamplingRatioBetweenScreen := SamplingRatioBetweenScreen self;
     r0 := fpow (0.423 * k self ^ 2 * Cn2' * PropDist self) (-3.0 / 5.0);
     r0scrn :=
       fpow (0.423 * k self ^ 2 * Cn2' * (PropDist self / INR (NumScr self)))
            (-3.0 / 5.0);
     log_ampl_var := 0.3075 * k self ^ 2 * fpow (PropDist self) (11.0 / 6.0) * Cn2';
     phase_var :=
       0.78 * Cn2' * k self ^ 2 * PropDist self * fpow (L0 self) (-5.0 / 3.0);
     rho_0 := fpow (1.46 * Cn2' * k self ^ 2 * PropDist self) (-5.0 / 3.0);
     rytovNum := rytovNum';
     rytovVar := rytovVar self;
     rytov := Some rytov' |}.

(** *** Turbulence spectrum constants

    [PhaseScreen] computes these for the normalised exponent [na] and once
    more, under the names [Bnume], [conee], ..., for the Kolmogorov value
    [nae]; [SubHarmonicComp] computes [Bnum], [Bdenom], [Bfac] and [cone]
    again.  The formulas are the same and are written once here. *)

Definition Bnum (na : R) : R := gamma (na / 2.0).

Definition Bdenom (na : R) : R := fpow 2.0 (2.0 - na) * PI * na * gamma (- na / 2.0).

(** Stribling's consistency parameter [cone]. *)
Definition cone (na : R) : R :=
  2.0 * fpow (8.0 / (na - 2.0) * gamma (2.0 / (na - 2.0))) ((na - 2.0) / 2.0).

Definition Bfac (na : R) : R := fpow (2.0 * PI) (2.0 - na) * (Bnum na / Bdenom na).

Definition a_par (na : R) : R :=
  gamma (na - 1.0) * cos (na * PI / 2.0) / (4.0 * fpow PI 2.0).

(** Toselli's inner-scale parameter [c_a]. *)
Definition c_a (na : R) : R :=
  fpow (gamma (0.5 * (5.0 - na)) * a_par na * 2.0 * PI / 3.0) (1.0 / (na - 5.0)).

(** *** [PhaseScreen] *)

Definition del_f (self : WavePy) : R := 1.0 / (INR (N self) * dx self).

(** The scalar frequency grid [f], after the affine transform. *)
Definition freq_grid (self : WavePy) : RMat :=
  let b := aniso self in
  let c := 1.0 in
  let thetar := (PI / 180.0) * theta self in
  let fx1 := fun t => arange (- INR (N self) / 2.0) t * del_f self in
  fun i j =>
    let fx := meshgrid_X fx1 i j in
    let fy := meshgrid_Y (fun t => -1 * fx1 t) i j in
    let tx := fx * cos thetar + fy * sin thetar in
    let ty := -1.0 * fx * sin thetar + fy * cos thetar in
    sqrt (fpow tx 2.0 / fpow b 2.0 + fpow ty 2.0 / fpow c 2.0).

(** [PSD_phi] as first sampled (line 261). *)
Definition PSD_phi_sampled (self : WavePy) : RMat :=
  let b := aniso self in
  let c := 1.0 in
  let na := alpha self / 6.0 in
  let fm := c_a na / l0 self in
  let f0 := 1.0 / L0 self in
  fun i j =>
    let f := freq_grid self i j in
    cone na * Bfac na * fpow (b * c) (- na / 2.0)
    * fpow (r0scrn self) (2.0 - na) * exp (- fpow (f / fm) 2.0)
    / fpow (fpow f 2.0 + fpow f0 2.0) (na / 2.0).

Definition tot_NOK (self : WavePy) : R := np_sum (N self) (PSD_phi_sampled self).

(** The Kolmogorov equivalent [PSD_phie]. *)
Definition PSD_phie (self : WavePy) : RMat :=
  let nae := 22 / 6.0 in
  let fme := c_a nae / l0 self in
  let f0 := 1.0 / L0 self in
  fun i j =>
    let f := freq_grid self i j in
    cone nae * Bfac nae * fpow (r0scrn self) (2.0 - nae)
    * exp (- fpow (f / fme) 2.0)
    / fpow (fpow f 2.0 + fpow f0 2.0) (nae / 2.0).

Definition tot_OK (self : WavePy) : R := np_sum (N self) (PSD_phie self).

(** [PSD_phi = (tot_OK/tot_NOK) * PSD_phi] (line 275). *)
Definition PSD_phi_normalised (self : WavePy) : RMat :=
  fun i j => (tot_OK self / tot_NOK self) * PSD_phi_sampled self i j.

(** [cen = np.floor(self.N/2)]. *)
Definition cen (self : WavePy) : nat := (N self / 2)%nat.

(** [PSD_phi] after [PSD_phi[cen, cen] = 0.0] (line 278): the array that
    filters the noise. *)
Definition PSD_phi (self : WavePy) : RMat :=
  fun i j =>
    if (i =? cen self)%nat && (j =? cen self)%nat then 0.0
    else PSD_phi_normalised self i j.

Definition PhaseScreen (self : WavePy) (g : rng) : RMat * rng :=
  let n := N self in
  let '(re, g) := randn n n g in
  let '(im, g) := randn n n g in
  let cn : CMat := fun i j => (RtoC (re i j) + Ci * RtoC (im i j))%C in
  let cn : CMat :=
    fun i j => (cn i j * RtoC (sqrt (PSD_phi self i j)) * RtoC (del_f self))%C in
  let phz_temp : CMat :=
    fun i j => (ifft2 n (fftshift n cn) i j * RtoC (INR n ^ 2))%C in
  (fun i j => Cre (phz_temp i j), g).

(** *** [SubHarmonicComp] *)

Definition SubHarmonicComp (self : WavePy) (nsub : nat) (g : rng) : RMat * rng :=
  let n := N self in
  let dq := 1 / SideLen self in
  let na := alpha self / 6.0 in
  let b := aniso self in
  let c := 1 in
  let f0 := 1 / L0 self in
  let temp_m := linspace (-0.5) 0.5 n in
  let m_indices := meshgrid_X temp_m in
  let n_indices := meshgrid_Y (fun t => -1 * temp_m t) in
  let temp_mp := linspace (-2.5) 2.5 6 in
  let m_prime_indices := meshgrid_X temp_mp in
  let n_prime_indices := meshgrid_Y (fun t => -1 * temp_mp t) in
  let '(lof_phz, g) :=
    fold_left
      (fun '(lof_phz, g) Np =>
         let dqp := dq / (3.0 ^ Np) in
         let f_x : RMat := fun i j => / (3 ^ Np) * m_prime_indices i j * dq in
         let f_y : RMat := fun i j => / (3 ^ Np) * n_prime_indices i j * dq in
         let f : RMat := fun i j => sqrt (f_x i j ^ 2 / b ^ 2 + f_y i j ^ 2 / c ^ 2) in
         let PSD_fi : RMat :=
           fun i j =>
             cone na * Bfac na * fpow (b * c) (- na / 2)
             * fpow (r0scrn self) (2 - na) * fpow (f i j ^ 2 + f0 ^ 2) (- na / 2) in
         let '(wre, g) := randn 6 6 g in
         let '(wim, g) := randn 6 6 g in
         let cv : CMat :=
           fun i j =>
             ((RtoC (wre i j) + Ci * RtoC (wim i j))
              * RtoC (sqrt (PSD_fi i j)) * RtoC dqp)%C in
         let temp_phz : CMat :=
           fold_left
             (fun temp_phz n' =>
                fold_left
                  (fun temp_phz m' =>
                     let indexMap : RMat :=
                       fun i j =>
                         m_prime_indices n' m' * m_indices i j
                         + n_prime_indices n' m' * n_indices i j in
                     fun i j =>
                       (temp_phz i j
                        + cv m' n'
                          * Cexp (Ci * RtoC 2 * RtoC PI * RtoC (/ (3 ^ Np))
                                  * RtoC (indexMap i j)))%C)
                  (seq 0 6) temp_phz)
             (seq 0 6) (fun _ _ => RtoC 0) in
         ((fun i j => (lof_phz i j + temp_phz i j)%C) : CMat, g))
      (seq 1 nsub)
      ((fun _ _ => RtoC 0) : CMat, g) in
  let re : RMat := fun i j => Cre (lof_phz i j) in
  (fun i j => re i j - np_mean n re, g).

(** *** Exceptions and numbers *)

(** The exceptions of attribute access and of a call. *)
Inductive pyerr : Type :=
| AttributeError (name : string)
| TypeError.

Definition outcome (A : Type) : Type := (pyerr + A)%type.

(** A Python number is an [int] or a [float]. *)
Inductive number : Type :=
| pyint (n : Z)
| pyfloat (x : R).

Definition value (x : number) : R :=
  match x with
  | pyint n => IZR n
  | pyfloat x => x
  end.

(** [x / y] for a divisor that is not zero: true division, whose quotient
    is a float also for two ints. *)
Definition truediv (x y : number) : number := pyfloat (value x / value y).

(** [-x] keeps the type of [x]. *)
Definition neg (x : number) : number :=
  match x with
  | pyint n => pyint (- n)
  | pyfloat x => pyfloat (- x)
  end.

(** [range(start, stop)] takes ints and raises [TypeError] on a float
    (a float cannot be interpreted as an integer). *)
Definition range (start stop : number) : outcome (list Z) :=
  match start, stop with
  | pyint a, pyint b =>
      inr (map (fun t => (a + Z.of_nat t)%Z) (seq 0 (Z.to_nat (b - a))))
  | _, _ => inl TypeError
  end.

(** [np.meshgrid(x, y)]: [nx[i, j] = x[j]] and [ny[i, j] = y[i]]. *)
Definition meshgrid (x y : list Z) : RMat * RMat :=
  (fun _ j => IZR (nth j x 0%Z), fun i _ => IZR (nth i y 0%Z)).

(** *** The propagators *)

(** The super-Gaussian boundary. *)
Definition MakeSGB (self : WavePy) : RMat :=
  fun i j =>
    let rad := r1 self i j * INR (N self) in
    let w := 0.55 * INR (N self) in
    exp (- fpow (rad / w) 16.0).

(** A stack of screens, [a[i, j, t]]. *)
Definition RStack : Type := nat -> nat -> nat -> R.
Definition CStack : Type := nat -> nat -> nat -> C.

(** [a = self.N/2] is a float, and it bounds the two [range]s of line 368,
    which are evaluated from left to right before [np.meshgrid] is called.
    [P0 * self.Source] raises [TypeError] when no source was selected. *)
Definition VacuumProp (self : WavePy) : outcome CMat :=
  let n := N self in
  let sg := MakeSGB self in
  let SamplingRatio := SamplingRatioBetweenScreen self in
  let a := truediv (pyint (Z.of_nat n)) (pyint 2) in
  match range (neg a) a with
  | inl e => inl e
  | inr x =>
  match range (neg a) a with
  | inl e => inl e
  | inr y =>
    let '(nx, ny) := meshgrid x y in
    let P0 : CMat :=
      fun i j =>
        Cexp (Ci * RtoC (k self / (2 * item (dzProps self) 0))
              * RtoC (r1 self i j ^ 2) * RtoC (1 - item SamplingRatio 0))%C in
    match Source self with
    | None => inl TypeError
    | Some Source =>
      let Uin : CMat := fun i j => (P0 i j * Source i j)%C in
      let Uin :=
        fold_left
          (fun (Uin : CMat) pcount =>
             let UinSpec := fftshift n (fft2 n (fftshift n Uin)) in
             let deltaf := 1 / (INR n * item (PropSampling self) pcount) in
             let fsq : RMat :=
               fun i j => (nx i j * deltaf) ^ 2 + (ny i j * deltaf) ^ 2 in
             let QuadPhaseFac : CMat :=
               fun i j =>
                 Cexp (- Ci * RtoC PI * RtoC (wvl self)
                       * RtoC (item (dzProps self) pcount)
                       * RtoC (item SamplingRatio pcount) * RtoC (fsq i j))%C in
             let Uin : CMat :=
               ifftshift n
                 (ifft2 n (ifftshift n (fun i j => UinSpec i j * QuadPhaseFac i j)%C)) in
             (fun i j => Uin i j * RtoC (sg i j))%C)
          (seq 1 (length (PropLocs self) - 2 - 1))
          Uin in
      let PF : CMat :=
        fun i j =>
          Cexp (Ci * RtoC (k self / (2 * item_last (dzProps self)))
                * RtoC (rR self i j ^ 2) * RtoC (item_last SamplingRatio))%C in
      inr (fun i j => PF i j * Uin i j)%C
    end
  end
  end.

(** The argument [Uin] is an array or [None] ([TurbSim] passes
    [self.Source]); past the [range]s of line 410 it is rebound from
    [self.Source] without being read (line 416). *)
Definition SplitStepProp
  (self : WavePy) (Uin : option CMat) (PhaseScreenStack : CStack) : outcome CMat :=
  let n := N self in
  let sg := MakeSGB self in
  let SamplingRatio := SamplingRatioBetweenScreen self in
  let a := truediv (pyint (Z.of_nat n)) (pyint 2) in
  match range (neg a) a with
  | inl e => inl e
  | inr x =>
  match range (neg a) a with
  | inl e => inl e
  | inr y =>
    let '(nx, ny) := meshgrid x y in
    let P0 : CMat :=
      fun i j =>
        Cexp (Ci * RtoC (k self / (2 * item (dzProps self) 0))
              * RtoC (r1 self i j ^ 2) * RtoC (1 - item SamplingRatio 0))%C in
    match Source self with
    | None => inl TypeError
    | Some Source =>
      let Uin : CMat :=
        fun i j => (P0 i j * Source i j * Cexp (Ci * PhaseScreenStack i j 0%nat))%C in
      let Uin :=
        fold_left
          (fun (Uin : CMat) pcount =>
             let UinSpec := fftshift n (fft2 n (fftshift n Uin)) in
             let deltaf := 1 / (INR n * item (PropSampling self) pcount) in
             let fsq : RMat :=
               fun i j => (nx i j * deltaf) ^ 2 + (ny i j * deltaf) ^ 2 in
             let QuadPhaseFac : CMat :=
               fun i j =>
                 Cexp (- Ci * RtoC PI * RtoC (wvl self)
                       * RtoC (item (dzProps self) pcount)
                       * RtoC (item SamplingRatio pcount) * RtoC (fsq i j))%C in
             let Uin : CMat :=
               ifftshift n
                 (ifft2 n (ifftshift n (fun i j => UinSpec i j * QuadPhaseFac i j)%C)) in
             (fun i j =>
                Uin i j * RtoC (sg i j)
                * Cexp (Ci * PhaseScreenStack i j (pcount - 1)%nat))%C)
          (seq 1 (length (PropLocs self) - 2 - 1))
          Uin in
      let PF : CMat :=
        fun i j =>
          Cexp (Ci * RtoC (k self / (2 * item_last (dzProps self)))
                * RtoC (rR self i j ^ 2) * RtoC (item_last SamplingRatio))%C in
      inr (fun i j => PF i j * Uin i j)%C
    end
  end
  end.

(** *** [TurbSim] *)

(** [a[:, :, t] = m]. *)
Definition set_layer (a : RStack) (t : nat) (m : RMat) : RStack :=
  fun i j s => if (s =? t)%nat then m i j else a i j s.

(** The screen loop of [TurbSim]: the stacks [phz], [phz_lo], [phz_hi] and
    the generator it leaves. *)
Definition TurbSim_screens (self : WavePy) (g : rng)
  : (RStack * RStack * RStack) * rng :=
  fold_left
    (fun '(phz, phz_lo, phz_hi, g) idxscr =>
       let '(hi, g) := PhaseScreen self g in
       let phz_hi := set_layer phz_hi idxscr hi in
       let '(lo, g) := SubHarmonicComp self (NumSubHarmonics self) g in
       let phz_lo := set_layer phz_lo idxscr lo in
       let phz :=
         set_layer phz idxscr
           (fun i j => loon self * phz_lo i j idxscr + phz_hi i j idxscr) in
       (phz, phz_lo, phz_hi, g))
    (seq 0 (NumScr self))
    ((fun _ _ _ => 0) : RStack, (fun _ _ _ => 0) : RStack, (fun _ _ _ => 0) : RStack, g).

(** [self.Output = value]. *)
Definition set_Output (self : WavePy) (value : CMat) : WavePy :=
  {| N := N self;
     SideLen := SideLen self;
     dx := dx self;
     Rdx := Rdx self;
     L0 := L0 self;
     l0 := l0 self;
     NumScr := NumScr self;
     DRx := DRx self;
     wvl := wvl self;
     PropDist := PropDist self;
     Cn2 := Cn2 self;
     simOption := simOption self;
     theta := theta self;
     aniso := aniso self;
     alpha := alpha self;
     k := k self;
     NumSubHarmonics := NumSubHarmonics self;
     DTx := DTx self;
     w0 := w0 self;
     loon := loon self;
     Output := value;
     Source := Source self;
     r1 := r1 self; x1 := x1 self; y1 := y1 self;
     rR := rR self; xR := xR self; yR := yR self;
     Uout := Uout self;
     dzProps := dzProps self;
     PropLocs := PropLocs self;
     ScrnLoc := ScrnLoc self;
     FracPropDist := FracPropDist self;
     PropSampling := PropSampling self;
     SamplingRatioBetweenScreen := SamplingRatioBetweenScreen self;
     r0 := r0 self;
     r0scrn := r0scrn self;
     log_ampl_var := log_ampl_var self;
     phase_var := phase_var self;
     rho_0 := rho_0 self;
     rytovNum := rytovNum self;
     rytovVar := rytovVar self;
     rytov := rytov self |}.

(** [TurbSim] builds the screens, then hands [SplitStepProp] the source and
    the stack [np.exp(1j*phz)].  The screen loop has advanced the generator
    whether or not the propagation returns; [self.Output] is assigned only
    when it does, and an exception leaves the object as it was. *)
Definition TurbSim (self : WavePy) (g : rng) : outcome WavePy * rng :=
  let '(phz, _, _, g) := TurbSim_screens self g in
  (match
     SplitStepProp self (Source self) (fun i j t => Cexp (Ci * RtoC (phz i j t))%C)
   with
   | inl e => inl e
   | inr Output => inr (set_Output self Output)
   end, g).

(** [self.alpha = value]: the power-law exponent is an attribute the
    caller sets after construction. *)
Definition set_alpha (self : WavePy) (value : R) : WavePy :=
  {| N := N self;
     SideLen := SideLen self;
     dx := dx self;
     Rdx := Rdx self;
     L0 := L0 self;
     l0 := l0 self;
     NumScr := NumScr self;
     DRx := DRx self;
     wvl := wvl self;
     PropDist := PropDist self;
     Cn2 := Cn2 self;
     simOption := simOption self;
     theta := theta self;
     aniso := aniso self;
     alpha := value;
     k := k self;
     NumSubHarmonics := NumSubHarmonics self;
     DTx := DTx self;
     w0 := w0 self;
     loon := loon self;
     Output := Output self;
     Source := Source self;
     r1 := r1 self; x1 := x1 self; y1 := y1 self;
     rR := rR self; xR := xR self; yR := yR self;
     Uout := Uout self;
     dzProps := dzProps self;
     PropLocs := PropLocs self;
     ScrnLoc := ScrnLoc self;
     FracPropDist := FracPropDist self;
     PropSampling := PropSampling self;
     SamplingRatioBetweenScreen := SamplingRatioBetweenScreen self;
     r0 := r0 self;
     r0scrn := r0scrn self;
     log_ampl_var := log_ampl_var self;
     phase_var := phase_var self;
     rho_0 := rho_0 self;
     rytovNum := rytovNum self;
     rytovVar := rytovVar self;
     rytov := rytov self |}.

(** *** Arguments of a simulation

    The arguments a simulation is built with: a grid of at least one
    point, at least one screen, and positive lengths, wavelength,
    turbulence strength and anisotropy.  On these no step of the
    constructor or of the screen generators divides by zero or takes a
    fractional power of a non-positive number. *)
Record physical (p : Params) : Prop := {
  phys_N : (1 <= p_N p)%nat;
  phys_NumScr : (1 <= p_NumScr p)%nat;
  phys_SideLen : 0 < p_SideLen p;
  phys_DRx : 0 < p_DRx p;
  phys_dx : 0 < p_dx p;
  phys_Rdx : 0 < p_Rdx p;
  phys_wvl : 0 < p_wvl p;
  phys_PropDist : 0 < p_PropDist p;
  phys_Cn2 : 0 < p_Cn2 p;
  phys_aniso : 0 < p_aniso p
}.

(** *** [EvalSI] *)

(** The names defined in the body of [class WavePy], and the attributes
    that [__init__] assigns to an object; [SetCn2Rytov] adds [rytov]. *)
Definition class_namespace : list string :=
  ["__init__"; "PlaneSource"; "PointSource"; "FlattePointSource";
   "CollimatedGaussian"; "MakeSGB"; "MakePupil"; "PhaseScreen";
   "SubHarmonicComp"; "VacuumProp"; "SplitStepProp"; "TurbSim"; "SetCn2Rytov";
   "EvalSI"; "StructFunc"; "Validate"].

Definition instance_namespace : list string :=
  ["N"; "SideLen"; "dx"; "Rdx"; "L0"; "l0"; "NumScr"; "DRx"; "wvl"; "PropDist";
   "Cn2"; "simOption"; "theta"; "aniso"; "alpha"; "k"; "NumSubHarmonics"; "DTx";
   "w0"; "loon"; "Output"; "Source"; "r1"; "x1"; "y1"; "rR"; "xR"; "yR"; "Uout";
   "dzProps"; "PropLocs"; "ScrnLoc"; "FracPropDist"; "PropSampling";
   "SamplingRatioBetweenScreen"; "r0"; "r0scrn"; "log_ampl_var"; "phase_var";
   "rho_0"; "rytovNum"; "rytovVar"].

(** [self.name]: the name is looked up on the object, then on the class
    (the attributes that every Python object has are left out). *)
Definition getattr (self : WavePy) (name : string) : outcome string :=
  let instance :=
    instance_namespace ++ match rytov self with Some _ => ["rytov"] | None => [] end in
  if existsb (String.eqb name) (instance ++ class_namespace)
  then inr name
  else inl (AttributeError name).

(** [attribute(D_eval)] for an attribute that was found.  [MakePupil] is
    the one attribute that takes a diameter and returns a mask; a call of
    any other is not a mask. *)
Definition call_mask (attribute : string) (self : WavePy) (D_eval : R) : outcome RMat :=
  if String.eqb attribute "MakePupil"
  then inr (MakePupil (N self) (SideLen self) D_eval)
  else inl TypeError.

(** [a.ravel()] of an n-by-n array, in row-major order. *)
Definition ravel (n : nat) (a : RMat) : list R :=
  flat_map (fun i => map (fun j => a i j) (seq 0 n)) (seq 0 n).

(** [a[np.flatnonzero(a)]] of a one-dimensional array. *)
Definition nonzero (a : list R) : list R :=
  List.filter (fun x => if Req_EM_T x 0 then false else true) a.

(** [np.mean] of a one-dimensional array. *)
Definition mean (a : list R) : R := list_sum a / INR (length a).

(** [np.abs] of a complex number. *)
Definition Cabs (z : C) : R := sqrt (fst z * fst z + snd z * snd z).

(** The operands of the first product are evaluated from left to right:
    the intensity, then the attribute [self.makePupil]. *)
Definition EvalSI (self : WavePy) : outcome R :=
  let intensity : RMat := fun i j => Cabs (Output self i j) ^ 2 in
  match getattr self "makePupil" with
  | inl e => inl e
  | inr makePupil =>
      match call_mask makePupil self (DRx self) with
      | inl e => inl e
      | inr mask =>
          let temp_s : RMat := fun i j => intensity i j * mask i j in
          let temp_s := nonzero (ravel (N self) temp_s) in
          let s_i := mean (map (fun x => x ^ 2) temp_s) / mean temp_s ^ 2 - 1 in
          inr s_i
      end
  end.

End WavePy.

(** ** [src/wavepy3/atmos/atmos.py]: class [Atmos] *)

Module Atmos.
Import Num.

(** Modelled from the spec: the modules [psd] and [phase_screen], whose
    functions [Atmos] looks up by name and calls, are not among the
    sources.  A PSD function is represented by the constructor that made
    it and its arguments, a phase screen by the synthesis method that was
    called and its inputs; both calls are taken to return. *)
Inductive psd_ctor : Type :=
| kolmogorov
| vonkarman
| modified_vonkarman
| wavepy_og.

Inductive screen_fn : Type :=
| ft_sh_phase_screen
| ft_phase_screen
| vacuum.

(** The Python values that occur in the settings. *)
#[local] Set Warnings "-register-all".
Inductive pyval : Type :=
| VStr (s : string)
| VFloat (x : R)
| VInf
| VInt (n : Z)
| VNone
| VPsd (c : psd_ctor) (args : list pyval).

Record screen_t : Type := Screen { screen_by : screen_fn; screen_inputs : list pyval }.

Inductive exn : Type :=
| KeyError (key : pyval)
| IndexError
| TypeError.

(** The outcome of a call: an exception raised or a value returned. *)
Definition result (A : Type) : Type := (exn + A)%type.

Definition raise {A : Type} (e : exn) : result A := inl e.
Definition ret {A : Type} (a : A) : result A := inr a.
Definition bind {A B : Type} (m : result A) (f : A -> result B) : result B :=
  match m with
  | inl e => inl e
  | inr a => f a
  end.

Notation "'do' x <- m ; f" := (bind m (fun x => f))
  (at level 10, x name, m at level 100, f at level 200).

(** [try: body except KeyError: handler]. *)
Definition except_KeyError {A : Type} (body : result A) (handler : A) : result A :=
  match body with
  | inl (KeyError _) => ret handler
  | other => other
  end.

Fixpoint mapM {A B : Type} (f : A -> result B) (l : list A) : result (list B) :=
  match l with
  | [] => ret []
  | x :: rest => do y <- f x; do ys <- mapM f rest; ret (y :: ys)
  end.

Abbreviation dict := (gmap string pyval).

(** [v == s] for a string literal [s]. *)
Definition is_str (v : pyval) (s : string) : bool :=
  match v with
  | VStr t => String.eqb t s
  | _ => false
  end.

(** [d[key]] for a string literal [key]. *)
Definition getitem (d : dict) (key : string) : result pyval :=
  match d !! key with
  | Some v => ret v
  | None => raise (KeyError (VStr key))
  end.

(** [table[v]] for a table keyed by strings and any value [v]. *)
Definition lookup_val {A : Type} (table : gmap string A) (v : pyval) : result A :=
  match v with
  | VStr s =>
      match table !! s with
      | Some a => ret a
      | None => raise (KeyError v)
      end
  | _ => raise (KeyError v)
  end.

Definition screen_method_dict : gmap string screen_fn :=
  {[ "ft_sh" := ft_sh_phase_screen; "ft" := ft_phase_screen; "vacuum" := vacuum ]}.

Definition psd_dict : gmap string psd_ctor :=
  {[ "kolmogorov" := kolmogorov; "vonKarman" := vonkarman;
     "modified_vonKarman" := modified_vonkarman; "wavepy_og" := wavepy_og ]}.

Definition psd_input_dict : gmap string (list string) :=
  {[ "kolmogorov" := []; "vonKarman" := ["L0"];
     "modified_vonKarman" := ["L0"; "l0"] ]}.

Definition phase_screen_input_dict : gmap string (list string) :=
  {[ "vacuum" := ["N"]; "ft" := ["N"; "dx"; "r0"; "psd"];
     "ft_sh" := ["N"; "dx"; "n_subharm"; "r0"; "psd"] ]}.

Record Atmos : Type := {
  n_gridpts : nat;
  screen_locations : list R;
  dx_sampling : list R;
  n_scr : nat;
  screen_method_name : pyval;
  screen_method : screen_fn;
  settings : dict;
  psd_name : option pyval;
  psd : pyval;
  r0s : list pyval;
  screen : list screen_t
}.

(** [__psd_setup]. *)
Definition psd_setup (psd_name : pyval) (settings : dict) : result pyval :=
  do psd_raw <- lookup_val psd_dict psd_name;
  do setting_names <- lookup_val psd_input_dict psd_name;
  do args <- mapM (getitem settings) setting_names;
  ret (VPsd psd_raw args).

(** [value / d] for a positive float [d]. *)
Definition truediv (value : pyval) (d : R) : result pyval :=
  match value with
  | VFloat x => ret (VFloat (x / d))
  | VInt n => ret (VFloat (IZR n / d))
  | VInf => ret VInf
  | _ => raise TypeError
  end.

(** [__screen_method_input] with the calls of the list comprehension that
    consumes it: the dictionary [a] is carried from one screen to the next,
    and in each merge [{..., **a}] the entries of [a] win. *)
Fixpoint make_screens (method : screen_fn) (keys : list string) (a : dict)
  (inputs : list (R * pyval)) : result (list screen_t) :=
  match inputs with
  | [] => ret []
  | (dx, r0) :: rest =>
      let a := a ∪ {[ "dx" := VFloat dx; "r0" := r0 ]} in
      do args <- mapM (getitem a) keys;
      do screens <- make_screens method keys a rest;
      ret (Screen method args :: screens)
  end.

Definition __init__ (n_gridpts : nat) (z : list R) (dx_0 dx_n : R) (settings : dict)
  : result Atmos :=
  match z with
  | [] => raise IndexError
  | _ :: _ =>
      let prop_frac := (fun x => x / List.last z 0) <$> z in
      let dx_sampling := (fun f => (dx_n - dx_0) * f + dx_0) <$> prop_frac in
      let n_scr := length z in
      do screen_method_name <- getitem settings "screen_method_name";
      do screen_method <- lookup_val screen_method_dict screen_method_name;
      let self_settings := delete "psd_name" (delete "screen_method_name" settings) in
      do psd_state <-
        except_KeyError
          (do psd_name <- getitem settings "psd_name";
           except_KeyError
             (do psd <- psd_setup psd_name self_settings; ret (Some psd_name, psd))
             (Some psd_name, VNone))
          (None, VNone);
      let '(psd_name, psd) := psd_state in
      let self_settings :=
        if is_str screen_method_name "vacuum"
        then <[ "r0" := VInf ]> self_settings
        else self_settings in
      do r0 <- getitem self_settings "r0";
      do r0_scr <- truediv r0 (fpow (INR n_scr) (- 3 / 5));
      let r0s := replicate n_scr r0_scr in
      do keys <- lookup_val phase_screen_input_dict screen_method_name;
      let a := self_settings ∪ {[ "N" := VInt (Z.of_nat n_gridpts); "psd" := psd ]} in
      do screen <- make_screens screen_method keys a (zip dx_sampling r0s);
      ret {| n_gridpts := n_gridpts;
             screen_locations := z;
             dx_sampling := dx_sampling;
             n_scr := n_scr;
             screen_method_name := screen_method_name;
             screen_method := screen_method;
             settings := self_settings;
             psd_name := psd_name;
             psd := psd;
             r0s := r0s;
             screen := screen |}
  end.

(** [__len__]. *)
Definition __len__ (self : Atmos) : nat := length (screen self).

(** [__getitem__] for an integer key; a negative key counts from the
    end. *)
Definition __getitem__ (self : Atmos) (key : Z) : result screen_t :=
  let n := Z.of_nat (length (screen self)) in
  let i := if (key <? 0)%Z then (key + n)%Z else key in
  if (i <? 0)%Z then raise IndexError
  else match screen self !! Z.to_nat i with
       | Some s => ret s
       | None => raise IndexError
       end.

(** A float argument that may be [float('inf')]. *)
Inductive efloat : Type :=
| finite (x : R)
| inf.

(** The static method [__vonKarman_psd], at one frequency [f]. *)
Definition __vonKarman_psd (r0 f : R) (fm : efloat) (f0 : R) : R :=
  let f_ratio :=
    match fm with
    | inf => 0
    | finite fm => f / fm
    end in
  0.023 * fpow r0 (-5 / 3) * exp (- f_ratio ^ 2) / fpow (f ^ 2 + f0 ^ 2) (11 / 6).

End Atmos.

(** ** Facts: propagation geometry *)

Module Geometry.
Import Num Cx Np WavePy.

Lemma list_sum_app (a b : list R) : list_sum (a ++ b) = list_sum a + list_sum b.
Proof.
  induction a as [|x a IH]; cbn [list_sum app]; [lra|].
  rewrite IH. lra.
Qed.

Lemma list_sum_replicate (n : nat) (x : R) : list_sum (replicate n x) = INR n * x.
Proof.
  induction n as [|n IH]; [cbn; lra|].
  cbn [replicate list_sum]. rewrite IH, S_INR. lra.
Qed.

(** The segment lengths in closed form, for two screens or more: two half
    steps, [NumScr - 2] full steps, two half steps. *)
Lemma make_dzProps_closed (m : nat) (L : R) :
  make_dzProps (S (S m)) L =
  replicate 2 (0.5 * (L / INR (S (S m))))
  ++ replicate m (1 * (L / INR (S (S m))))
  ++ replicate 2 (0.5 * (L / INR (S (S m)))).
Proof.
  unfold make_dzProps, set_slice.
  set (f := L / INR (S (S m))). set (h := 0.5 * f).
  rewrite fmap_replicate.
  rewrite take_0, drop_replicate, take_replicate, length_replicate.
  replace (2 `min` (S (S m) + 2) - 0)%nat with 2%nat by lia.
  replace (S (S m) + 2 - 2)%nat with (m + 2)%nat by lia.
  cbn [app].
  rewrite !length_take, !length_app, !length_replicate.
  replace ((S (S m) + 2) `min` (2 + (m + 2)) - S (S m))%nat with 2%nat by lia.
  rewrite drop_ge by (rewrite length_app, !length_replicate; lia).
  rewrite take_app_ge by (rewrite length_replicate; lia).
  rewrite length_replicate, take_replicate.
  replace ((S (S m) - 2) `min` (m + 2))%nat with m by lia.
  now rewrite app_nil_r.
Qed.


Lemma item_lookup (a : list R) (i : nat) (x : R) : a !! i = Some x -> item a i = x.
Proof. intros H. unfold item. rewrite nth_lookup, H. reflexivity. Qed.

Lemma item_insert_eq (a : list R) (i : nat) (x : R) :
  (i < length a)%nat -> item (<[i := x]> a) i = x.
Proof. intros H. apply item_lookup. now apply list_lookup_insert_eq. Qed.

Lemma item_insert_ne (a : list R) (i j : nat) (x : R) :
  i <> j -> item (<[i := x]> a) j = item a j.
Proof.
  intros H. unfold item. rewrite !nth_lookup, list_lookup_insert_ne by exact H.
  reflexivity.
Qed.

Lemma list_sum_take_S (a : list R) (i : nat) :
  (i < length a)%nat -> list_sum (take (S i) a) = list_sum (take i a) + item a i.
Proof.
  intros H. destruct (lookup_lt_is_Some_2 a i H) as [x Hx].
  rewrite (take_S_r _ _ _ Hx), list_sum_app, (item_lookup _ _ _ Hx).
  cbn [list_sum]. lra.
Qed.

(** The loop that fills [PropLocs], after its first [t] rounds: the planes
    up to [t] hold the running sums of the segment lengths and the rest is
    still zero. *)
Lemma PropLocs_loop (n : nat) (dz : list R) (t : nat) :
  length dz = (n + 2)%nat -> (t <= n + 2)%nat ->
  let P := fold_left
             (fun PropLocs zval =>
                <[S zval := item PropLocs zval + item dz zval]> PropLocs)
             (seq 0 t) (replicate (n + 3) 0) in
  length P = (n + 3)%nat /\
  (forall i, (i <= t)%nat -> item P i = list_sum (take i dz)) /\
  (forall i, (t < i)%nat -> item P i = 0).
Proof.
  intros Hlen. induction t as [|t IH]; intros Ht P.
  - subst P. cbn [seq fold_left]. rewrite length_replicate. split; [reflexivity|].
    split; intros i Hi.
    + replace i with O by lia. cbn. apply item_lookup.
      now rewrite lookup_replicate_2 by lia.
    + unfold item. rewrite nth_lookup.
      destruct (decide (i < n + 3)%nat) as [Hlt|Hge].
      * now rewrite lookup_replicate_2 by lia.
      * rewrite lookup_ge_None_2; [reflexivity|]. rewrite length_replicate. lia.
  - subst P. rewrite seq_S, fold_left_app. cbn [fold_left Nat.add].
    destruct (IH ltac:(lia)) as (HL & Hlo & Hhi).
    set (Q := fold_left _ (seq 0 t) _) in *.
    rewrite length_insert. split; [exact HL|]. split; intros i Hi.
    + destruct (decide (i = S t)) as [->|Hne].
      * rewrite item_insert_eq by lia. rewrite Hlo by lia.
        symmetry. apply list_sum_take_S. lia.
      * rewrite item_insert_ne by congruence. apply Hlo. lia.
    + rewrite item_insert_ne by lia. apply Hhi. lia.
Qed.

Lemma make_PropLocs_spec (n : nat) (dz : list R) :
  length dz = (n + 2)%nat ->
  length (make_PropLocs n dz) = (n + 3)%nat /\
  forall i, (i <= n + 2)%nat -> item (make_PropLocs n dz) i = list_sum (take i dz).
Proof.
  intros Hlen. destruct (PropLocs_loop n dz (n + 2) Hlen ltac:(lia)) as (H1 & H2 & _).
  split; assumption.
Qed.


Lemma item_dzProps (m : nat) (L : R) (i : nat) :
  (i < S (S m) + 2)%nat ->
  item (make_dzProps (S (S m)) L) i =
    if (i <? 2)%nat || (S (S m) <=? i)%nat
    then L / (2 * INR (S (S m))) else L / INR (S (S m)).
Proof.
  intros Hi. rewrite make_dzProps_closed.
  assert (Hn : INR (S (S m)) <> 0) by (apply not_0_INR; lia).
  set (f := L / INR (S (S m))).
  assert (Eh : 0.5 * f = L / (2 * INR (S (S m)))) by (unfold f; dec; field; exact Hn).
  apply item_lookup.
  destruct (Nat.ltb_spec i 2) as [H2|H2]; cbn [orb].
  - rewrite lookup_app_l by (rewrite length_replicate; lia).
    rewrite lookup_replicate_2 by lia. now rewrite Eh.
  - rewrite lookup_app_r by (rewrite length_replicate; lia).
    rewrite length_replicate.
    destruct (Nat.leb_spec (S (S m)) i) as [Hge|Hlt].
    + rewrite lookup_app_r by (rewrite length_replicate; lia).
      rewrite length_replicate, lookup_replicate_2 by lia. now rewrite Eh.
    + rewrite lookup_app_l by (rewrite length_replicate; lia).
      rewrite lookup_replicate_2 by lia. f_equal. lra.
Qed.

Lemma list_sum_dzProps (m : nat) (L : R) : list_sum (make_dzProps (S (S m)) L) = L.
Proof.
  rewrite make_dzProps_closed, !list_sum_app, !list_sum_replicate.
  assert (Hn : INR (S (S m)) <> 0) by (apply not_0_INR; lia).
  rewrite !S_INR in *. cbn [INR] in *. dec. field. exact Hn.
Qed.

Lemma length_dzProps (n : nat) (L : R) : length (make_dzProps n L) = (n + 2)%nat.
Proof.
  unfold make_dzProps, set_slice.
  rewrite !length_app, !length_replicate, !length_take, !length_drop, !length_app,
    !length_replicate, !length_take, !length_drop, !length_fmap, !length_replicate.
  lia.
Qed.

(** With a single screen the two half-step slices [0:2] and [1:3] overlap
    and all three segments are half steps. *)
Lemma make_dzProps_one (L : R) :
  make_dzProps 1 L = replicate 3 (0.5 * (L / INR 1)).
Proof. reflexivity. Qed.

(** [WavePy(NumScr=n)]: the defaults with another number of screens. *)
Definition with_NumScr (n : nat) (p : Params) : Params := {|
  p_simOption := p_simOption p; p_N := p_N p; p_SideLen := p_SideLen p;
  p_NumScr := n; p_DRx := p_DRx p; p_dx := p_dx p; p_wvl := p_wvl p;
  p_PropDist := p_PropDist p; p_Cn2 := p_Cn2 p; p_loon := p_loon p;
  p_aniso := p_aniso p; p_Rdx := p_Rdx p
|}.

(** C4, as amended.  For every [NumScr >= 2] and every path length, the
    [NumScr + 2] segment lengths sum to the path length (also as the
    constructor accumulates them: the last plane of [PropLocs] lies at
    [PropDist]); the two segments nearest the source and the two nearest
    the receiver have half length [PropDist / (2 * NumScr)], every other
    segment has full length [PropDist / NumScr]. *)
Theorem C4_segment_lengths (p : Params) :
  (2 <= p_NumScr p)%nat ->
  let self := __init__ p in
  let n := NumScr self in
  let L := PropDist self in
  length (dzProps self) = (n + 2)%nat /\
  list_sum (dzProps self) = L /\
  item (PropLocs self) (n + 2) = L /\
  forall i, (i < n + 2)%nat ->
    item (dzProps self) i =
      if (i <? 2)%nat || (n <=? i)%nat then L / (2 * INR n) else L / INR n.
Proof.
  intros Hn. cbn [__init__ dzProps PropLocs NumScr PropDist].
  destruct (p_NumScr p) as [|[|m]]; [lia|lia|].
  split; [apply length_dzProps|]. split; [apply list_sum_dzProps|]. split.
  - destruct (make_PropLocs_spec (S (S m)) _ (length_dzProps (S (S m)) (p_PropDist p)))
      as [_ H].
    rewrite H by lia. rewrite take_ge by (rewrite length_dzProps; lia).
    apply list_sum_dzProps.
  - intros i Hi. now apply item_dzProps.
Qed.

(** The theorem at the default arguments (ten screens). *)
Lemma C4_segment_lengths_witness :
  (2 <= p_NumScr defaults)%nat /\
  list_sum (dzProps (__init__ defaults)) = PropDist (__init__ defaults).
Proof.
  split; [cbn; lia|].
  apply (C4_segment_lengths defaults). cbn; lia.
Defined.

(** C4 as stated fails: with the default ten screens the second segment,
    an interior one, has half length; with one screen the three segments
    sum to one and a half path lengths. *)
Lemma C4_counterexample :
  item (dzProps (__init__ defaults)) 1
    <> PropDist (__init__ defaults) / INR (NumScr (__init__ defaults))
  /\ list_sum (dzProps (__init__ (with_NumScr 1 defaults)))
    <> PropDist (__init__ (with_NumScr 1 defaults)).
Proof.
  split.
  - cbn [__init__ dzProps PropDist NumScr defaults p_NumScr p_PropDist].
    change 10%nat with (S (S 8)). rewrite item_dzProps by lia.
    cbn [Nat.ltb Nat.leb orb]. rewrite !S_INR. cbn [INR]. lra.
  - cbn [__init__ dzProps PropDist NumScr defaults with_NumScr p_NumScr p_PropDist].
    rewrite make_dzProps_one. cbn [replicate list_sum INR]. lra.
Qed.

End Geometry.

(** ** Facts: sampling ratios *)

Module Sampling.
Import Num Cx Np WavePy Geometry.

Lemma make_PropLocs_one (a b c : R) :
  make_PropLocs 1 [a; b; c] = [0; 0 + a; 0 + a + b; 0 + a + b + c].
Proof. reflexivity. Qed.

Lemma make_SamplingRatio_four (s0 s1 s2 s3 : R) :
  make_SamplingRatio [s0; s1; s2; s3] = [s1 / s0; s2 / s1; s3 / s2].
Proof. reflexivity. Qed.

(** One screen, a source pitch of 4 cm and a receiver pitch of 1 cm; the
    other arguments keep their defaults. *)
Definition one_screen_wide_source : Params := {|
  p_simOption := 0; p_N := 256; p_SideLen := 1.0; p_NumScr := 1;
  p_DRx := 0.1; p_dx := 4e-2; p_wvl := 1e-6; p_PropDist := 10e3;
  p_Cn2 := 1e-16; p_loon := 1; p_aniso := 1.0; p_Rdx := 1e-2
|}.

(** C5 at a failing input.  With one screen the three segments are all
    half steps of [PropDist / 2], so the last plane lies at one and a half
    path lengths and its pitch is [1.5 * Rdx - 0.5 * dx], which is negative
    for [dx > 3 * Rdx]: here the pitches are 0.04, 0.025, 0.01 and -0.005,
    and the last of the three sampling ratios is [-0.5], not strictly
    positive. *)
Theorem C5_single_screen_ratio_negative :
  let self := __init__ one_screen_wide_source in
  length (SamplingRatioBetweenScreen self) = 3%nat /\
  item (PropLocs self) 3 = 1.5 * PropDist self /\
  item (PropSampling self) 3 = -0.005 /\
  item (SamplingRatioBetweenScreen self) 2 = -0.5 /\
  item (SamplingRatioBetweenScreen self) 2 < 0.
Proof.
  cbn [__init__ SamplingRatioBetweenScreen PropLocs PropDist PropSampling
       one_screen_wide_source p_NumScr p_PropDist p_dx p_Rdx].
  rewrite make_dzProps_one. cbn [replicate].
  rewrite make_PropLocs_one.
  unfold make_FracPropDist, make_PropSampling. cbn [fmap list_fmap].
  rewrite make_SamplingRatio_four.
  split; [reflexivity|]. split; [cbn [item nth INR]; dec; lra|].
  cbn [item nth INR].
  match goal with
  | |- ?s3 = _ /\ ?s3 / ?s2 = _ /\ _ =>
      assert (H3 : s3 = -0.005) by (dec; lra);
      assert (H2 : s2 = 0.01) by (dec; lra);
      rewrite H3, H2
  end.
  dec. lra.
Qed.

Lemma item_fmap (f : R -> R) (a : list R) (i : nat) :
  (i < length a)%nat -> item (f <$> a) i = f (item a i).
Proof.
  intros Hi. destruct (lookup_lt_is_Some_2 a i Hi) as [x Hx].
  rewrite (item_lookup a i x Hx). apply item_lookup.
  now rewrite list_lookup_fmap, Hx.
Qed.

Lemma length_SamplingRatio (s : list R) :
  length (make_SamplingRatio s) = (length s - 1)%nat.
Proof.
  unfold make_SamplingRatio. rewrite length_zip_with, length_drop, length_take. lia.
Qed.

Lemma item_SamplingRatio (s : list R) (i : nat) :
  (S i < length s)%nat -> item (make_SamplingRatio s) i = item s (S i) / item s i.
Proof.
  intros Hi.
  destruct (lookup_lt_is_Some_2 s i ltac:(lia)) as [x Hx].
  destruct (lookup_lt_is_Some_2 s (S i) Hi) as [y Hy].
  rewrite (item_lookup s i x Hx), (item_lookup s (S i) y Hy).
  apply item_lookup. unfold make_SamplingRatio.
  apply lookup_zip_with_Some. exists y, x. split; [reflexivity|]. split.
  - rewrite lookup_drop. exact Hy.
  - rewrite lookup_take_lt by lia. exact Hx.
Qed.

Lemma list_sum_take_bounds (a : list R) :
  Forall (fun x => 0 <= x) a ->
  forall i, 0 <= list_sum (take i a) <= list_sum a.
Proof.
  induction 1 as [|x a Hx _ IH]; intros i.
  - rewrite take_nil. cbn [list_sum]. lra.
  - destruct i as [|i]; cbn [take list_sum].
    + pose proof (IH O) as H. rewrite take_0 in H. cbn [list_sum] in H. lra.
    + specialize (IH i). lra.
Qed.

Lemma dzProps_nonneg (m : nat) (L : R) :
  0 < L -> Forall (fun x => 0 <= x) (make_dzProps (S (S m)) L).
Proof.
  intros HL. rewrite make_dzProps_closed.
  assert (Hf : 0 < L / INR (S (S m))).
  { apply Rdiv_lt_0_compat; [exact HL|]. apply lt_0_INR. lia. }
  rewrite !Forall_app. repeat split; apply Forall_replicate; dec; lra.
Qed.

(** For two screens or more and positive pitches and path length, every
    plane has a positive sampling pitch and every one of the [NumScr + 2]
    sampling ratios is strictly positive. *)
Lemma SamplingRatio_positive (p : Params) :
  (2 <= p_NumScr p)%nat -> 0 < p_dx p -> 0 < p_Rdx p -> 0 < p_PropDist p ->
  length (SamplingRatioBetweenScreen (__init__ p)) = (p_NumScr p + 2)%nat
  /\ forall i, (i < p_NumScr p + 2)%nat ->
       0 < item (SamplingRatioBetweenScreen (__init__ p)) i.
Proof.
  intros Hn Hdx HRdx HL. cbn [__init__ SamplingRatioBetweenScreen].
  destruct (p_NumScr p) as [|[|m]]; [lia|lia|]. clear Hn.
  set (n := S (S m)). set (L := p_PropDist p) in *.
  set (dz := make_dzProps n L).
  destruct (make_PropLocs_spec n dz (length_dzProps n L)) as [Hlen Hitem].
  set (PL := make_PropLocs n dz) in *.
  set (PS := make_PropSampling (make_FracPropDist PL L) (p_dx p) (p_Rdx p)).
  assert (HlenPS : length PS = (n + 3)%nat).
  { unfold PS, make_PropSampling, make_FracPropDist. now rewrite !length_fmap. }
  assert (HPS : forall i, (i <= n + 2)%nat -> 0 < item PS i).
  { intros i Hi. unfold PS, make_PropSampling, make_FracPropDist.
    rewrite !item_fmap by (rewrite ?length_fmap; lia).
    rewrite Hitem by exact Hi.
    pose proof (list_sum_take_bounds dz (dzProps_nonneg m L HL) i) as [Hlo Hhi].
    unfold dz in Hhi at 2. unfold n in Hhi. rewrite list_sum_dzProps in Hhi.
    set (zl := list_sum (take i dz)) in *.
    assert (Hf : 0 <= zl / L <= 1).
    { split.
      - unfold Rdiv. apply Rmult_le_pos; [exact Hlo|]. left.
        now apply Rinv_0_lt_compat.
      - apply Rmult_le_reg_r with L; [exact HL|].
        unfold Rdiv. rewrite Rmult_assoc, Rinv_l, Rmult_1_r by lra. lra. }
    nra. }
  split.
  - rewrite length_SamplingRatio, HlenPS. lia.
  - intros i Hi. rewrite item_SamplingRatio by (rewrite HlenPS; lia).
    apply Rdiv_lt_0_compat; apply HPS; lia.
Qed.

End Sampling.

(** ** Facts: derived turbulence quantities *)

Module Derived.
Import Num Cx Np WavePy.

(** A rational power is below [b] when the numerator power is below the
    denominator power of [b]. *)
Lemma Rpower_frac_lt (a b : R) (p q : nat) :
  0 < a -> 0 < b -> (0 < q)%nat -> a ^ p < b ^ q ->
  Rpower a (INR p / INR q) < b.
Proof.
  intros Ha Hb Hq Hlt.
  assert (Hq' : 0 < INR q) by (apply lt_0_INR; exact Hq).
  assert (Eb : b = Rpower (b ^ q) (/ INR q)).
  { rewrite <- Rpower_pow by exact Hb. rewrite Rpower_mult.
    rewrite Rinv_r by lra. now rewrite Rpower_1. }
  rewrite Eb. unfold Rdiv. rewrite <- Rpower_mult, Rpower_pow by exact Ha.
  apply Rlt_Rpower_l.
  - now apply Rinv_0_lt_compat.
  - split; [now apply pow_lt|exact Hlt].
Qed.

Lemma k_defaults_bounds : 0 < k (__init__ defaults) <= 8e6.
Proof.
  cbn [__init__ k defaults p_wvl].
  pose proof PI_RGT_0. pose proof PI_4.
  split.
  - apply Rdiv_lt_0_compat; lra.
  - unfold Rdiv. apply Rmult_le_reg_r with 1e-6; [lra|].
    rewrite Rmult_assoc, Rinv_l by lra. lra.
Qed.

Lemma rytovVar_defaults : 0 < rytovVar (__init__ defaults) < 1.
Proof.
  pose proof k_defaults_bounds as Hk.
  cbn [__init__ rytovVar k] in *. cbn [defaults p_PropDist p_Cn2 p_wvl] in *.
  set (kk := 2 * PI / 1e-6) in *.
  rewrite !fpow_Rpower by lra.
  assert (Hk7 : 0 < Rpower kk (7 / 6) < 1.2e8).
  { split; [unfold Rpower; apply exp_pos|].
    replace (7 / 6) with (INR 7 / INR 6) by (cbn [INR]; lra).
    apply Rpower_frac_lt; [lra|lra|lia|].
    apply Rle_lt_trans with (8e6 ^ 7).
    - apply pow_incr. lra.
    - lra. }
  assert (HL : 0 < Rpower 10e3 (11 / 6) < 3e7).
  { split; [unfold Rpower; apply exp_pos|].
    replace (11 / 6) with (INR 11 / INR 6) by (cbn [INR]; lra).
    apply Rpower_frac_lt; [lra|lra|lia|lra]. }
  set (A := Rpower kk (7 / 6)) in *. set (B := Rpower 10e3 (11 / 6)) in *.
  assert (HAB : 0 < A * B < 1.2e8 * 3e7).
  { split; [apply Rmult_lt_0_compat; lra|].
    apply Rmult_gt_0_lt_compat; lra. }
  assert (HX : 0 < 1.23 * 1e-16 * A * B < 1).
  { dec. split; nra. }
  rewrite pow2_sqrt by lra. exact HX.
Qed.

(** C8 at a failing input.  On the default object, [SetCn2Rytov(1.0)] sets
    the Rytov number to 1 and stores its square in the attribute [rytov];
    the Rytov variance [rytovVar] keeps the value the constructor gave it,
    which is below 1 and therefore not the square of the Rytov number. *)
Theorem C8_rytovVar_not_updated :
  let before := __init__ defaults in
  let after := SetCn2Rytov before 1.0 in
  rytovNum after = 1 /\
  rytov after = Some (1.0 ^ 2) /\
  rytovVar after = rytovVar before /\
  rytovVar after <> rytovNum after ^ 2.
Proof.
  cbn zeta. pose proof rytovVar_defaults as H.
  cbn [SetCn2Rytov rytovNum rytov rytovVar] in *.
  split; [dec; lra|]. split; [reflexivity|]. split; [reflexivity|].
  dec. lra.
Qed.

End Derived.

(** ** Facts: the propagators *)

Module Propagation.
Import Num Cx Np WavePy.

(** The opening and closing quadratic phase factors (lines 371 and 395 of
    [VacuumProp], 413 and 439 of [SplitStepProp]). *)
Definition P0 (self : WavePy) : CMat :=
  fun i j =>
    Cexp (Ci * RtoC (k self / (2 * item (dzProps self) 0))
          * RtoC (r1 self i j ^ 2)
          * RtoC (1 - item (SamplingRatioBetweenScreen self) 0))%C.

Definition PF (self : WavePy) : CMat :=
  fun i j =>
    Cexp (Ci * RtoC (k self / (2 * item_last (dzProps self)))
          * RtoC (rR self i j ^ 2)
          * RtoC (item_last (SamplingRatioBetweenScreen self)))%C.

(** The planes the loop visits: [range(1, len(self.PropLocs)-2)]. *)
Definition planes (self : WavePy) : list nat :=
  seq 1 (length (PropLocs self) - 2 - 1).

(** [range] accepts the bounds [-h] and [h] when [h] is an int, and lists
    the [2 * h] integers from [-h] on. *)
Lemma range_int (h : Z) :
  (0 <= h)%Z ->
  exists l, range (neg (pyint h)) (pyint h) = inr l
            /\ length l = Z.to_nat (2 * h)
            /\ forall t, (t < length l)%nat -> nth t l 0%Z = (- h + Z.of_nat t)%Z.
Proof.
  intros Hh. eexists. split; [reflexivity|].
  rewrite length_map, length_seq.
  replace (h - - h)%Z with (2 * h)%Z by lia. split; [reflexivity|].
  intros t Ht.
  rewrite (nth_indep _ 0%Z ((fun t => (- h + Z.of_nat t)%Z) 0%nat))
    by now rewrite length_map, length_seq.
  rewrite (map_nth (fun t => (- h + Z.of_nat t)%Z)), seq_nth by exact Ht.
  reflexivity.
Qed.

(** The half of the grid size is a float, whatever the parity of [N]. *)
Lemma half_is_float (n : nat) :
  truediv (pyint (Z.of_nat n)) (pyint 2) = pyfloat (INR n / 2).
Proof. unfold truediv. cbn [value]. now rewrite <- INR_IZR_INZ. Qed.

(** [range] rejects a float bound. *)
Lemma range_float (x : R) (stop : number) :
  range (pyfloat x) stop = inl TypeError.
Proof. reflexivity. Qed.

(** C9 on the code.  On every object [VacuumProp()] raises [TypeError] at
    line 368, where [range(-a, a)] is handed the float [a = self.N/2], and
    [SplitStepProp] raises it at line 410 for every input field, with
    every screen phase zero and with every transmittance one alike:
    neither call returns a field, so there are no two output fields to be
    the same. *)
Theorem C9_neither_propagator_returns (self : WavePy) (Uin : option CMat) :
  VacuumProp self = inl TypeError
  /\ SplitStepProp self Uin (fun _ _ _ => RtoC 0) = inl TypeError
  /\ SplitStepProp self Uin (fun _ _ _ => RtoC 1) = inl TypeError.
Proof.
  unfold VacuumProp, SplitStepProp. cbn zeta.
  rewrite half_is_float. cbn [neg]. rewrite range_float.
  repeat split.
Qed.

(** C2 on the code.  For every object, every input field [Uin] (or [None])
    and every stack, [SplitStepProp(Uin, stack)] raises [TypeError] at line
    410: [a = self.N/2] is a float and [range(-a, a)] rejects it.  No field
    enters a diffraction step, and two calls that differ in [Uin] do not
    differ in their outcome. *)
Theorem C2_SplitStepProp_raises_TypeError
  (self : WavePy) (Uin : option CMat) (PhaseScreenStack : CStack) :
  SplitStepProp self Uin PhaseScreenStack = inl TypeError.
Proof.
  unfold SplitStepProp. cbn zeta.
  rewrite half_is_float. cbn [neg]. now rewrite range_float.
Qed.

End Propagation.

(** ** Facts: phase screens *)

Module Screens.
Import Num Cx Np WavePy.

Lemma np_sum_ext (n : nat) (a b : RMat) :
  (forall i j, (i < n)%nat -> (j < n)%nat -> a i j = b i j) ->
  np_sum n a = np_sum n b.
Proof.
  intros H. apply sum_n_ext. intros i Hi. apply sum_n_ext. intros j Hj.
  now apply H.
Qed.

Lemma np_sum_minus_const (n : nat) (a : RMat) (m : R) :
  np_sum n (fun i j => a i j - m) = np_sum n a - INR n * INR n * m.
Proof.
  unfold np_sum.
  rewrite (sum_n_ext _ (fun i => sum_n (fun j => a i j) n + INR n * (- m))).
  - rewrite sum_n_plus, sum_n_const. ring.
  - intros i _.
    rewrite (sum_n_ext _ (fun j => a i j + - m)) by (intros; ring).
    now rewrite sum_n_plus, sum_n_const.
Qed.

(** Subtracting the mean leaves an array whose entries sum to zero. *)
Lemma np_sum_minus_mean (n : nat) (a : RMat) :
  np_sum n (fun i j => a i j - np_mean n a) = 0.
Proof.
  rewrite np_sum_minus_const. unfold np_mean.
  destruct n as [|n].
  - cbn. ring.
  - assert (Hn : INR (S n) <> 0) by (apply not_0_INR; lia).
    field. exact Hn.
Qed.

(** C6.  For every object, every order count and every state of the
    generator, the entries of the array that [SubHarmonicComp] returns sum
    to zero. *)
Theorem C6_subharmonic_zero_mean (self : WavePy) (nsub : nat) (g : rng) :
  np_sum (N self) (fst (SubHarmonicComp self nsub g)) = 0.
Proof.
  unfold SubHarmonicComp. cbn zeta.
  match goal with
  | |- context [fold_left ?f ?l ?s] => destruct (fold_left f l s) as [lof_phz g']
  end.
  cbn [fst]. apply np_sum_minus_mean.
Qed.


(** *** The sampled spectrum *)

Lemma sum_n_pos (f : nat -> R) (n : nat) :
  (1 <= n)%nat -> (forall i, 0 < f i) -> 0 < sum_n f n.
Proof.
  intros Hn Hf. destruct n as [|n]; [lia|]. clear Hn.
  induction n as [|n IH]; cbn [sum_n] in *.
  - pose proof (Hf O). lra.
  - pose proof (Hf (S n)). lra.
Qed.

Lemma np_sum_pos (n : nat) (a : RMat) :
  (1 <= n)%nat -> (forall i j, 0 < a i j) -> 0 < np_sum n a.
Proof.
  intros Hn Ha. apply sum_n_pos; [exact Hn|]. intros i.
  apply sum_n_pos; [exact Hn|]. intros j. apply Ha.
Qed.

(** Overwriting one cell of the grid by zero removes its value from the
    sum. *)
Lemma sum_n_zero_at (f : nat -> R) (c n : nat) :
  (c < n)%nat ->
  sum_n (fun i => if (i =? c)%nat then 0 else f i) n = sum_n f n - f c.
Proof.
  intros Hc. induction n as [|n IH]; [lia|]. cbn [sum_n].
  destruct (Nat.eqb_spec n c) as [->|Hne].
  - rewrite (sum_n_ext _ f).
    + ring.
    + intros i Hi. destruct (Nat.eqb_spec i c); [lia|reflexivity].
  - rewrite IH by lia. ring.
Qed.

Lemma np_sum_zero_at (n c : nat) (a : RMat) :
  (c < n)%nat ->
  np_sum n (fun i j => if (i =? c)%nat && (j =? c)%nat then 0 else a i j)
  = np_sum n a - a c c.
Proof.
  intros Hc. unfold np_sum.
  rewrite (sum_n_ext _
             (fun i => sum_n (fun j => a i j) n
                       + (if (i =? c)%nat then - a c c else 0))).
  - rewrite sum_n_plus.
    rewrite (sum_n_ext (fun i => if (i =? c)%nat then - a c c else 0)
               (fun i => - a c c + (if (i =? c)%nat then 0 else a c c))).
    + rewrite sum_n_plus, sum_n_const, sum_n_zero_at, sum_n_const by exact Hc. ring.
    + intros i _. destruct (i =? c)%nat; cbv beta iota; ring.
  - intros i _. destruct (Nat.eqb_spec i c) as [->|Hne]; cbn [andb].
    + rewrite sum_n_zero_at by exact Hc. reflexivity.
    + ring.
Qed.

Lemma cen_lt (self : WavePy) : (1 <= N self)%nat -> (cen self < N self)%nat.
Proof. intros H. unfold cen. apply Nat.div_lt; lia. Qed.

Lemma fpow_zero_two : fpow 0 2.0 = 0.
Proof.
  unfold fpow. destruct (Rlt_dec 0 0) as [H|_]; [lra|].
  destruct (Req_EM_T 0 0) as [_|H]; [|lra].
  destruct (Req_EM_T 2.0 0) as [H|_]; [revert H; dec; lra|reflexivity].
Qed.

(** For an even grid size the cell [(cen, cen)] is the zero-frequency
    cell. *)
Lemma freq_grid_cen (self : WavePy) :
  Nat.even (N self) = true -> freq_grid self (cen self) (cen self) = 0.
Proof.
  intros He. unfold freq_grid, cen, meshgrid_X, meshgrid_Y, arange. cbn zeta.
  apply Nat.even_spec in He. destruct He as [h Hh]. rewrite Hh.
  replace (2 * h / 2)%nat with h by (symmetry; rewrite Nat.mul_comm; apply Nat.div_mul; lia).
  rewrite mult_INR. cbn [INR].
  replace ((- ((1 + 1) * INR h) / 2.0 + INR h) * del_f self) with 0 by (dec; field).
  repeat (rewrite Rmult_0_l || rewrite Rmult_0_r || rewrite Rplus_0_l).
  rewrite fpow_zero_two. unfold Rdiv.
  repeat (rewrite Rmult_0_l || rewrite Rplus_0_l). apply sqrt_0.
Qed.

Lemma PSD_phi_cen (self : WavePy) : PSD_phi self (cen self) (cen self) = 0.
Proof. unfold PSD_phi. rewrite !Nat.eqb_refl. cbn [andb]. dec. lra. Qed.

Lemma PSD_phi_normalised_sum (self : WavePy) :
  tot_NOK self <> 0 -> np_sum (N self) (PSD_phi_normalised self) = tot_OK self.
Proof.
  intros Htot. unfold PSD_phi_normalised, np_sum.
  rewrite (sum_n_ext _
             (fun i => tot_OK self / tot_NOK self
                       * sum_n (fun j => PSD_phi_sampled self i j) (N self)))
    by (intros; apply sum_n_scal).
  rewrite sum_n_scal. fold (np_sum (N self) (PSD_phi_sampled self)).
  fold (tot_NOK self). field. exact Htot.
Qed.

Lemma PSD_phi_sum (self : WavePy) :
  (1 <= N self)%nat ->
  np_sum (N self) (PSD_phi self)
  = np_sum (N self) (PSD_phi_normalised self)
    - PSD_phi_normalised self (cen self) (cen self).
Proof.
  intros HN.
  rewrite <- (np_sum_zero_at (N self) (cen self) (PSD_phi_normalised self))
    by (now apply cen_lt).
  apply np_sum_ext. intros i j _ _. unfold PSD_phi.
  destruct ((i =? cen self)%nat && (j =? cen self)%nat); [dec; lra|reflexivity].
Qed.

(** Signs of the spectrum constants for an exponent between the two
    nearest poles of the Gamma factors. *)
Lemma spectrum_constants_pos (na : R) : 2 < na < 4 -> 0 < cone na * Bfac na.
Proof.
  intros Hna. unfold cone, Bfac, Bnum, Bdenom.
  assert (H2 : 2.0 = 2) by (dec; lra). assert (H8 : 8.0 = 8) by (dec; lra).
  rewrite H2, H8. pose proof PI_RGT_0 as Hpi.
  assert (Hinv : 0 < / (na - 2)) by (apply Rinv_0_lt_compat; lra).
  assert (Hg1 : 0 < gamma (2 / (na - 2))).
  { apply gamma_pos. unfold Rdiv. apply Rmult_lt_0_compat; lra. }
  assert (Hg2 : 0 < gamma (na / 2)) by (apply gamma_pos; lra).
  assert (Hg3 : 0 < gamma (- na / 2)) by (apply gamma_neg2; lra).
  apply Rmult_lt_0_compat.
  - apply Rmult_lt_0_compat; [lra|]. apply fpow_pos.
    apply Rmult_lt_0_compat; [|exact Hg1].
    unfold Rdiv. apply Rmult_lt_0_compat; lra.
  - apply Rmult_lt_0_compat; [apply fpow_pos; lra|].
    apply Rdiv_lt_0_compat; [exact Hg2|].
    apply Rmult_lt_0_compat; [|exact Hg3].
    apply Rmult_lt_0_compat; [|lra].
    apply Rmult_lt_0_compat; [|exact Hpi].
    apply fpow_pos. lra.
Qed.

Lemma fpow_two_nonneg (x : R) : 0 <= x -> 0 <= fpow x 2.0.
Proof.
  intros [Hx|<-].
  - left. now apply fpow_pos.
  - rewrite fpow_zero_two. lra.
Qed.

(** The shape shared by both sampled spectra is positive. *)
Lemma spectrum_shape_pos (K f fm f0 e : R) :
  0 < K -> 0 <= f -> 0 < f0 ->
  0 < K * exp (- fpow (f / fm) 2.0) / fpow (fpow f 2.0 + fpow f0 2.0) e.
Proof.
  intros HK Hf Hf0. apply Rdiv_lt_0_compat.
  - apply Rmult_lt_0_compat; [exact HK|apply exp_pos].
  - apply fpow_pos. pose proof (fpow_two_nonneg f Hf). pose proof (fpow_pos f0 2.0 Hf0).
    lra.
Qed.

Lemma freq_grid_nonneg (self : WavePy) (i j : nat) : 0 <= freq_grid self i j.
Proof. unfold freq_grid. cbn zeta. apply sqrt_pos. Qed.

Lemma PSD_phi_sampled_pos (self : WavePy) :
  2 < alpha self / 6.0 < 4 -> 0 < aniso self -> 0 < r0scrn self -> 0 < L0 self ->
  forall i j, 0 < PSD_phi_sampled self i j.
Proof.
  intros Hna Hb Hr HL i j. unfold PSD_phi_sampled. cbn zeta.
  apply spectrum_shape_pos.
  - apply Rmult_lt_0_compat; [|now apply fpow_pos].
    apply Rmult_lt_0_compat; [now apply spectrum_constants_pos|].
    apply fpow_pos. dec. lra.
  - apply freq_grid_nonneg.
  - apply Rdiv_lt_0_compat; [dec; lra|exact HL].
Qed.

Lemma PSD_phie_pos (self : WavePy) :
  0 < r0scrn self -> 0 < L0 self -> forall i j, 0 < PSD_phie self i j.
Proof.
  intros Hr HL i j. unfold PSD_phie. cbn zeta.
  apply spectrum_shape_pos.
  - apply Rmult_lt_0_compat; [|now apply fpow_pos].
    apply spectrum_constants_pos. dec. lra.
  - apply freq_grid_nonneg.
  - apply Rdiv_lt_0_compat; [dec; lra|exact HL].
Qed.

(** The screen-level Fried parameter of a constructed object is positive
    for positive wavelength, turbulence strength and path length. *)
Lemma r0scrn_pos (p : Params) :
  0 < p_wvl p -> 0 < p_Cn2 p -> 0 < p_PropDist p -> (1 <= p_NumScr p)%nat ->
  0 < r0scrn (__init__ p).
Proof.
  intros Hw Hc HL Hn. cbn [__init__ r0scrn]. apply fpow_pos.
  assert (Hk : 0 < 2 * PI / p_wvl p).
  { apply Rdiv_lt_0_compat; [pose proof PI_RGT_0; lra|exact Hw]. }
  assert (HnR : 0 < INR (p_NumScr p)) by (apply lt_0_INR; lia).
  apply Rmult_lt_0_compat; [|now apply Rdiv_lt_0_compat].
  apply Rmult_lt_0_compat; [|exact Hc].
  apply Rmult_lt_0_compat; [dec; lra|]. now apply pow_lt.
Qed.

(** Both grid totals and every re-normalised cell are positive. *)
Lemma totals_pos (self : WavePy) :
  (1 <= N self)%nat -> 2 < alpha self / 6.0 < 4 -> 0 < aniso self ->
  0 < r0scrn self -> 0 < L0 self ->
  0 < tot_NOK self /\ 0 < tot_OK self
  /\ forall i j, 0 < PSD_phi_normalised self i j.
Proof.
  intros HN Hna Hb Hr HL.
  assert (H1 : 0 < tot_NOK self).
  { apply np_sum_pos; [exact HN|]. now apply PSD_phi_sampled_pos. }
  assert (H2 : 0 < tot_OK self).
  { apply np_sum_pos; [exact HN|]. now apply PSD_phie_pos. }
  split; [exact H1|]. split; [exact H2|].
  intros i j. unfold PSD_phi_normalised. apply Rmult_lt_0_compat.
  - now apply Rdiv_lt_0_compat.
  - now apply PSD_phi_sampled_pos.
Qed.

Lemma defaults_positive :
  0 < p_wvl defaults /\ 0 < p_Cn2 defaults /\ 0 < p_PropDist defaults
  /\ (1 <= p_NumScr defaults)%nat.
Proof. cbn [defaults p_wvl p_Cn2 p_PropDist p_NumScr]. repeat split; try lra; lia. Qed.

(** C7, as amended.  The array that filters the noise has the cell
    [(cen, cen)] equal to zero, and for an even grid size that cell is the
    zero-frequency cell.  The re-normalisation, made for every exponent,
    gives the array the grid sum of the Kolmogorov reference before that
    cell is zeroed (when the sum of the first sample is not zero); the
    array that filters the noise sums to the reference total less the
    re-normalised value of the zeroed cell. *)
Theorem C7_psd_normalised_then_zeroed (self : WavePy) :
  (1 <= N self)%nat -> tot_NOK self <> 0 ->
  PSD_phi self (cen self) (cen self) = 0
  /\ (Nat.even (N self) = true -> freq_grid self (cen self) (cen self) = 0)
  /\ np_sum (N self) (PSD_phi_normalised self) = tot_OK self
  /\ np_sum (N self) (PSD_phi self)
     = tot_OK self - PSD_phi_normalised self (cen self) (cen self).
Proof.
  intros HN Htot.
  split; [apply PSD_phi_cen|]. split; [apply freq_grid_cen|].
  split; [now apply PSD_phi_normalised_sum|].
  rewrite PSD_phi_sum by exact HN. now rewrite PSD_phi_normalised_sum.
Qed.

(** The theorem at the default object. *)
Lemma C7_psd_normalised_then_zeroed_witness :
  (1 <= N (__init__ defaults))%nat /\ tot_NOK (__init__ defaults) <> 0
  /\ np_sum (N (__init__ defaults)) (PSD_phi (__init__ defaults))
     = tot_OK (__init__ defaults)
       - PSD_phi_normalised (__init__ defaults)
           (cen (__init__ defaults)) (cen (__init__ defaults)).
Proof.
  assert (HN : (1 <= N (__init__ defaults))%nat) by (cbn; lia).
  assert (Htot : tot_NOK (__init__ defaults) <> 0).
  { destruct defaults_positive as (Hw & Hc & HL & Hn).
    destruct (totals_pos (__init__ defaults)) as (H & _); try lra.
    - exact HN.
    - cbn [__init__ alpha]. dec. lra.
    - cbn [__init__ aniso defaults p_aniso]. dec. lra.
    - now apply r0scrn_pos.
    - cbn [__init__ L0]. lra. }
  split; [exact HN|]. split; [exact Htot|].
  apply (C7_psd_normalised_then_zeroed (__init__ defaults) HN Htot).
Defined.

(** C7 as stated fails: after [alpha = 20.0] on the default object the
    array that filters the noise does not sum to the Kolmogorov reference
    total. *)
Lemma C7_counterexample :
  alpha (set_alpha (__init__ defaults) 20.0) <> 22
  /\ np_sum (N (set_alpha (__init__ defaults) 20.0))
       (PSD_phi (set_alpha (__init__ defaults) 20.0))
     <> tot_OK (set_alpha (__init__ defaults) 20.0).
Proof.
  set (self := set_alpha (__init__ defaults) 20.0).
  split; [cbn [self set_alpha alpha]; dec; lra|].
  assert (HN : (1 <= N self)%nat) by (cbn; lia).
  destruct defaults_positive as (Hw & Hc & HL & Hn).
  destruct (totals_pos self) as (H1 & H2 & H3).
  - exact HN.
  - cbn [self set_alpha alpha]. dec. lra.
  - cbn [self set_alpha __init__ aniso defaults p_aniso]. dec. lra.
  - change (r0scrn self) with (r0scrn (__init__ defaults)). now apply r0scrn_pos.
  - cbn [self set_alpha __init__ L0]. lra.
  - rewrite PSD_phi_sum by exact HN.
    rewrite PSD_phi_normalised_sum by lra.
    pose proof (H3 (cen self) (cen self)). lra.
Qed.


(** *** Draws from the generator *)

(** Two states of the generator agree on their next [d] values. *)
Definition agree (d : nat) (g1 g2 : rng) : Prop :=
  forall t, (t < d)%nat -> g1 t = g2 t.

Lemma fold_left_rel {A B : Type} (E : A -> A -> Prop) (f1 f2 : A -> B -> A)
  (l : list B) :
  (forall a1 a2 x, In x l -> E a1 a2 -> E (f1 a1 x) (f2 a2 x)) ->
  forall a1 a2, E a1 a2 -> E (fold_left f1 l a1) (fold_left f2 l a2).
Proof.
  induction l as [|x l IH]; intros Hstep a1 a2 H; cbn [fold_left]; [exact H|].
  apply IH.
  - intros b1 b2 y Hy. apply Hstep. now right.
  - apply Hstep; [now left|exact H].
Qed.

Lemma fold_left_inv {A B : Type} (P : A -> Prop) (f : A -> B -> A) (l : list B) :
  (forall a x, In x l -> P a -> P (f a x)) ->
  forall a, P a -> P (fold_left f l a).
Proof.
  induction l as [|x l IH]; intros Hstep a Ha; cbn [fold_left]; [exact Ha|].
  apply IH.
  - intros b y Hy. apply Hstep. now right.
  - apply Hstep; [now left|exact Ha].
Qed.

(** A loop whose every round draws exactly [d] values. *)
Section DrawingLoop.
Context {S : Type}.
Variable E : S -> S -> Prop.
Variable step : S * rng -> nat -> S * rng.
Variable d : nat.
Hypothesis step_draws :
  forall s1 s2 g1 g2 x,
    E s1 s2 -> agree d g1 g2 -> E (fst (step (s1, g1) x)) (fst (step (s2, g2) x)).
Hypothesis step_state :
  forall s g x t, snd (step (s, g) x) t = g (t + d)%nat.

Lemma loop_state (l : list nat) :
  forall s g t, snd (fold_left step l (s, g)) t = g (t + d * length l)%nat.
Proof using step_state.
  induction l as [|x l IH]; intros s g t; cbn [fold_left length].
  - cbn [snd]. f_equal. lia.
  - destruct (step (s, g) x) as [s' g'] eqn:Hs.
    rewrite IH. replace g' with (snd (step (s, g) x)) by now rewrite Hs.
    rewrite step_state. f_equal. lia.
Qed.

Lemma loop_draws (l : list nat) :
  forall s1 s2 g1 g2,
    E s1 s2 -> agree (d * length l) g1 g2 ->
    E (fst (fold_left step l (s1, g1))) (fst (fold_left step l (s2, g2))).
Proof using step_draws step_state.
  induction l as [|x l IH]; intros s1 s2 g1 g2 HE Hg; cbn [fold_left length] in *.
  - exact HE.
  - pose proof (step_draws s1 s2 g1 g2 x HE) as Hd.
    pose proof (step_state s1 g1 x) as H1. pose proof (step_state s2 g2 x) as H2.
    destruct (step (s1, g1) x) as [s1' g1'], (step (s2, g2) x) as [s2' g2'].
    cbn [fst snd] in *. apply IH.
    + apply Hd. intros t Ht. apply Hg. lia.
    + intros t Ht. rewrite H1, H2. apply Hg. lia.
Qed.
End DrawingLoop.

Lemma shifted_index (n p : nat) : (p < n)%nat -> ((p + (n - n / 2)) mod n < n)%nat.
Proof. intros H. apply Nat.mod_upper_bound. lia. Qed.

(** [PhaseScreen] reads the next [2 * N * N] values of the generator and
    leaves it advanced by as many. *)
Lemma PhaseScreen_draws (self : WavePy) (g1 g2 : rng) :
  agree (2 * (N self * N self)) g1 g2 ->
  forall i j, fst (PhaseScreen self g1) i j = fst (PhaseScreen self g2) i j.
Proof.
  intros Hg i j. unfold PhaseScreen, randn. cbn [fst]. set (n := N self) in *.
  f_equal. f_equal. unfold ifft2. f_equal. apply np_csum_ext.
  intros p q Hp Hq. f_equal. unfold fftshift.
  pose proof (shifted_index n p Hp) as Hp'. pose proof (shifted_index n q Hq) as Hq'.
  set (p' := ((p + (n - n / 2)) mod n)%nat) in *.
  set (q' := ((q + (n - n / 2)) mod n)%nat) in *.
  rewrite (Hg (p' * n + q')%nat) by nia.
  rewrite (Hg (p' * n + q' + n * n)%nat) by nia.
  reflexivity.
Qed.

Lemma PhaseScreen_state (self : WavePy) (g : rng) (t : nat) :
  snd (PhaseScreen self g) t = g (t + 2 * (N self * N self))%nat.
Proof. unfold PhaseScreen, randn. cbn [snd]. f_equal. lia. Qed.


(** The parts of one order of [SubHarmonicComp], with the names of the
    source: the coefficients [cv], one term of the direct sum, and one
    round of the loop over [Np]. *)
Definition sh_cv (self : WavePy) (Np : nat) (g : rng) : CMat :=
  let dq := 1 / SideLen self in
  let na := alpha self / 6.0 in
  let b := aniso self in
  let c := 1 in
  let f0 := 1 / L0 self in
  let temp_mp := linspace (-2.5) 2.5 6 in
  let m_prime_indices := meshgrid_X temp_mp in
  let n_prime_indices := meshgrid_Y (fun t => -1 * temp_mp t) in
  let dqp := dq / (3.0 ^ Np) in
  let f_x : RMat := fun i j => / (3 ^ Np) * m_prime_indices i j * dq in
  let f_y : RMat := fun i j => / (3 ^ Np) * n_prime_indices i j * dq in
  let f : RMat := fun i j => sqrt (f_x i j ^ 2 / b ^ 2 + f_y i j ^ 2 / c ^ 2) in
  let PSD_fi : RMat :=
    fun i j =>
      cone na * Bfac na * fpow (b * c) (- na / 2)
      * fpow (r0scrn self) (2 - na) * fpow (f i j ^ 2 + f0 ^ 2) (- na / 2) in
  let '(wre, g) := randn 6 6 g in
  let '(wim, g) := randn 6 6 g in
  fun i j =>
    ((RtoC (wre i j) + Ci * RtoC (wim i j)) * RtoC (sqrt (PSD_fi i j)) * RtoC dqp)%C.

Definition sh_term (self : WavePy) (Np : nat) (cv : CMat) (n' : nat)
  (temp_phz : CMat) (m' : nat) : CMat :=
  let temp_m := linspace (-0.5) 0.5 (N self) in
  let m_indices := meshgrid_X temp_m in
  let n_indices := meshgrid_Y (fun t => -1 * temp_m t) in
  let temp_mp := linspace (-2.5) 2.5 6 in
  let m_prime_indices := meshgrid_X temp_mp in
  let n_prime_indices := meshgrid_Y (fun t => -1 * temp_mp t) in
  let indexMap : RMat :=
    fun i j =>
      m_prime_indices n' m' * m_indices i j + n_prime_indices n' m' * n_indices i j in
  fun i j =>
    (temp_phz i j
     + cv m' n'
       * Cexp (Ci * RtoC 2 * RtoC PI * RtoC (/ (3 ^ Np)) * RtoC (indexMap i j)))%C.

Definition sh_order (self : WavePy) (st : CMat * rng) : nat -> CMat * rng :=
  let '(lof_phz, g) := st in
  fun Np =>
  let temp_phz : CMat :=
    fold_left
      (fun temp_phz n' => fold_left (sh_term self Np (sh_cv self Np g) n') (seq 0 6) temp_phz)
      (seq 0 6) (fun _ _ => RtoC 0) in
  (fun i j => (lof_phz i j + temp_phz i j)%C, fun t => g (t + 6 * 6 + 6 * 6)%nat).

Lemma SubHarmonicComp_unfold (self : WavePy) (nsub : nat) (g : rng) :
  SubHarmonicComp self nsub g =
  let '(lof_phz, g') :=
    fold_left (sh_order self) (seq 1 nsub) ((fun _ _ => RtoC 0) : CMat, g) in
  let re : RMat := fun i j => Cre (lof_phz i j) in
  (fun i j => re i j - np_mean (N self) re, g').
Proof. reflexivity. Qed.

Definition same_array (a b : CMat) : Prop := forall i j, a i j = b i j.

Lemma sh_cv_draws (self : WavePy) (Np : nat) (g1 g2 : rng) (m' n' : nat) :
  agree 72 g1 g2 -> (m' < 6)%nat -> (n' < 6)%nat ->
  sh_cv self Np g1 m' n' = sh_cv self Np g2 m' n'.
Proof.
  intros Hg Hm Hn. unfold sh_cv, randn. cbn zeta.
  rewrite (Hg (m' * 6 + n')%nat) by lia.
  rewrite (Hg (m' * 6 + n' + 6 * 6)%nat) by lia.
  reflexivity.
Qed.

Lemma sh_order_draws (self : WavePy) (s1 s2 : CMat) (g1 g2 : rng) (Np : nat) :
  same_array s1 s2 -> agree 72 g1 g2 ->
  same_array (fst (sh_order self (s1, g1) Np)) (fst (sh_order self (s2, g2) Np)).
Proof.
  intros Hs Hg i j. cbn [sh_order fst]. rewrite Hs. f_equal.
  revert i j.
  apply (fold_left_rel same_array); [|intros i j; reflexivity].
  intros a1 a2 n' Hn' Ha.
  apply (fold_left_rel same_array); [|exact Ha].
  intros b1 b2 m' Hm' Hb i j. unfold sh_term. cbn zeta.
  apply in_seq in Hn'. apply in_seq in Hm'.
  rewrite Hb, (sh_cv_draws self Np g1 g2 m' n' Hg) by lia. reflexivity.
Qed.

Lemma sh_order_state (self : WavePy) (s : CMat) (g : rng) (Np t : nat) :
  snd (sh_order self (s, g) Np) t = g (t + 72)%nat.
Proof. cbn [sh_order snd]. f_equal. lia. Qed.

(** [SubHarmonicComp] reads the next [72 * nsub] values of the generator
    and leaves it advanced by as many. *)
Lemma SubHarmonicComp_draws (self : WavePy) (nsub : nat) (g1 g2 : rng) :
  agree (72 * nsub) g1 g2 ->
  forall i j, fst (SubHarmonicComp self nsub g1) i j
              = fst (SubHarmonicComp self nsub g2) i j.
Proof.
  intros Hg. rewrite !SubHarmonicComp_unfold.
  pose proof (loop_draws same_array (sh_order self) 72
                (sh_order_draws self) (sh_order_state self) (seq 1 nsub)
                (fun _ _ => RtoC 0) (fun _ _ => RtoC 0) g1 g2) as H.
  rewrite length_seq in H. specialize (H (fun _ _ => eq_refl) Hg).
  destruct (fold_left _ _ (_, g1)) as [lof1 g1'], (fold_left _ _ (_, g2)) as [lof2 g2'].
  cbn [fst] in *. intros i j. rewrite H. f_equal.
  unfold np_mean. f_equal. apply np_sum_ext. intros p q _ _. now rewrite H.
Qed.

Lemma SubHarmonicComp_state (self : WavePy) (nsub : nat) (g : rng) (t : nat) :
  snd (SubHarmonicComp self nsub g) t = g (t + 72 * nsub)%nat.
Proof.
  rewrite SubHarmonicComp_unfold.
  pose proof (loop_state (sh_order self) 72 (sh_order_state self) (seq 1 nsub)
                (fun _ _ => RtoC 0) g t) as H.
  rewrite length_seq in H.
  destruct (fold_left _ _ _) as [lof g']. exact H.
Qed.


(** One round of the screen loop of [TurbSim]. *)
Definition ts_step (self : WavePy) (st : (RStack * RStack * RStack) * rng)
  : nat -> (RStack * RStack * RStack) * rng :=
  let '(phz, phz_lo, phz_hi, g) := st in
  fun idxscr =>
    let '(hi, g) := PhaseScreen self g in
    let phz_hi := set_layer phz_hi idxscr hi in
    let '(lo, g) := SubHarmonicComp self (NumSubHarmonics self) g in
    let phz_lo := set_layer phz_lo idxscr lo in
    let phz :=
      set_layer phz idxscr
        (fun i j => loon self * phz_lo i j idxscr + phz_hi i j idxscr) in
    (phz, phz_lo, phz_hi, g).

Lemma TurbSim_screens_unfold (self : WavePy) (g : rng) :
  TurbSim_screens self g =
  fold_left (ts_step self) (seq 0 (NumScr self))
    ((fun _ _ _ => 0) : RStack, (fun _ _ _ => 0) : RStack, (fun _ _ _ => 0) : RStack, g).
Proof. reflexivity. Qed.

(** The stack [phz] of a result of the screen loop. *)
Definition phz_of (r : (RStack * RStack * RStack) * rng) : RStack := fst (fst (fst r)).

Definition same_stacks (s1 s2 : RStack * RStack * RStack) : Prop :=
  (forall i j t, fst (fst s1) i j t = fst (fst s2) i j t)
  /\ (forall i j t, snd (fst s1) i j t = snd (fst s2) i j t)
  /\ (forall i j t, snd s1 i j t = snd s2 i j t).

(** The values one screen takes from the generator. *)
Definition draws_per_screen (self : WavePy) : nat :=
  (2 * (N self * N self) + 72 * NumSubHarmonics self)%nat.

Lemma ts_step_draws (self : WavePy) (s1 s2 : RStack * RStack * RStack)
  (g1 g2 : rng) (x : nat) :
  same_stacks s1 s2 -> agree (draws_per_screen self) g1 g2 ->
  same_stacks (fst (ts_step self (s1, g1) x)) (fst (ts_step self (s2, g2) x)).
Proof.
  intros (Hphz & Hlo & Hhi) Hg.
  destruct s1 as [[phz1 lo1] hi1], s2 as [[phz2 lo2] hi2]. cbn [fst snd] in *.
  unfold draws_per_screen in Hg. cbn [ts_step].
  assert (H1 : forall i j, fst (PhaseScreen self g1) i j = fst (PhaseScreen self g2) i j).
  { apply PhaseScreen_draws. intros t Ht. apply Hg. lia. }
  pose proof (PhaseScreen_state self g1) as S1.
  pose proof (PhaseScreen_state self g2) as S2.
  destruct (PhaseScreen self g1) as [h1 ga1], (PhaseScreen self g2) as [h2 ga2].
  cbn [fst snd] in *.
  assert (H2 : forall i j,
             fst (SubHarmonicComp self (NumSubHarmonics self) ga1) i j
             = fst (SubHarmonicComp self (NumSubHarmonics self) ga2) i j).
  { apply SubHarmonicComp_draws. intros t Ht. rewrite S1, S2. apply Hg. lia. }
  destruct (SubHarmonicComp self _ ga1) as [l1 gb1],
           (SubHarmonicComp self _ ga2) as [l2 gb2].
  cbn [fst snd] in *. unfold same_stacks, set_layer. cbn [fst snd].
  repeat split; intros i j t; destruct (t =? x)%nat;
    rewrite ?Nat.eqb_refl, ?H1, ?H2, ?Hphz, ?Hlo, ?Hhi; reflexivity.
Qed.

Lemma ts_step_state (self : WavePy) (s : RStack * RStack * RStack) (g : rng)
  (x t : nat) :
  snd (ts_step self (s, g) x) t = g (t + draws_per_screen self)%nat.
Proof.
  destruct s as [[phz lo] hi]. cbn [ts_step].
  pose proof (PhaseScreen_state self g) as S1.
  destruct (PhaseScreen self g) as [h ga]. cbn [snd] in S1.
  pose proof (SubHarmonicComp_state self (NumSubHarmonics self) ga) as S2.
  destruct (SubHarmonicComp self _ ga) as [l gb]. cbn [snd] in *.
  rewrite S2, S1. unfold draws_per_screen. f_equal. lia.
Qed.

(** C10, as amended.  The stochastic operations take no generator: they
    draw from the process-wide one.  The screens [TurbSim] builds are a
    function of the object and of the next
    [NumScr * (2 * N * N + 72 * NumSubHarmonics)] values of that
    generator, and the loop leaves the generator advanced by exactly that
    many values; two runs that start from generator states agreeing on
    them build the same screens. *)
Theorem C10_screens_from_process_wide_generator (self : WavePy) (g1 g2 : rng) :
  agree (draws_per_screen self * NumScr self) g1 g2 ->
  (forall i j t,
     phz_of (TurbSim_screens self g1) i j t = phz_of (TurbSim_screens self g2) i j t)
  /\ (forall t,
        snd (TurbSim_screens self g1) t
        = g1 (t + draws_per_screen self * NumScr self)%nat).
Proof.
  intros Hg. rewrite !TurbSim_screens_unfold. split.
  - pose proof (loop_draws same_stacks (ts_step self) (draws_per_screen self)
                  (ts_step_draws self) (ts_step_state self) (seq 0 (NumScr self))
                  (fun _ _ _ => 0, fun _ _ _ => 0, fun _ _ _ => 0)
                  (fun _ _ _ => 0, fun _ _ _ => 0, fun _ _ _ => 0) g1 g2) as H.
    rewrite length_seq in H.
    destruct H as (H & _); [repeat split|exact Hg|]. exact H.
  - intros t.
    pose proof (loop_state (ts_step self) (draws_per_screen self)
                  (ts_step_state self) (seq 0 (NumScr self))
                  (fun _ _ _ => 0, fun _ _ _ => 0, fun _ _ _ => 0) g1 t) as H.
    rewrite length_seq in H. exact H.
Qed.

(** The theorem at the default object, for two equal generator states. *)
Lemma C10_screens_from_process_wide_generator_witness :
  agree (draws_per_screen (__init__ defaults) * NumScr (__init__ defaults))
    (fun _ => 0) (fun _ => 0)
  /\ forall t,
       snd (TurbSim_screens (__init__ defaults) (fun _ => 0)) t
       = (fun _ => 0) (t + draws_per_screen (__init__ defaults)
                           * NumScr (__init__ defaults))%nat.
Proof.
  assert (H : agree (draws_per_screen (__init__ defaults) * NumScr (__init__ defaults))
                (fun _ => 0) (fun _ => 0)) by (intros t _; reflexivity).
  split; [exact H|].
  apply (C10_screens_from_process_wide_generator (__init__ defaults) _ _ H).
Defined.


(** *** A two-by-two grid *)

Lemma twiddle_dc (sgn : R) (n p q : nat) : twiddle sgn n p q 0 0 = RtoC 1.
Proof.
  unfold twiddle. cbn [INR].
  replace (sgn * 2 * PI * (INR p * 0 + INR q * 0) / INR n) with 0
    by (unfold Rdiv; ring).
  now rewrite Ci_mul_0, Cexp_0.
Qed.

Lemma ifft2_dc (n : nat) (a : CMat) :
  ifft2 n a 0%nat 0%nat = (RtoC (/ (INR n * INR n)) * np_csum n a)%C.
Proof.
  unfold ifft2. f_equal. apply np_csum_ext. intros p q _ _.
  rewrite twiddle_dc. ring.
Qed.

Lemma np_csum_fftshift_2 (a : CMat) :
  np_csum 2 (fftshift 2 a)
  = (a 0%nat 0%nat + a 0%nat 1%nat + a 1%nat 0%nat + a 1%nat 1%nat)%C.
Proof.
  change (np_csum 2 (fftshift 2 a))
    with (RtoC 0 + (RtoC 0 + a 1%nat 1%nat + a 1%nat 0%nat)
          + (RtoC 0 + a 0%nat 1%nat + a 0%nat 0%nat))%C.
  ring.
Qed.

(** On a two-by-two grid the first entry of a screen is the sum of the
    four real draws, each weighted by the filter of its cell. *)
Lemma PhaseScreen_2x2_first_entry (self : WavePy) (g : rng) :
  N self = 2%nat ->
  fst (PhaseScreen self g) 0%nat 0%nat
  = (g 0%nat * sqrt (PSD_phi self 0%nat 0%nat)
     + g 1%nat * sqrt (PSD_phi self 0%nat 1%nat)
     + g 2%nat * sqrt (PSD_phi self 1%nat 0%nat)
     + g 3%nat * sqrt (PSD_phi self 1%nat 1%nat))
    * del_f self.
Proof.
  intros HN. unfold PhaseScreen, randn. cbn [fst]. rewrite HN.
  rewrite ifft2_dc, np_csum_fftshift_2.
  cbn [Nat.mul Nat.add Cre Cmul Cadd RtoC Ci fst snd INR pow]. field.
Qed.


(** [WavePy(N=n)]: the defaults with another grid size. *)
Definition with_N (n : nat) (p : Params) : Params := {|
  p_simOption := p_simOption p; p_N := n; p_SideLen := p_SideLen p;
  p_NumScr := p_NumScr p; p_DRx := p_DRx p; p_dx := p_dx p; p_wvl := p_wvl p;
  p_PropDist := p_PropDist p; p_Cn2 := p_Cn2 p; p_loon := p_loon p;
  p_aniso := p_aniso p; p_Rdx := p_Rdx p
|}.

(** C10 as stated fails: [PhaseScreen] has no generator among its
    arguments, and two calls on the same two-by-two object return
    different screens when the process-wide generator is in different
    states (next value 0 in one, 1 in the other). *)
Lemma C10_counterexample :
  fst (PhaseScreen (__init__ (with_N 2 defaults)) (fun _ => 0)) 0%nat 0%nat
  <> fst (PhaseScreen (__init__ (with_N 2 defaults))
            (fun t => if (t =? 0)%nat then 1 else 0)) 0%nat 0%nat.
Proof.
  set (self := __init__ (with_N 2 defaults)).
  rewrite !PhaseScreen_2x2_first_entry by reflexivity. cbn [Nat.eqb].
  destruct defaults_positive as (Hw & Hc & HL & Hn).
  destruct (totals_pos self) as (_ & _ & H3).
  - cbn. lia.
  - cbn [self __init__ alpha]. dec. lra.
  - cbn [self __init__ aniso with_N defaults p_aniso]. dec. lra.
  - apply r0scrn_pos; assumption.
  - cbn [self __init__ L0]. lra.
  - assert (HP : 0 < sqrt (PSD_phi self 0%nat 0%nat)).
    { apply sqrt_lt_R0.
      change (PSD_phi self 0%nat 0%nat) with (PSD_phi_normalised self 0%nat 0%nat).
      apply H3. }
    assert (Hd : 0 < del_f self).
    { unfold del_f. cbn [self __init__ N dx with_N defaults p_N p_dx INR].
      apply Rdiv_lt_0_compat; dec; lra. }
    assert (0 < sqrt (PSD_phi self 0%nat 0%nat) * del_f self)
      by now apply Rmult_lt_0_compat.
    lra.
Qed.

End Screens.

(** ** Facts: [TurbSim] end to end *)

Module EndToEnd.
Import Num Cx Np WavePy Geometry Screens Propagation.

(** C1 on the code.  On every object and from every state of the
    generator, [TurbSim()] builds its [NumScr] screens, which advances the
    generator by [NumScr * (2 * N * N + 72 * NumSubHarmonics)] values, and
    then raises [TypeError] out of [SplitStepProp] (line 410,
    [range(-a, a)] with the float [a = self.N/2]): the field is multiplied
    by no transmittance at all, and [self.Output] is not assigned. *)
Theorem C1_TurbSim_raises_TypeError (self : WavePy) (g : rng) :
  fst (TurbSim self g) = inl TypeError
  /\ forall t,
       snd (TurbSim self g) t = g (t + draws_per_screen self * NumScr self)%nat.
Proof.
  unfold TurbSim.
  pose proof (loop_state (ts_step self) (draws_per_screen self)
                (ts_step_state self) (seq 0 (NumScr self))
                (fun _ _ _ => 0, fun _ _ _ => 0, fun _ _ _ => 0) g) as Hg.
  rewrite length_seq, <- TurbSim_screens_unfold in Hg.
  destruct (TurbSim_screens self g) as [[[phz phz_lo] phz_hi] g'].
  cbn [fst snd] in *. split; [|exact Hg].
  unfold SplitStepProp. cbn zeta.
  rewrite half_is_float. cbn [neg]. now rewrite range_float.
Qed.

End EndToEnd.

(** ** Facts: construction of [Atmos] *)

Module AtmosFacts.
Import Num Atmos.

Lemma make_screens_vacuum (inputs : list (R * pyval)) :
  forall a : dict,
    is_Some (a !! "N") ->
    exists l,
      make_screens vacuum ["N"] a inputs = inr l
      /\ length l = length inputs
      /\ Forall (fun s => screen_by s = vacuum) l.
Proof.
  induction inputs as [|[dx r0] rest IH]; intros a Ha.
  - exists []. repeat split. constructor.
  - cbn [make_screens].
    set (a' := a ∪ {[ "dx" := VFloat dx; "r0" := r0 ]}).
    assert (Ha' : is_Some (a' !! "N")).
    { unfold a'. rewrite lookup_union_is_Some. now left. }
    destruct (IH a' Ha') as (l & Hl & Hlen & Hall).
    destruct Ha' as [v Hv].
    exists (Screen vacuum [v] :: l).
    cbn [mapM]. unfold getitem. rewrite Hv. cbn [bind ret]. rewrite Hl.
    repeat split.
    + cbn [length]. now rewrite Hlen.
    + constructor; [reflexivity|exact Hall].
Qed.

(** Construction with the vacuum method and a PSD name that [psd_dict]
    does not hold: the [KeyError] of the lookup is caught, [psd] is set to
    [None], and construction goes on to the end. *)
Lemma init_vacuum_unknown_psd
  (n_gridpts : nat) (z : list R) (dx_0 dx_n : R) (settings : dict) (name : string) :
  z <> [] ->
  settings !! "screen_method_name" = Some (VStr "vacuum") ->
  settings !! "psd_name" = Some (VStr name) ->
  psd_dict !! name = None ->
  exists self,
    __init__ n_gridpts z dx_0 dx_n settings = inr self
    /\ psd self = VNone
    /\ psd_name self = Some (VStr name)
    /\ length (screen self) = length z
    /\ Forall (fun s => screen_by s = vacuum) (screen self).
Proof.
  intros Hz Hm Hp Hd. unfold __init__.
  destruct z as [|z0 zs]; [contradiction|].
  set (zz := z0 :: zs).
  unfold getitem at 1. rewrite Hm. cbn [bind ret].
  change (lookup_val screen_method_dict (VStr "vacuum")) with (ret vacuum).
  cbn [bind ret].
  unfold getitem at 1. rewrite Hp. cbn [bind ret].
  unfold psd_setup. unfold lookup_val at 1. rewrite Hd.
  cbn [bind raise ret except_KeyError].
  change (is_str (VStr "vacuum") "vacuum") with true. cbv iota.
  unfold getitem at 1. rewrite lookup_insert_eq. cbn [bind ret truediv].
  change (lookup_val phase_screen_input_dict (VStr "vacuum")) with (ret ["N"]).
  cbn [bind ret].
  match goal with
  | |- context [make_screens vacuum ["N"] ?a ?inputs] =>
      destruct (make_screens_vacuum inputs a) as (l & Hl & Hlen & Hall)
  end.
  { rewrite lookup_union_is_Some. right.
    rewrite lookup_insert_eq. now eexists. }
  rewrite Hl. cbn [bind ret]. eexists. split; [reflexivity|].
  cbn [psd psd_name screen]. repeat split; try assumption.
  rewrite Hlen, length_zip_with, !length_fmap, length_replicate. lia.
Qed.

(** C3, as amended.  For every settings dictionary whose [psd_name] is not
    a key of [psd_dict], the constructor raises no error for it: the
    [KeyError] of the lookup is caught and [psd] is set to [None].  With
    the screen method "vacuum" and at least one screen location the
    constructor returns an object whose [psd] is [None], which keeps the
    unknown name, and which holds one vacuum screen per location. *)
Theorem C3_unknown_psd_name_gives_psd_None
  (n_gridpts : nat) (z : list R) (dx_0 dx_n : R) (settings : dict) (name : string) :
  z <> [] ->
  settings !! "screen_method_name" = Some (VStr "vacuum") ->
  settings !! "psd_name" = Some (VStr name) ->
  psd_dict !! name = None ->
  exists self,
    __init__ n_gridpts z dx_0 dx_n settings = inr self
    /\ psd self = VNone
    /\ psd_name self = Some (VStr name)
    /\ length (screen self) = length z
    /\ Forall (fun s => screen_by s = vacuum) (screen self).
Proof. apply init_vacuum_unknown_psd. Qed.

(** Settings that name the vacuum method and a PSD that does not exist. *)
Definition vacuum_bogus_psd : dict :=
  {[ "screen_method_name" := VStr "vacuum"; "psd_name" := VStr "bogus" ]}.

Lemma vacuum_bogus_psd_lookups :
  vacuum_bogus_psd !! "screen_method_name" = Some (VStr "vacuum")
  /\ vacuum_bogus_psd !! "psd_name" = Some (VStr "bogus")
  /\ psd_dict !! "bogus" = None.
Proof. repeat split; vm_compute; reflexivity. Qed.

(** The theorem at a 64-point grid with one screen location. *)
Lemma C3_unknown_psd_name_gives_psd_None_witness :
  [1000] <> []
  /\ vacuum_bogus_psd !! "screen_method_name" = Some (VStr "vacuum")
  /\ vacuum_bogus_psd !! "psd_name" = Some (VStr "bogus")
  /\ psd_dict !! "bogus" = None
  /\ exists self,
       __init__ 64 [1000] 0.01 0.01 vacuum_bogus_psd = inr self
       /\ psd self = VNone
       /\ psd_name self = Some (VStr "bogus")
       /\ length (screen self) = length [1000]
       /\ Forall (fun s => screen_by s = vacuum) (screen self).
Proof.
  destruct vacuum_bogus_psd_lookups as (H1 & H2 & H3).
  assert (Hz : [1000] <> []) by discriminate.
  repeat (split; [assumption|]).
  exact (C3_unknown_psd_name_gives_psd_None 64 [1000] 0.01 0.01
           vacuum_bogus_psd "bogus" Hz H1 H2 H3).
Defined.

(** C3 as stated fails: construction with the unrecognised PSD name
    "bogus" raises nothing and returns an object whose [psd] is [None]. *)
Lemma C3_counterexample :
  exists self,
    __init__ 64 [1000] 0.01 0.01 vacuum_bogus_psd = inr self /\ psd self = VNone.
Proof.
  destruct vacuum_bogus_psd_lookups as (H1 & H2 & H3).
  destruct (init_vacuum_unknown_psd 64 [1000] 0.01 0.01 vacuum_bogus_psd "bogus")
    as (self & Hs & Hp & _); try assumption; [discriminate|].
  exists self. split; assumption.
Qed.

End AtmosFacts.

(** ** Facts: turbulence strength and the Fried parameter *)

Module Turbulence.
Import Num Cx Np WavePy.

Lemma defaults_physical : physical defaults.
Proof.
  constructor; cbn [defaults p_N p_NumScr p_SideLen p_DRx p_dx p_Rdx p_wvl
                    p_PropDist p_Cn2 p_aniso]; try lia; dec; lra.
Qed.

(** [WavePy(simOption=o)]: the arguments [p] with another source option. *)
Definition with_simOption (o : Z) (p : Params) : Params := {|
  p_simOption := o; p_N := p_N p; p_SideLen := p_SideLen p;
  p_NumScr := p_NumScr p; p_DRx := p_DRx p; p_dx := p_dx p; p_wvl := p_wvl p;
  p_PropDist := p_PropDist p; p_Cn2 := p_Cn2 p; p_loon := p_loon p;
  p_aniso := p_aniso p; p_Rdx := p_Rdx p
|}.

Lemma with_simOption_physical (o : Z) (p : Params) :
  physical p -> physical (with_simOption o p).
Proof. intros [? ? ? ? ? ? ? ? ? ?]. constructor; assumption. Qed.

Lemma k_pos (p : Params) : physical p -> 0 < k (__init__ p).
Proof.
  intros H. cbn [__init__ k]. apply Rdiv_lt_0_compat; [|apply (phys_wvl p H)].
  pose proof PI_RGT_0. lra.
Qed.

(** [(x / n) ** y = x ** y * n ** (-y)] for positive [x] and [n]. *)
Lemma fpow_div (x n y : R) :
  0 < x -> 0 < n -> fpow (x / n) y = fpow x y * fpow n (- y).
Proof.
  intros Hx Hn.
  assert (Hq : 0 < x / n) by now apply Rdiv_lt_0_compat.
  rewrite !fpow_Rpower by assumption. unfold Rpower, Rdiv.
  rewrite ln_mult by (try apply Rinv_0_lt_compat; assumption).
  rewrite ln_Rinv by assumption. rewrite <- exp_plus. f_equal. ring.
Qed.

Lemma fpow_ge_1 (n y : R) : 1 <= n -> 0 <= y -> 1 <= fpow n y.
Proof.
  intros Hn Hy. rewrite fpow_Rpower by lra. unfold Rpower.
  rewrite <- exp_0. 
  assert (0 <= ln n).
  { destruct Hn as [Hn|<-]; [|rewrite ln_1; lra].
    left. rewrite <- ln_1. apply ln_increasing; lra. }
  destruct (Req_dec (y * ln n) 0) as [->|Hne]; [lra|].
  left. apply exp_increasing. nra.
Qed.

(** A negative power is decreasing on the positive numbers. *)
Lemma fpow_neg_decreasing (x y e : R) :
  0 < x < y -> e < 0 -> fpow y e < fpow x e.
Proof.
  intros [Hx Hxy] He. rewrite !fpow_Rpower by lra. unfold Rpower.
  apply exp_increasing.
  assert (ln x < ln y) by (apply ln_increasing; lra). nra.
Qed.

Lemma Fried_scale (K L : R) (n : nat) :
  0 < K -> 0 < L -> (1 <= n)%nat ->
  fpow (K * (L / INR n)) (-3.0 / 5.0) = fpow (K * L) (-3.0 / 5.0) * fpow (INR n) (3 / 5).
Proof.
  intros HK HL Hn.
  assert (HnR : 0 < INR n) by (apply lt_0_INR; lia).
  replace (K * (L / INR n)) with (K * L / INR n) by (unfold Rdiv; ring).
  rewrite fpow_div by (try apply Rmult_lt_0_compat; assumption).
  f_equal. f_equal. dec. lra.
Qed.

(** X1.  The screen-level Fried parameter is the path-level one scaled by
    [NumScr ** (3/5)]; it is never the smaller of the two. *)
Theorem screen_Fried_parameter (p : Params) :
  physical p ->
  let self := __init__ p in
  0 < r0 self
  /\ r0scrn self = r0 self * fpow (INR (NumScr self)) (3 / 5)
  /\ r0 self <= r0scrn self.
Proof.
  intros H self. pose proof (k_pos p H) as Hk.
  destruct H as [_ Hn _ _ _ _ _ HL HC _].
  unfold self in *. cbn [__init__ r0 r0scrn NumScr k] in *.
  set (kk := 2 * PI / p_wvl p) in *.
  assert (HK : 0 < 0.423 * kk ^ 2 * p_Cn2 p).
  { apply Rmult_lt_0_compat; [|exact HC].
    apply Rmult_lt_0_compat; [dec; lra|]. now apply pow_lt. }
  assert (Hr : 0 < fpow (0.423 * kk ^ 2 * p_Cn2 p * p_PropDist p) (-3.0 / 5.0))
    by (apply fpow_pos; now apply Rmult_lt_0_compat).
  split; [exact Hr|].
  rewrite Fried_scale by assumption.
  split; [reflexivity|].
  assert (1 <= fpow (INR (p_NumScr p)) (3 / 5)).
  { apply fpow_ge_1; [|lra]. replace 1 with (INR 1) by reflexivity.
    apply le_INR. lia. }
  nra.
Qed.

(** The theorem at the default arguments. *)
Lemma screen_Fried_parameter_witness :
  physical defaults /\ r0 (__init__ defaults) <= r0scrn (__init__ defaults).
Proof.
  split; [exact defaults_physical|].
  apply (screen_Fried_parameter defaults defaults_physical).
Defined.

(** The denominator [rytov_denom] of [SetCn2Rytov]. *)
Lemma rytov_denom_pos (p : Params) :
  physical p ->
  0 < 1.23 * fpow (k (__init__ p)) (7.0 / 6.0) * fpow (PropDist (__init__ p)) (11.0 / 6.0).
Proof.
  intros H. pose proof (k_pos p H) as Hk.
  apply Rmult_lt_0_compat; [apply Rmult_lt_0_compat; [dec; lra|]|].
  - now apply fpow_pos.
  - apply fpow_pos. cbn [__init__ PropDist]. apply (phys_PropDist p H).
Qed.

Lemma seven_sixths : 7.0 / 6.0 = 7 / 6.
Proof. dec. lra. Qed.

Lemma eleven_sixths : 11.0 / 6.0 = 11 / 6.
Proof. dec. lra. Qed.

(** X2.  [SetCn2Rytov(u)] for [u <> 0] stores the turbulence strength whose
    Rytov variance, by the formula of the constructor, is [u ** 2]; the
    strength is positive. *)
Theorem SetCn2Rytov_inverts_rytov (p : Params) (u : R) :
  physical p -> u <> 0 ->
  let self := SetCn2Rytov (__init__ p) u in
  1.23 * Cn2 self * fpow (k self) (7 / 6) * fpow (PropDist self) (11 / 6) = u ^ 2
  /\ 0 < Cn2 self
  /\ rytovNum self = u
  /\ rytov self = Some (u ^ 2).
Proof.
  intros H Hu self. pose proof (rytov_denom_pos p H) as Hd.
  unfold self. cbn [SetCn2Rytov Cn2 k PropDist rytovNum rytov].
  rewrite seven_sixths, eleven_sixths in *.
  set (A := fpow (k (__init__ p)) (7 / 6)) in *.
  set (B := fpow (PropDist (__init__ p)) (11 / 6)) in *.
  split; [field; nra|]. split; [|split; reflexivity].
  apply Rdiv_lt_0_compat; [|exact Hd]. nra.
Qed.

(** The theorem at the default object and a Rytov number of one. *)
Lemma SetCn2Rytov_inverts_rytov_witness :
  physical defaults /\ 1 <> 0 /\ 0 < Cn2 (SetCn2Rytov (__init__ defaults) 1).
Proof.
  assert (H1 : 1 <> 0) by lra.
  split; [exact defaults_physical|]. split; [exact H1|].
  apply (SetCn2Rytov_inverts_rytov defaults 1 defaults_physical H1).
Defined.

(** X3.  [SetCn2Rytov] with the Rytov number the constructor computed gives
    back the turbulence strength the object was built with, and with it
    every derived value. *)
Theorem SetCn2Rytov_round_trip (p : Params) :
  physical p ->
  let self := __init__ p in
  let self' := SetCn2Rytov self (rytovNum self) in
  Cn2 self' = Cn2 self
  /\ r0 self' = r0 self
  /\ r0scrn self' = r0scrn self
  /\ log_ampl_var self' = log_ampl_var self
  /\ phase_var self' = phase_var self
  /\ rho_0 self' = rho_0 self
  /\ rytovNum self' = rytovNum self
  /\ rytov self' = Some (rytovVar self).
Proof.
  intros H self self'. pose proof (rytov_denom_pos p H) as Hd.
  pose proof (k_pos p H) as Hk.
  assert (HC : Cn2 self' = Cn2 self).
  { unfold self', self in *. cbn [SetCn2Rytov Cn2].
    cbn [__init__ rytovNum Cn2 k PropDist] in *.
    rewrite seven_sixths, eleven_sixths in *.
    set (A := fpow (2 * PI / p_wvl p) (7 / 6)) in *.
    set (B := fpow (p_PropDist p) (11 / 6)) in *.
    assert (HA : 0 < A) by (apply fpow_pos; exact Hk).
    assert (HB : 0 < B) by (apply fpow_pos; apply (phys_PropDist p H)).
    pose proof (phys_Cn2 p H) as Hc.
    rewrite pow2_sqrt.
    - field. split; lra.
    - left. apply Rmult_lt_0_compat; [|exact HB].
      apply Rmult_lt_0_compat; [|exact HA].
      apply Rmult_lt_0_compat; [dec; lra|exact Hc]. }
  split; [exact HC|].
  unfold self' in *. cbn [SetCn2Rytov Cn2 r0 r0scrn log_ampl_var phase_var rho_0
                          rytovNum rytov] in *.
  rewrite HC. unfold self. cbn [__init__ Cn2 r0 r0scrn log_ampl_var phase_var rho_0
                                rytovNum rytovVar k PropDist NumScr L0].
  repeat split; reflexivity.
Qed.

(** The theorem at the default object. *)
Lemma SetCn2Rytov_round_trip_witness :
  physical defaults
  /\ Cn2 (SetCn2Rytov (__init__ defaults) (rytovNum (__init__ defaults)))
     = Cn2 (__init__ defaults).
Proof.
  split; [exact defaults_physical|].
  apply (SetCn2Rytov_round_trip defaults defaults_physical).
Defined.

(** X4.  A larger Rytov number means stronger turbulence and a smaller Fried
    parameter, for the path and for each screen. *)
Theorem SetCn2Rytov_monotone (p : Params) (u v : R) :
  physical p -> 0 < u < v ->
  let weak := SetCn2Rytov (__init__ p) u in
  let strong := SetCn2Rytov (__init__ p) v in
  Cn2 weak < Cn2 strong
  /\ r0 strong < r0 weak
  /\ r0scrn strong < r0scrn weak.
Proof.
  intros H Huv weak strong. pose proof (rytov_denom_pos p H) as Hd.
  pose proof (k_pos p H) as Hk. destruct H as [_ Hn _ _ _ _ _ HL _ _].
  unfold weak, strong. cbn [SetCn2Rytov Cn2 r0 r0scrn].
  set (D := 1.23 * fpow (k (__init__ p)) (7.0 / 6.0)
            * fpow (PropDist (__init__ p)) (11.0 / 6.0)) in *.
  cbn [__init__ k PropDist NumScr] in *. set (kk := 2 * PI / p_wvl p) in *.
  assert (Hu : 0 < u ^ 2 / D) by (apply Rdiv_lt_0_compat; [nra|exact Hd]).
  assert (Hlt : u ^ 2 / D < v ^ 2 / D).
  { unfold Rdiv. apply Rmult_lt_compat_r; [now apply Rinv_0_lt_compat|nra]. }
  assert (Hk2 : 0 < 0.423 * kk ^ 2).
  { apply Rmult_lt_0_compat; [dec; lra|]. now apply pow_lt. }
  assert (HnR : 0 < INR (p_NumScr p)) by (apply lt_0_INR; lia).
  assert (HLn : 0 < p_PropDist p / INR (p_NumScr p)) by now apply Rdiv_lt_0_compat.
  split; [exact Hlt|]. split.
  - apply fpow_neg_decreasing; [|dec; lra]. split.
    + apply Rmult_lt_0_compat; [|exact HL]. now apply Rmult_lt_0_compat.
    + apply Rmult_lt_compat_r; [exact HL|]. apply Rmult_lt_compat_l; assumption.
  - apply fpow_neg_decreasing; [|dec; lra]. split.
    + apply Rmult_lt_0_compat; [|exact HLn]. now apply Rmult_lt_0_compat.
    + apply Rmult_lt_compat_r; [exact HLn|]. apply Rmult_lt_compat_l; assumption.
Qed.

(** The theorem at the default object and the Rytov numbers 1 and 2. *)
Lemma SetCn2Rytov_monotone_witness :
  physical defaults /\ 0 < 1 < 2
  /\ r0 (SetCn2Rytov (__init__ defaults) 2) < r0 (SetCn2Rytov (__init__ defaults) 1).
Proof.
  assert (H : 0 < 1 < 2) by lra.
  split; [exact defaults_physical|]. split; [exact H|].
  apply (SetCn2Rytov_monotone defaults 1 2 defaults_physical H).
Defined.

End Turbulence.

(** ** Facts: grids, planes and the propagation loop *)

Module Layout.
Import Num Cx Np WavePy Geometry Sampling Propagation Turbulence.

(** The grid coordinate [np.linspace(-N/2, N/2 - 1, N)[i]] is [i - N/2]. *)
Lemma linspace_grid (n i : nat) :
  (i < n)%nat -> linspace (- INR n / 2) (INR n / 2 - 1) n i = INR i - INR n / 2.
Proof.
  intros Hi. unfold linspace. destruct (Nat.eqb_spec n 1) as [->|Hn].
  - replace i with 0%nat by lia. cbn [INR]. lra.
  - assert (H2 : (2 <= n)%nat) by lia. apply le_INR in H2. cbn [INR] in H2.
    field. lra.
Qed.

(** The positions of the planes in closed form, for two screens or
    more. *)
Lemma item_PropLocs (m : nat) (L : R) (i : nat) :
  (i <= S (S m) + 2)%nat ->
  let n := S (S m) in
  item (make_PropLocs n (make_dzProps n L)) i =
    if (i =? 0)%nat then 0
    else if (i =? 1)%nat then L / (2 * INR n)
    else if (i <=? n)%nat then (INR i - 1) * (L / INR n)
    else if (i =? n + 1)%nat then L - L / (2 * INR n)
    else L.
Proof.
  intros Hi n.
  destruct (make_PropLocs_spec n _ (length_dzProps n L)) as [_ H].
  rewrite H by exact Hi. clear H.
  assert (Hn : INR n <> 0) by (apply not_0_INR; lia).
  assert (Hdz : forall t, (t < n + 2)%nat ->
            item (make_dzProps n L) t =
              if (t <? 2)%nat || (n <=? t)%nat then L / (2 * INR n) else L / INR n)
    by (intros t Ht; now apply item_dzProps).
  assert (Hn2 : (2 <= n)%nat) by (unfold n; lia).
  change (i <= n + 2)%nat in Hi. clearbody n.
  induction i as [|i IH]; [reflexivity|].
  rewrite list_sum_take_S by (rewrite length_dzProps; lia).
  rewrite IH, Hdz by lia.
  rewrite (S_INR i).
  repeat (match goal with
          | |- context [(?a =? ?b)%nat] => destruct (Nat.eqb_spec a b)
          | |- context [(?a <=? ?b)%nat] => destruct (Nat.leb_spec a b)
          | |- context [(?a <? ?b)%nat] => destruct (Nat.ltb_spec a b)
          end; cbn [orb]); try lia.
  all: try (subst i; cbn [INR]; field; exact Hn).
  all: try (field; exact Hn).
  all: try (assert (Ei : INR i = INR n) by (f_equal; lia); rewrite Ei; field; exact Hn).
  all: try (assert (Ei : INR i = INR n + 1) by (rewrite <- S_INR; f_equal; lia);
            rewrite Ei; field; exact Hn).
Qed.

Lemma length_PropLocs (n : nat) (L : R) :
  length (make_PropLocs n (make_dzProps n L)) = (n + 3)%nat.
Proof. apply make_PropLocs_spec, length_dzProps. Qed.

Lemma item_app_l (a b : list R) (i : nat) :
  (i < length a)%nat -> item (a ++ b) i = item a i.
Proof. intros H. unfold item. now rewrite app_nth1. Qed.

Lemma item_app_r (a b : list R) (i : nat) :
  (length a <= i)%nat -> item (a ++ b) i = item b (i - length a).
Proof. intros H. unfold item. now rewrite app_nth2. Qed.

Lemma item_drop (a : list R) (k i : nat) : item (drop k a) i = item a (k + i).
Proof. unfold item. rewrite !nth_lookup, lookup_drop. reflexivity. Qed.

Lemma item_take (a : list R) (k i : nat) : (i < k)%nat -> item (take k a) i = item a i.
Proof. intros H. unfold item. rewrite !nth_lookup, lookup_take_lt by exact H. reflexivity. Qed.

Lemma length_ScrnLoc (n : nat) (PL : list R) :
  (1 <= n)%nat -> (n <= length PL)%nat -> length (make_ScrnLoc n PL) = n.
Proof.
  intros H1 H2. unfold make_ScrnLoc.
  rewrite length_app, length_drop, length_take. cbn [length]. lia.
Qed.

Lemma item_ScrnLoc (n : nat) (PL : list R) (i : nat) :
  (n <= length PL)%nat -> (i < n)%nat ->
  item (make_ScrnLoc n PL) i
  = if (i =? n - 1)%nat then item PL (n + 1) else item PL (i + 1).
Proof.
  intros Hn Hi. unfold make_ScrnLoc.
  assert (Hlen : length (drop 1 (take n PL)) = (n - 1)%nat)
    by (rewrite length_drop, length_take; lia).
  destruct (Nat.eqb_spec i (n - 1)) as [->|Hne].
  - rewrite item_app_r by lia. rewrite Hlen, Nat.sub_diag. reflexivity.
  - rewrite item_app_l by lia. rewrite item_drop, item_take by lia.
    f_equal. lia.
Qed.

(** X5.  The source-plane and receiver-plane grids are centred on the cell
    [N/2]: [x1[i, j] = (j - N/2) * dx] and [y1[i, j] = (i - N/2) * dx], and
    the same with [Rdx] for [xR], [yR]; [r1] and [rR] are the distances
    from that origin. *)
Theorem grid_coordinates (p : Params) (i j : nat) :
  physical p -> (i < p_N p)%nat -> (j < p_N p)%nat ->
  let self := __init__ p in
  x1 self i j = (INR j - INR (N self) / 2) * dx self
  /\ y1 self i j = (INR i - INR (N self) / 2) * dx self
  /\ xR self i j = (INR j - INR (N self) / 2) * Rdx self
  /\ yR self i j = (INR i - INR (N self) / 2) * Rdx self
  /\ r1 self i j = sqrt (x1 self i j ^ 2 + y1 self i j ^ 2)
  /\ rR self i j = sqrt (xR self i j ^ 2 + yR self i j ^ 2).
Proof.
  intros _ Hi Hj. cbn [__init__ x1 y1 xR yR r1 rR N dx Rdx].
  unfold meshgrid_X, meshgrid_Y. rewrite !linspace_grid by assumption.
  repeat split; reflexivity.
Qed.

(** The theorem at the corner cell of the default grid. *)
Lemma grid_coordinates_witness :
  physical defaults /\ (0 < p_N defaults)%nat
  /\ x1 (__init__ defaults) 0%nat 0%nat = (INR 0 - INR 256 / 2) * 5e-3.
Proof.
  assert (H : (0 < p_N defaults)%nat) by (cbn; lia).
  split; [exact defaults_physical|]. split; [exact H|].
  apply (grid_coordinates defaults 0 0 defaults_physical H H).
Defined.

(** X6.  [ScrnLoc] for two screens or more: [NumScr] locations, the first at
    half a step from the source, the last at half a step before the
    receiver, and those between at whole multiples of the step
    [PropDist / NumScr]. *)
Theorem ScrnLoc_positions (p : Params) :
  physical p -> (2 <= p_NumScr p)%nat ->
  let self := __init__ p in
  let n := NumScr self in
  let L := PropDist self in
  length (ScrnLoc self) = n
  /\ item (ScrnLoc self) 0 = L / (2 * INR n)
  /\ (forall i, (1 <= i)%nat -> (i + 2 <= n)%nat ->
        item (ScrnLoc self) i = INR i * (L / INR n))
  /\ item (ScrnLoc self) (n - 1) = L - L / (2 * INR n).
Proof.
  intros _ Hn. cbn [__init__ ScrnLoc NumScr PropDist].
  destruct (p_NumScr p) as [|[|m]]; [lia|lia|]. clear Hn.
  set (L := p_PropDist p).
  pose proof (length_PropLocs (S (S m)) L) as Hlen.
  pose proof (item_PropLocs m L) as Hitem. cbn zeta in Hitem.
  set (n := S (S m)) in *.
  assert (Hn : (2 <= n)%nat) by (unfold n; lia). clearbody n.
  split; [apply length_ScrnLoc; lia|].
  split; [|split].
  - rewrite item_ScrnLoc by lia.
    destruct (Nat.eqb_spec 0 (n - 1)); [lia|].
    rewrite Hitem by lia. reflexivity.
  - intros i H1 H2. rewrite item_ScrnLoc by lia.
    destruct (Nat.eqb_spec i (n - 1)); [lia|].
    rewrite Hitem by lia.
    destruct (Nat.eqb_spec (i + 1) 0); [lia|].
    destruct (Nat.eqb_spec (i + 1) 1); [lia|].
    destruct (Nat.leb_spec (i + 1) n); [|lia].
    rewrite plus_INR. cbn [INR]. ring.
  - rewrite item_ScrnLoc by lia. rewrite Nat.eqb_refl.
    rewrite Hitem by lia.
    destruct (Nat.eqb_spec (n + 1) 0); [lia|].
    destruct (Nat.eqb_spec (n + 1) 1); [lia|].
    destruct (Nat.leb_spec (n + 1) n); [lia|].
    rewrite Nat.eqb_refl. reflexivity.
Qed.

(** The theorem at the default arguments (ten screens). *)
Lemma ScrnLoc_positions_witness :
  physical defaults /\ (2 <= p_NumScr defaults)%nat
  /\ length (ScrnLoc (__init__ defaults)) = 10%nat.
Proof.
  assert (H : (2 <= p_NumScr defaults)%nat) by (cbn; lia).
  split; [exact defaults_physical|]. split; [exact H|].
  apply (ScrnLoc_positions defaults defaults_physical H).
Defined.

Lemma length_PropSampling (p : Params) :
  length (PropSampling (__init__ p)) = (p_NumScr p + 3)%nat.
Proof.
  cbn [__init__ PropSampling]. unfold make_PropSampling, make_FracPropDist.
  now rewrite !length_fmap, length_PropLocs.
Qed.

(** X7.  For two screens or more the fraction of the path runs from 0 at the
    source plane to 1 at the receiver plane, and the sampling pitch from
    [dx] to [Rdx]. *)
Theorem sampling_end_points (p : Params) :
  physical p -> (2 <= p_NumScr p)%nat ->
  let self := __init__ p in
  let n := NumScr self in
  length (FracPropDist self) = (n + 3)%nat
  /\ length (PropSampling self) = (n + 3)%nat
  /\ item (FracPropDist self) 0 = 0
  /\ item (FracPropDist self) (n + 2) = 1
  /\ item (PropSampling self) 0 = dx self
  /\ item (PropSampling self) (n + 2) = Rdx self.
Proof.
  intros Hphys Hn.
  assert (HL : p_PropDist p <> 0) by (pose proof (phys_PropDist p Hphys); lra).
  pose proof (length_PropSampling p) as HlenPS.
  cbn [__init__ FracPropDist PropSampling NumScr dx Rdx] in *.
  destruct (p_NumScr p) as [|[|m]]; [lia|lia|]. clear Hn.
  set (L := p_PropDist p) in *.
  pose proof (length_PropLocs (S (S m)) L) as Hlen.
  pose proof (item_PropLocs m L) as Hitem. cbn zeta in Hitem.
  set (n := S (S m)) in *.
  assert (Hn : (2 <= n)%nat) by (unfold n; lia). clearbody n.
  assert (H0 : item (make_PropLocs n (make_dzProps n L)) 0 = 0)
    by (rewrite Hitem by lia; reflexivity).
  assert (H1 : item (make_PropLocs n (make_dzProps n L)) (n + 2) = L).
  { rewrite Hitem by lia.
    destruct (Nat.eqb_spec (n + 2) 0); [lia|].
    destruct (Nat.eqb_spec (n + 2) 1); [lia|].
    destruct (Nat.leb_spec (n + 2) n); [lia|].
    destruct (Nat.eqb_spec (n + 2) (n + 1)); [lia|]. reflexivity. }
  unfold make_PropSampling, make_FracPropDist in *.
  rewrite !length_fmap in *.
  split; [exact Hlen|]. split; [exact HlenPS|].
  rewrite !item_fmap by (rewrite ?length_fmap; lia).
  rewrite H0, H1. repeat split; field; exact HL.
Qed.

(** The theorem at the default arguments. *)
Lemma sampling_end_points_witness :
  physical defaults /\ (2 <= p_NumScr defaults)%nat
  /\ item (PropSampling (__init__ defaults)) 12 = Rdx (__init__ defaults).
Proof.
  assert (H : (2 <= p_NumScr defaults)%nat) by (cbn; lia).
  split; [exact defaults_physical|]. split; [exact H|].
  apply (sampling_end_points defaults defaults_physical H).
Defined.

(** X8.  With the same pitch at source and receiver every plane keeps that
    pitch, every sampling ratio is one, and the opening quadratic phase
    factor [P0] is one everywhere. *)
Theorem equal_pitch_unit_ratios (p : Params) :
  physical p -> p_Rdx p = p_dx p ->
  let self := __init__ p in
  (forall i, (i < p_NumScr p + 3)%nat -> item (PropSampling self) i = dx self)
  /\ (forall i, (i < p_NumScr p + 2)%nat ->
        item (SamplingRatioBetweenScreen self) i = 1)
  /\ (forall i j, P0 self i j = RtoC 1).
Proof.
  intros Hphys HR self.
  assert (Hdx : p_dx p <> 0) by (pose proof (phys_dx p Hphys); lra).
  pose proof (length_PropSampling p) as HlenPS. fold self in HlenPS.
  assert (HPS : forall i, (i < p_NumScr p + 3)%nat -> item (PropSampling self) i = dx self).
  { intros i Hi. unfold self. cbn [__init__ PropSampling dx].
    unfold make_PropSampling, make_FracPropDist.
    rewrite !item_fmap by (rewrite ?length_fmap, length_PropLocs; lia).
    rewrite HR. ring. }
  assert (HSR : forall i, (i < p_NumScr p + 2)%nat ->
                  item (SamplingRatioBetweenScreen self) i = 1).
  { intros i Hi.
    change (SamplingRatioBetweenScreen self)
      with (make_SamplingRatio (PropSampling self)).
    rewrite item_SamplingRatio by (rewrite HlenPS; lia).
    rewrite !HPS by lia. unfold self. cbn [__init__ dx]. field. exact Hdx. }
  split; [exact HPS|]. split; [exact HSR|].
  intros i j. unfold P0. rewrite HSR by lia.
  rewrite <- Cexp_0. f_equal. csolve.
Qed.

(** The theorem at the default arguments, which have [dx = Rdx]. *)
Lemma equal_pitch_unit_ratios_witness :
  physical defaults /\ p_Rdx defaults = p_dx defaults
  /\ forall i j, P0 (__init__ defaults) i j = RtoC 1.
Proof.
  assert (H1 : p_Rdx defaults = p_dx defaults) by reflexivity.
  split; [exact defaults_physical|]. split; [exact H1|].
  apply (equal_pitch_unit_ratios defaults defaults_physical H1).
Defined.

Lemma planes_seq (p : Params) : planes (__init__ p) = seq 1 (p_NumScr p).
Proof.
  unfold planes. cbn [__init__ PropLocs]. rewrite length_PropLocs. f_equal. lia.
Qed.

(** X9.  The loop of [VacuumProp] and [SplitStepProp] on a constructed object
    runs over [pcount = 1 .. NumScr], and every index it reads lies within
    its array: [dzProps], [PropSampling], the sampling ratios, and the
    layer [pcount - 1] of a stack of [NumScr] screens. *)
Theorem propagation_loop_in_bounds (p : Params) :
  physical p ->
  let self := __init__ p in
  planes self = seq 1 (NumScr self)
  /\ Forall (fun pcount =>
               (pcount < length (dzProps self))%nat
               /\ (pcount < length (PropSampling self))%nat
               /\ (pcount < length (SamplingRatioBetweenScreen self))%nat
               /\ (pcount - 1 < NumScr self)%nat) (planes self).
Proof.
  intros _ self. split; [apply planes_seq|].
  unfold self. rewrite planes_seq. apply Forall_forall. intros pcount Hp.
  apply elem_of_seq in Hp.
  pose proof (length_PropSampling p) as HPS.
  change (SamplingRatioBetweenScreen (__init__ p))
    with (make_SamplingRatio (PropSampling (__init__ p))).
  rewrite length_SamplingRatio, HPS.
  cbn [__init__ dzProps NumScr]. rewrite length_dzProps. lia.
Qed.

(** The theorem at the default arguments. *)
Lemma propagation_loop_in_bounds_witness :
  physical defaults /\ planes (__init__ defaults) = seq 1 (NumScr (__init__ defaults)).
Proof.
  split; [exact defaults_physical|].
  apply (propagation_loop_in_bounds defaults defaults_physical).
Defined.

End Layout.

(** ** Facts: pupil masks and sources *)

Module Masks.
Import Num Cx Np WavePy Turbulence Layout.

(** The coordinate [np.linspace(-S/2, S/2, N)] is antisymmetric under a
    reversal of the index. *)
Lemma linspace_flip (S : R) (n i : nat) :
  (2 <= n)%nat -> (i < n)%nat ->
  linspace (- (S / 2)) (S / 2) n (n - 1 - i) = - linspace (- (S / 2)) (S / 2) n i.
Proof.
  intros Hn Hi. unfold linspace.
  destruct (Nat.eqb_spec n 1); [lia|].
  rewrite !minus_INR by lia. cbn [INR].
  assert (H2 : 2 <= INR n) by (replace 2 with (INR 2) by (cbn; lra); apply le_INR; lia).
  field. lra.
Qed.

Lemma linspace_sqr_flip (S : R) (n i : nat) :
  (i < n)%nat ->
  linspace (- (S / 2)) (S / 2) n (n - 1 - i) ^ 2 = linspace (- (S / 2)) (S / 2) n i ^ 2.
Proof.
  intros Hi. destruct (Nat.le_gt_cases 2 n) as [Hn|Hn].
  - rewrite linspace_flip by assumption. ring.
  - replace i with 0%nat by lia. replace (n - 1 - 0)%nat with 0%nat by lia. reflexivity.
Qed.

Lemma linspace_range (S : R) (n i : nat) :
  0 <= S -> (i < n)%nat ->
  - (S / 2) <= linspace (- (S / 2)) (S / 2) n i <= S / 2.
Proof.
  intros HS Hi. unfold linspace. destruct (Nat.eqb_spec n 1); [lra|].
  assert (Hn : 1 < INR n) by (replace 1 with (INR 1) by reflexivity; apply lt_INR; lia).
  assert (Hi' : INR i <= INR n - 1).
  { replace (INR n - 1) with (INR (n - 1)) by (rewrite minus_INR by lia; reflexivity).
    apply le_INR. lia. }
  pose proof (pos_INR i) as Hi0.
  replace ((S / 2 - - (S / 2)) / (INR n - 1)) with (S / (INR n - 1)) by (field; lra).
  assert (Hq : 0 <= INR i * (S / (INR n - 1)) <= S).
  { assert (Hd : 0 < / (INR n - 1)) by (apply Rinv_0_lt_compat; lra).
    assert (E : INR i * (S / (INR n - 1)) = S * (INR i * / (INR n - 1)))
      by (unfold Rdiv; ring).
    assert (Hr : 0 <= INR i * / (INR n - 1) <= 1).
    { split; [nra|]. apply Rmult_le_reg_r with (INR n - 1); [lra|].
      rewrite Rmult_assoc, Rinv_l by lra. lra. }
    rewrite E. nra. }
  lra.
Qed.

(** The radial distance map of [MakePupil]. *)
Definition rad_dist (N : nat) (SideLen : R) (i j : nat) : R :=
  sqrt (linspace (- (SideLen / 2)) (SideLen / 2) N j ^ 2
        + (1 * linspace (- (SideLen / 2)) (SideLen / 2) N i) ^ 2).

Lemma MakePupil_rad (N : nat) (SideLen D_eval : R) (i j : nat) :
  MakePupil N SideLen D_eval i j =
    if Rlt_dec (rad_dist N SideLen i j) D_eval then 1.0
    else if Rlt_dec D_eval (rad_dist N SideLen i j) then 0.0
    else 0.5.
Proof. reflexivity. Qed.

Lemma rad_dist_transpose (N : nat) (S : R) (i j : nat) :
  rad_dist N S i j = rad_dist N S j i.
Proof. unfold rad_dist. f_equal. ring. Qed.

Lemma rad_dist_flip_row (N : nat) (S : R) (i j : nat) :
  (i < N)%nat -> rad_dist N S (N - 1 - i) j = rad_dist N S i j.
Proof.
  intros Hi. unfold rad_dist. f_equal.
  pose proof (linspace_sqr_flip S N i Hi) as H.
  set (a := linspace _ _ N (N - 1 - i)) in *. set (b := linspace _ _ N i) in *.
  replace ((1 * a) ^ 2) with (a ^ 2) by ring. rewrite H. ring.
Qed.

Lemma rad_dist_flip_col (N : nat) (S : R) (i j : nat) :
  (j < N)%nat -> rad_dist N S i (N - 1 - j) = rad_dist N S i j.
Proof.
  intros Hj. rewrite rad_dist_transpose, rad_dist_flip_row by exact Hj.
  apply rad_dist_transpose.
Qed.

(** X12.  The pupil mask is symmetric: under transposition and under a reversal
    of the rows or of the columns. *)
Theorem MakePupil_symmetric (N : nat) (SideLen D_eval : R) (i j : nat) :
  (i < N)%nat -> (j < N)%nat ->
  MakePupil N SideLen D_eval j i = MakePupil N SideLen D_eval i j
  /\ MakePupil N SideLen D_eval (N - 1 - i)%nat j = MakePupil N SideLen D_eval i j
  /\ MakePupil N SideLen D_eval i (N - 1 - j)%nat = MakePupil N SideLen D_eval i j.
Proof.
  intros Hi Hj. rewrite !MakePupil_rad.
  rewrite (rad_dist_transpose N SideLen j i), rad_dist_flip_row, rad_dist_flip_col
    by assumption.
  repeat split; reflexivity.
Qed.

(** The theorem at a corner of a 256-point mask. *)
Lemma MakePupil_symmetric_witness :
  (0 < 256)%nat
  /\ MakePupil 256 1.0 0.1 (256 - 1 - 0)%nat 0%nat = MakePupil 256 1.0 0.1 0%nat 0%nat.
Proof.
  assert (H : (0 < 256)%nat) by lia.
  split; [exact H|]. apply (MakePupil_symmetric 256 1.0 0.1 0 0 H H).
Defined.

Lemma MakePupil_values (N : nat) (S D : R) (i j : nat) :
  0 <= MakePupil N S D i j <= 1.
Proof.
  rewrite MakePupil_rad.
  destruct (Rlt_dec _ _); [dec; lra|]. destruct (Rlt_dec _ _); dec; lra.
Qed.

Lemma rad_dist_bound (N : nat) (S : R) (i j : nat) :
  0 <= S -> (i < N)%nat -> (j < N)%nat -> 0 <= rad_dist N S i j <= S.
Proof.
  intros HS Hi Hj. unfold rad_dist. split; [apply sqrt_pos|].
  pose proof (linspace_range S N i HS Hi) as H1.
  pose proof (linspace_range S N j HS Hj) as H2.
  set (a := linspace _ _ N j) in *. set (b := linspace _ _ N i) in *.
  rewrite <- (sqrt_pow2 S HS). apply sqrt_le_1_alt. nra.
Qed.

(** X13.  The mask grows with the diameter argument: it is all zeros for a
    negative argument, never decreases when the argument increases, and
    is all ones once the argument exceeds the side length. *)
Theorem MakePupil_monotone (N : nat) (SideLen D1 D2 : R) (i j : nat) :
  D1 <= D2 ->
  MakePupil N SideLen D1 i j <= MakePupil N SideLen D2 i j
  /\ (D1 < 0 -> MakePupil N SideLen D1 i j = 0)
  /\ (0 <= SideLen -> SideLen < D2 -> (i < N)%nat -> (j < N)%nat ->
      MakePupil N SideLen D2 i j = 1).
Proof.
  intros HD. rewrite !MakePupil_rad. set (r := rad_dist N SideLen i j).
  assert (Hr : 0 <= r) by apply sqrt_pos.
  split; [|split].
  - destruct (Rlt_dec r D1), (Rlt_dec r D2), (Rlt_dec D1 r), (Rlt_dec D2 r);
      dec; lra.
  - intros H. destruct (Rlt_dec r D1); [lra|]. destruct (Rlt_dec D1 r); dec; lra.
  - intros HS HSD Hi Hj.
    pose proof (rad_dist_bound N SideLen i j HS Hi Hj) as [_ Hb]. fold r in Hb.
    destruct (Rlt_dec r D2); [dec; lra|lra].
Qed.

(** The theorem for the transmit and a wider aperture. *)
Lemma MakePupil_monotone_witness :
  0.1 <= 0.25
  /\ MakePupil 256 1.0 0.1 0%nat 0%nat <= MakePupil 256 1.0 0.25 0%nat 0%nat.
Proof.
  assert (H : 0.1 <= 0.25) by (dec; lra).
  split; [exact H|]. apply (MakePupil_monotone 256 1.0 0.1 0.25 0 0 H).
Defined.

(** X14.  The collimated Gaussian source of a constructed object is real, lies
    between zero and the pupil mask of the transmitting aperture, and so
    vanishes wherever the mask does. *)
Theorem CollimatedGaussian_within_pupil (p : Params) :
  physical p -> p_simOption p = 2%Z ->
  let self := __init__ p in
  exists Src,
    Source self = Some Src
    /\ forall i j,
         snd (Src i j) = 0
         /\ 0 <= fst (Src i j) <= MakePupil (N self) (SideLen self) (DTx self) i j
         /\ fst (Src i j) <= 1.
Proof.
  intros _ Hopt self. unfold self. cbn [__init__ Source N SideLen DTx].
  rewrite Hopt. cbn [Z.eqb Pos.eqb]. eexists. split; [reflexivity|].
  intros i j. unfold CollimatedGaussian, RtoC. cbn [fst snd].
  pose proof (MakePupil_values (p_N p) (p_SideLen p) 0.1 i j) as HM.
  set (M := MakePupil _ _ _ i j) in *.
  match goal with |- context [exp ?t] => set (e := exp t); assert (He : 0 < e <= 1) end.
  { split; [apply exp_pos|]. unfold e. rewrite <- exp_0.
    match goal with |- exp (- ?q) <= _ => assert (Hq : 0 <= q) end.
    { unfold Rdiv. apply Rmult_le_pos; [apply pow2_ge_0|].
      left. apply Rinv_0_lt_compat. apply pow_lt.
      apply Rmult_lt_0_compat; [apply exp_pos|dec; lra]. }
    destruct Hq as [Hq|<-]; [left; apply exp_increasing; lra|].
    right. f_equal. lra. }
  split; [reflexivity|]. split; nra.
Qed.

(** The theorem at the default arguments with [simOption = 2]. *)
Lemma CollimatedGaussian_within_pupil_witness :
  physical (with_simOption 2 defaults) /\ p_simOption (with_simOption 2 defaults) = 2%Z
  /\ exists Src, Source (__init__ (with_simOption 2 defaults)) = Some Src.
Proof.
  assert (H : physical (with_simOption 2 defaults))
    by (apply with_simOption_physical, defaults_physical).
  split; [exact H|]. split; [reflexivity|].
  destruct (CollimatedGaussian_within_pupil (with_simOption 2 defaults) H eq_refl)
    as (Src & HS & _).
  exists Src. exact HS.
Defined.

End Masks.

(** ** Facts: the discrete Fourier transform *)

Module Fourier.
Import Num Cx Np WavePy.

Lemma Cexp_add (z w : C) : Cexp (z + w) = (Cexp z * Cexp w)%C.
Proof.
  unfold Cexp, Cadd, Cmul. cbn [fst snd].
  rewrite exp_plus, cos_plus, sin_plus. apply C_eq; cbn [fst snd]; ring.
Qed.

Lemma csum_n_plus (f g : nat -> C) (n : nat) :
  csum_n (fun i => f i + g i)%C n = (csum_n f n + csum_n g n)%C.
Proof. induction n as [|n IH]; cbn [csum_n]; [|rewrite IH]; ring. Qed.

Lemma csum_n_swap (f : nat -> nat -> C) (n m : nat) :
  csum_n (fun i => csum_n (fun j => f i j) m) n
  = csum_n (fun j => csum_n (fun i => f i j) n) m.
Proof.
  induction n as [|n IH]; cbn [csum_n].
  - now rewrite csum_n_zero.
  - rewrite IH, <- csum_n_plus. reflexivity.
Qed.

(** The root of unity [exp(s * 2 * pi * i * p / n)]. *)
Definition root (s : R) (n p : nat) : C :=
  Cexp (Ci * RtoC (s * 2 * PI * INR p / INR n))%C.

Lemma Cpow_root (s : R) (n p m : nat) :
  Cpow (root s n p) m = Cexp (Ci * RtoC (s * 2 * PI * (INR p * INR m) / INR n))%C.
Proof.
  induction m as [|m IH].
  - cbn [Cpow INR]. rewrite <- Cexp_0. f_equal. csolve. unfold Rdiv. ring.
  - cbn [Cpow]. rewrite IH. unfold root. rewrite <- Cexp_add. f_equal.
    rewrite S_INR. csolve; unfold Rdiv; ring.
Qed.

Lemma twiddle_roots (s : R) (n p q m l : nat) :
  twiddle s n p q m l = (Cpow (root s n p) m * Cpow (root s n q) l)%C.
Proof.
  rewrite !Cpow_root, <- Cexp_add. unfold twiddle. f_equal.
  csolve; unfold Rdiv; ring.
Qed.

(** [exp(1j * x) = cos x + 1j * sin x]. *)
Lemma Cexp_Ci (x : R) : Cexp (Ci * RtoC x)%C = (cos x, sin x).
Proof.
  unfold Cexp, Cmul, Ci, RtoC. cbn [fst snd].
  replace (0 * x - 1 * 0) with 0 by ring.
  replace (0 * 0 + 1 * x) with x by ring.
  rewrite exp_0. apply C_eq; cbn [fst snd]; ring.
Qed.

Lemma Cexp_turns (t : nat) : Cexp (Ci * RtoC (2 * PI * INR t))%C = RtoC 1.
Proof.
  rewrite Cexp_Ci.
  replace (2 * PI * INR t) with (0 + 2 * INR t * PI) by ring.
  rewrite cos_period, sin_period, cos_0, sin_0. reflexivity.
Qed.

Lemma Cexp_conj_turns (t : nat) : Cexp (Ci * RtoC (-1 * 2 * PI * INR t))%C = RtoC 1.
Proof.
  rewrite Cexp_Ci.
  replace (-1 * 2 * PI * INR t) with (- (0 + 2 * INR t * PI)) by ring.
  rewrite cos_neg, sin_neg, cos_period, sin_period, cos_0, sin_0.
  unfold RtoC. f_equal. ring.
Qed.

Lemma root_pow_n (s : R) (n p : nat) :
  s = 1 \/ s = -1 -> (1 <= n)%nat -> Cpow (root s n p) n = RtoC 1.
Proof.
  intros Hs Hn. rewrite Cpow_root.
  assert (Hn0 : INR n <> 0) by (apply not_0_INR; lia).
  destruct Hs as [-> | ->].
  - rewrite <- (Cexp_turns p). f_equal. f_equal. f_equal. field. exact Hn0.
  - rewrite <- (Cexp_conj_turns p). f_equal. f_equal. f_equal. field. exact Hn0.
Qed.

Lemma root_zero (s : R) (n : nat) : root s n 0 = RtoC 1.
Proof.
  unfold root. cbn [INR]. rewrite <- Cexp_0. f_equal. csolve. unfold Rdiv. ring.
Qed.

Lemma cos_lt_1 (x : R) : 0 < x < 2 * PI -> cos x < 1.
Proof.
  intros Hx. replace x with (2 * (x / 2)) by field.
  rewrite cos_2a_sin.
  assert (0 < sin (x / 2)) by (apply sin_gt_0; lra).
  nra.
Qed.

Lemma root_not_one (s : R) (n p : nat) :
  s = 1 \/ s = -1 -> (0 < p < n)%nat -> root s n p <> RtoC 1.
Proof.
  intros Hs Hp H. apply (f_equal fst) in H. revert H.
  unfold root. rewrite Cexp_Ci. cbn [fst RtoC].
  set (x := 2 * PI * INR p / INR n).
  assert (Hx : 0 < x < 2 * PI).
  { assert (0 < INR p) by (apply lt_0_INR; lia).
    assert (INR p < INR n) by (apply lt_INR; lia).
    pose proof PI_RGT_0. unfold x. split.
    - apply Rdiv_lt_0_compat; nra.
    - apply Rmult_lt_reg_r with (INR n); [lra|].
      unfold Rdiv. rewrite Rmult_assoc, Rinv_l by lra. nra. }
  pose proof (cos_lt_1 x Hx) as Hc.
  destruct Hs as [-> | ->].
  - replace (1 * 2 * PI * INR p / INR n) with x by (unfold x, Rdiv; ring).
    lra.
  - replace (-1 * 2 * PI * INR p / INR n) with (- x) by (unfold x, Rdiv; ring).
    rewrite cos_neg. lra.
Qed.

Lemma geometric_sum (w : C) (n : nat) :
  ((RtoC 1 - w) * csum_n (Cpow w) n)%C = (RtoC 1 - Cpow w n)%C.
Proof.
  induction n as [|n IH]; cbn [csum_n Cpow]; [ring|].
  replace ((RtoC 1 - w) * (csum_n (Cpow w) n + Cpow w n))%C
    with ((RtoC 1 - w) * csum_n (Cpow w) n + (RtoC 1 - w) * Cpow w n)%C by ring.
  rewrite IH. ring.
Qed.

Lemma Cmul_zero_l (z w : C) : (z * w)%C = RtoC 0 -> z <> RtoC 0 -> w = RtoC 0.
Proof.
  destruct z as [a b], w as [c d]. unfold Cmul, RtoC. cbn [fst snd].
  intros H Hz. injection H as H1 H2.
  assert (Hn : a * a + b * b <> 0).
  { intros E. apply Hz. assert (a = 0) by nra. assert (b = 0) by nra. now subst. }
  assert (Hc : (a * a + b * b) * c = 0).
  { replace ((a * a + b * b) * c) with (a * (a * c - b * d) + b * (a * d + b * c))
      by ring.
    rewrite H1, H2. ring. }
  assert (Hd : (a * a + b * b) * d = 0).
  { replace ((a * a + b * b) * d) with (a * (a * d + b * c) - b * (a * c - b * d))
      by ring.
    rewrite H1, H2. ring. }
  apply Rmult_integral in Hc. apply Rmult_integral in Hd.
  destruct Hc as [Hc|Hc]; [contradiction|]. destruct Hd as [Hd|Hd]; [contradiction|].
  now subst.
Qed.

Lemma csum_n_one (n : nat) : csum_n (fun _ => RtoC 1) n = RtoC (INR n).
Proof.
  induction n as [|n IH]; [reflexivity|].
  cbn [csum_n]. rewrite IH, S_INR. csolve.
Qed.

(** The sum of the powers of a root of unity. *)
Lemma root_sum (s : R) (n p : nat) :
  s = 1 \/ s = -1 -> (p < n)%nat ->
  csum_n (Cpow (root s n p)) n = if (p =? 0)%nat then RtoC (INR n) else RtoC 0.
Proof.
  intros Hs Hp. destruct (Nat.eqb_spec p 0) as [->|Hne].
  - rewrite (csum_n_ext _ (fun _ => RtoC 1)); [apply csum_n_one|].
    intros i _. rewrite root_zero. clear. induction i as [|i IH]; cbn [Cpow]; [reflexivity|].
    rewrite IH. ring.
  - apply (Cmul_zero_l (RtoC 1 - root s n p)).
    + rewrite geometric_sum, root_pow_n by (assumption || lia). ring.
    + intros H. apply (root_not_one s n p Hs); [lia|].
      replace (root s n p) with (RtoC 1 - (RtoC 1 - root s n p))%C by ring.
      rewrite H. ring.
Qed.

Lemma twiddle_sum (s : R) (n p q : nat) :
  s = 1 \/ s = -1 -> (p < n)%nat -> (q < n)%nat ->
  np_csum n (fun m l => twiddle s n p q m l)
  = if (p =? 0)%nat && (q =? 0)%nat then RtoC (INR n * INR n) else RtoC 0.
Proof.
  intros Hs Hp Hq. unfold np_csum.
  rewrite (csum_n_ext _ (fun m => Cpow (root s n p) m * csum_n (Cpow (root s n q)) n)%C).
  2:{ intros m _. rewrite <- csum_n_scal. apply csum_n_ext. intros l _.
      apply twiddle_roots. }
  rewrite (csum_n_ext _ (fun m => csum_n (Cpow (root s n q)) n * Cpow (root s n p) m)%C)
    by (intros; ring).
  rewrite csum_n_scal, !root_sum by assumption.
  destruct (p =? 0)%nat, (q =? 0)%nat; cbn [andb]; csolve.
Qed.

(** An array with one non-zero cell sums to that cell. *)
Lemma csum_n_single (f : nat -> C) (c n : nat) :
  (c < n)%nat -> (forall i, (i < n)%nat -> i <> c -> f i = RtoC 0) ->
  csum_n f n = f c.
Proof.
  intros Hc Hf. induction n as [|n IH]; [lia|]. cbn [csum_n].
  destruct (Nat.eq_dec n c) as [->|Hne].
  - rewrite (csum_n_ext _ (fun _ => RtoC 0)) by (intros; apply Hf; lia).
    rewrite csum_n_zero. ring.
  - rewrite IH by (try lia; intros; apply Hf; lia).
    rewrite (Hf n) by lia. ring.
Qed.

(** The entries of an inverse transform sum to the zero-frequency cell of
    its argument. *)
Lemma np_csum_ifft2 (n : nat) (a : CMat) :
  (1 <= n)%nat -> np_csum n (ifft2 n a) = a 0%nat 0%nat.
Proof.
  intros Hn. unfold ifft2.
  rewrite np_csum_scal.
  assert (Hn0 : INR n <> 0) by (apply not_0_INR; lia).
  assert (E : np_csum n (fun m l => np_csum n (fun p q => a p q * twiddle 1 n p q m l)%C)
              = (RtoC (INR n * INR n) * a 0%nat 0%nat)%C).
  { unfold np_csum.
    (* bring the sums over p, q outside *)
    rewrite (csum_n_ext _
               (fun m => csum_n (fun p => csum_n (fun l =>
                  csum_n (fun q => a p q * twiddle 1 n p q m l)%C n) n) n))
      by (intros; apply csum_n_swap).
    rewrite csum_n_swap.
    rewrite (csum_n_ext _
               (fun p => csum_n (fun q => a p q * np_csum n (fun m l => twiddle 1 n p q m l))%C n)).
    2:{ intros p Hp.
        rewrite (csum_n_ext _
                   (fun m => csum_n (fun q => csum_n (fun l =>
                      a p q * twiddle 1 n p q m l)%C n) n))
          by (intros; apply csum_n_swap).
        rewrite csum_n_swap. apply csum_n_ext. intros q Hq.
        unfold np_csum. rewrite <- csum_n_scal. apply csum_n_ext. intros m _.
        now rewrite csum_n_scal. }
    rewrite (csum_n_single _ 0%nat); [|lia|].
    - rewrite (csum_n_single _ 0%nat); [|lia|].
      + rewrite twiddle_sum by (auto; lia). cbn [Nat.eqb andb]. ring.
      + intros q Hq Hne. rewrite twiddle_sum by (auto; lia).
        destruct (Nat.eqb_spec q 0); [lia|]. cbn [andb Nat.eqb]. ring.
    - intros p Hp Hne.
      rewrite (csum_n_ext _ (fun _ => RtoC 0)); [apply csum_n_zero|].
      intros q Hq. rewrite twiddle_sum by (auto; lia).
      destruct (Nat.eqb_spec p 0); [lia|]. cbn [andb]. ring. }
  rewrite E. apply C_eq; cbn [fst snd Cmul RtoC]; field; exact Hn0.
Qed.

End Fourier.

(** ** Facts: the mean of a screen *)

Module ScreenMeans.
Import Num Cx Np WavePy Screens Fourier.

Lemma Cre_csum_n (f : nat -> C) (n : nat) :
  Cre (csum_n f n) = sum_n (fun i => Cre (f i)) n.
Proof.
  induction n as [|n IH]; cbn [csum_n sum_n]; [reflexivity|].
  rewrite <- IH. reflexivity.
Qed.

Lemma Cre_np_csum (n : nat) (a : CMat) :
  Cre (np_csum n a) = np_sum n (fun i j => Cre (a i j)).
Proof.
  unfold np_csum, np_sum. rewrite Cre_csum_n. apply sum_n_ext. intros i _.
  apply Cre_csum_n.
Qed.

Lemma np_sum_scal (n : nat) (c : R) (a : RMat) :
  np_sum n (fun i j => c * a i j) = c * np_sum n a.
Proof.
  unfold np_sum. rewrite <- sum_n_scal. apply sum_n_ext. intros i _.
  apply sum_n_scal.
Qed.

Lemma np_sum_plus (n : nat) (a b : RMat) :
  np_sum n (fun i j => a i j + b i j) = np_sum n a + np_sum n b.
Proof.
  unfold np_sum. rewrite <- sum_n_plus. apply sum_n_ext. intros i _.
  apply sum_n_plus.
Qed.

Lemma even_half (n : nat) :
  Nat.even n = true -> (1 <= n)%nat -> ((0 + (n - n / 2)) mod n = n / 2)%nat.
Proof.
  intros He Hn. apply Nat.even_spec in He. destruct He as [h ->].
  replace (2 * h / 2)%nat with h by (symmetry; rewrite Nat.mul_comm; apply Nat.div_mul; lia).
  replace (0 + (2 * h - h))%nat with h by lia.
  apply Nat.mod_small. lia.
Qed.

(** For an even grid size the entries of a screen of [PhaseScreen] sum to
    zero: the inverse transform sums to the zero-frequency cell of its
    argument, and that is the cell of the filter that was set to zero. *)
Lemma PhaseScreen_sum (self : WavePy) (g : rng) :
  Nat.even (N self) = true ->
  np_sum (N self) (fst (PhaseScreen self g)) = 0.
Proof.
  intros He. destruct (Nat.eq_dec (N self) 0%nat) as [H0|H0].
  { rewrite H0. reflexivity. }
  assert (HN : (1 <= N self)%nat) by lia.
  unfold PhaseScreen, randn. cbn [fst]. set (n := N self) in *.
  match goal with
  | |- np_sum n (fun i j => Cre (ifft2 n ?A i j * RtoC ?c)%C) = 0 =>
      set (a := A); set (c0 := c);
      rewrite (np_sum_ext n _ (fun i j => c0 * Cre (ifft2 n a i j)))
        by (intros; unfold Cre; cbn [Cmul RtoC fst snd]; ring)
  end.
  rewrite np_sum_scal, <- Cre_np_csum, np_csum_ifft2 by exact HN.
  unfold a, fftshift. rewrite even_half by assumption.
  fold (cen self). rewrite PSD_phi_cen, sqrt_0.
  cbn [Cre Cmul Cadd RtoC Ci fst snd]. ring.
Qed.

(** The loop of [TurbSim] keeps, layer by layer, [phz = loon * phz_lo +
    phz_hi], and for an even grid size every layer of [phz_lo] and of
    [phz_hi] sums to zero. *)
Definition layers_ok (self : WavePy) (st : (RStack * RStack * RStack) * rng) : Prop :=
  let '(phz, phz_lo, phz_hi, _) := st in
  (forall i j t, phz i j t = loon self * phz_lo i j t + phz_hi i j t)
  /\ (forall i j t, (NumScr self <= t)%nat ->
        phz i j t = 0 /\ phz_lo i j t = 0 /\ phz_hi i j t = 0).

Lemma TurbSim_screens_layers (self : WavePy) (g : rng) :
  layers_ok self (TurbSim_screens self g).
Proof.
  rewrite TurbSim_screens_unfold.
  apply fold_left_inv.
  - intros [[[phz lo] hi] g0] x Hx [H1 H2]. cbn [ts_step]. apply in_seq in Hx.
    destruct (PhaseScreen self g0) as [h ga].
    destruct (SubHarmonicComp self _ ga) as [l gb].
    unfold layers_ok, set_layer. split.
    + intros i j t. destruct (Nat.eqb_spec t x) as [->|Hne].
      * rewrite Nat.eqb_refl. reflexivity.
      * apply H1.
    + intros i j t Ht. destruct (Nat.eqb_spec t x) as [->|Hne]; [lia|].
      now apply H2.
  - unfold layers_ok. split; intros; [ring|repeat split].
Qed.

Definition layer_sums (self : WavePy) (st : (RStack * RStack * RStack) * rng) : Prop :=
  let '(_, phz_lo, phz_hi, _) := st in
  forall t, np_sum (N self) (fun i j => phz_lo i j t) = 0
            /\ np_sum (N self) (fun i j => phz_hi i j t) = 0.

Lemma np_sum_zeros (n : nat) : np_sum n (fun _ _ => 0) = 0.
Proof.
  rewrite (np_sum_ext n _ (fun i j => 0 * 0)) by (intros; ring).
  rewrite (np_sum_scal n 0 (fun _ _ => 0)). ring.
Qed.

Lemma TurbSim_screens_sums (self : WavePy) (g : rng) :
  Nat.even (N self) = true -> layer_sums self (TurbSim_screens self g).
Proof.
  intros He. rewrite TurbSim_screens_unfold.
  apply fold_left_inv.
  - intros [[[phz lo] hi] g0] x _ H. cbn [ts_step].
    pose proof (PhaseScreen_sum self g0 He) as Hh.
    destruct (PhaseScreen self g0) as [h ga]. cbn [fst] in Hh.
    pose proof (np_sum_minus_mean (N self)) as Hm.
    assert (Hl : np_sum (N self) (fst (SubHarmonicComp self (NumSubHarmonics self) ga)) = 0).
    { unfold SubHarmonicComp. cbn zeta.
      match goal with
      | |- context [fold_left ?f ?l ?s] => destruct (fold_left f l s) as [lof_phz g']
      end.
      cbn [fst]. apply np_sum_minus_mean. }
    destruct (SubHarmonicComp self _ ga) as [l gb]. cbn [fst] in Hl.
    unfold layer_sums, set_layer in *. intros t. specialize (H t).
    destruct (Nat.eqb_spec t x) as [->|Hne]; [|exact H].
    split; assumption.
  - unfold layer_sums. intros t. split; apply np_sum_zeros.
Qed.

End ScreenMeans.

(** ** Facts: the super-Gaussian window *)

Module Window.
Import Num Cx Np WavePy.

Lemma Int_part_16 : Int_part 16.0 = 16%Z.
Proof.
  symmetry. apply Int_part_spec. dec. split; lra.
Qed.

(** A sixteenth power is never negative, whatever the sign of the base. *)
Lemma fpow_16_nonneg (x : R) : 0 <= fpow x 16.0.
Proof.
  unfold fpow. destruct (Rlt_dec 0 x) as [Hx|Hx].
  - left. unfold Rpower. apply exp_pos.
  - destruct (Req_EM_T x 0) as [_|Hx0].
    + destruct (Req_EM_T 16.0 0); lra.
    + rewrite Int_part_16.
      destruct (Req_EM_T (IZR 16) 16.0) as [_|H]; [|lra].
      change (powerRZ x 16) with (x ^ 16).
      replace (x ^ 16) with (((x ^ 4) ^ 2) ^ 2) by ring.
      apply pow2_ge_0.
Qed.

(** The super-Gaussian window lies in (0, 1]. *)
Lemma MakeSGB_bounds (self : WavePy) (i j : nat) : 0 < MakeSGB self i j <= 1.
Proof.
  unfold MakeSGB. cbn zeta. split; [apply exp_pos|].
  rewrite <- exp_0.
  pose proof (fpow_16_nonneg (r1 self i j * INR (N self) / (0.55 * INR (N self))))
    as H.
  destruct H as [H|H].
  - left. apply exp_increasing. lra.
  - rewrite <- H. right. f_equal. lra.
Qed.

End Window.

(** ** Facts: window, screens and scintillation index of a constructed object *)

Module Budget.
Import Num Cx Np WavePy Screens Propagation Turbulence Layout Masks.
Import Fourier ScreenMeans Window.

Lemma half_even (n : nat) : Nat.even n = true -> INR (n / 2) - INR n / 2 = 0.
Proof.
  intros He. apply Nat.even_spec in He. destruct He as [h ->].
  replace (2 * h / 2)%nat with h by (symmetry; rewrite Nat.mul_comm; apply Nat.div_mul; lia).
  rewrite mult_INR. cbn [INR]. lra.
Qed.

Lemma r1_centre (p : Params) :
  (1 <= p_N p)%nat -> Nat.even (p_N p) = true ->
  r1 (__init__ p) (p_N p / 2)%nat (p_N p / 2)%nat = 0.
Proof.
  intros HN He.
  assert (Hc : (p_N p / 2 < p_N p)%nat) by (apply Nat.div_lt; lia).
  cbn [__init__ r1]. unfold meshgrid_X, meshgrid_Y.
  rewrite !linspace_grid by exact Hc. rewrite half_even by exact He.
  rewrite Rmult_0_l. replace (0 ^ 2 + 0 ^ 2) with 0 by ring. apply sqrt_0.
Qed.

Lemma fpow_16_zero : fpow 0 16.0 = 0.
Proof.
  unfold fpow. destruct (Rlt_dec 0 0) as [H|_]; [lra|].
  destruct (Req_EM_T 0 0) as [_|H]; [|lra].
  destruct (Req_EM_T 16.0 0) as [H|_]; [revert H; dec; lra|reflexivity].
Qed.

(** X15.  The super-Gaussian window of a constructed object is
    [exp(-(r1 / 0.55) ** 16)]: the grid size cancels between [rad] and
    [w].  It lies in (0, 1], and for an even grid size it is one at the
    origin cell [(N/2, N/2)]. *)
Theorem MakeSGB_window (p : Params) :
  physical p ->
  let self := __init__ p in
  (forall i j,
     MakeSGB self i j = exp (- fpow (r1 self i j / 0.55) 16.0)
     /\ 0 < MakeSGB self i j <= 1)
  /\ (Nat.even (N self) = true -> MakeSGB self (N self / 2)%nat (N self / 2)%nat = 1).
Proof.
  intros H self.
  assert (HN : 0 < INR (N self)).
  { apply lt_0_INR. unfold self. cbn [__init__ N]. apply (phys_N p H). }
  assert (E : forall i j, MakeSGB self i j = exp (- fpow (r1 self i j / 0.55) 16.0)).
  { intros i j. unfold MakeSGB. cbn zeta. f_equal. f_equal. f_equal.
    dec. field. lra. }
  split.
  - intros i j. split; [apply E|apply MakeSGB_bounds].
  - intros He. rewrite E. unfold self. cbn [__init__ N] in *.
    rewrite r1_centre by (try apply (phys_N p H); assumption).
    unfold Rdiv. rewrite Rmult_0_l, fpow_16_zero, Ropp_0. apply exp_0.
Qed.

(** The theorem at the default arguments. *)
Lemma MakeSGB_window_witness :
  physical defaults
  /\ MakeSGB (__init__ defaults) 128%nat 128%nat = 1.
Proof.
  split; [exact defaults_physical|].
  apply (MakeSGB_window defaults defaults_physical). reflexivity.
Defined.

(** X18.  For an even grid size every screen of [PhaseScreen] has zero sum, and
    so zero mean, whatever the generator returns: the cell of the filter
    that was set to zero carries the mean. *)
Theorem PhaseScreen_zero_mean (p : Params) (g : rng) :
  physical p -> Nat.even (p_N p) = true ->
  let self := __init__ p in
  np_sum (N self) (fst (PhaseScreen self g)) = 0
  /\ np_mean (N self) (fst (PhaseScreen self g)) = 0.
Proof.
  intros _ He self.
  assert (H : np_sum (N self) (fst (PhaseScreen self g)) = 0)
    by (apply PhaseScreen_sum; exact He).
  split; [exact H|]. unfold np_mean. rewrite H. unfold Rdiv. ring.
Qed.

(** The theorem at the default arguments and a generator of zeros. *)
Lemma PhaseScreen_zero_mean_witness :
  physical defaults /\ Nat.even (p_N defaults) = true
  /\ np_sum (N (__init__ defaults)) (fst (PhaseScreen (__init__ defaults) (fun _ => 0))) = 0.
Proof.
  split; [exact defaults_physical|]. split; [reflexivity|].
  apply (PhaseScreen_zero_mean defaults (fun _ => 0) defaults_physical eq_refl).
Defined.

(** X19.  For an even grid size every screen that [TurbSim] builds has zero sum:
    both of its parts have. *)
Theorem TurbSim_screens_zero_mean (p : Params) (g : rng) (t : nat) :
  physical p -> Nat.even (p_N p) = true ->
  let self := __init__ p in
  np_sum (N self) (fun i j => phz_of (TurbSim_screens self g) i j t) = 0.
Proof.
  intros _ He self.
  pose proof (TurbSim_screens_layers self g) as H1.
  pose proof (TurbSim_screens_sums self g He) as H2.
  unfold phz_of. destruct (TurbSim_screens self g) as [[[phz lo] hi] g'].
  cbn [fst]. destruct H1 as [H1 _]. destruct (H2 t) as [Hlo Hhi].
  rewrite (np_sum_ext _ _ (fun i j => loon self * lo i j t + hi i j t))
    by (intros; apply H1).
  rewrite (np_sum_plus (N self) (fun i j => loon self * lo i j t) (fun i j => hi i j t)).
  rewrite (np_sum_scal (N self) (loon self) (fun i j => lo i j t)).
  rewrite Hlo, Hhi. ring.
Qed.

(** The theorem at the default arguments and a generator of zeros. *)
Lemma TurbSim_screens_zero_mean_witness :
  physical defaults /\ Nat.even (p_N defaults) = true
  /\ np_sum (N (__init__ defaults))
       (fun i j => phz_of (TurbSim_screens (__init__ defaults) (fun _ => 0)) i j 0%nat) = 0.
Proof.
  split; [exact defaults_physical|]. split; [reflexivity|].
  apply (TurbSim_screens_zero_mean defaults (fun _ => 0) 0 defaults_physical eq_refl).
Defined.

(** X20.  [SubHarmonicComp(0)] runs no round of its loop: it returns an array of
    zeros and takes nothing from the generator. *)
Theorem SubHarmonicComp_no_orders (p : Params) (g : rng) :
  physical p ->
  let self := __init__ p in
  (forall i j, fst (SubHarmonicComp self 0 g) i j = 0)
  /\ snd (SubHarmonicComp self 0 g) = g.
Proof.
  intros H self. rewrite SubHarmonicComp_unfold. cbn [seq fold_left fst snd].
  split; [|reflexivity]. intros i j. unfold np_mean.
  rewrite (np_sum_ext _ _ (fun _ _ => 0)) by reflexivity.
  rewrite np_sum_zeros. cbn [Cre RtoC fst]. unfold Rdiv. ring.
Qed.

(** The theorem at the default arguments. *)
Lemma SubHarmonicComp_no_orders_witness :
  physical defaults
  /\ snd (SubHarmonicComp (__init__ defaults) 0 (fun _ => 0)) = (fun _ => 0).
Proof.
  split; [exact defaults_physical|].
  apply (SubHarmonicComp_no_orders defaults (fun _ => 0) defaults_physical).
Defined.

(** X21.  [EvalSI] raises [AttributeError] on every object: it asks for
    [self.makePupil], and the class defines [MakePupil]. *)
Theorem EvalSI_raises_AttributeError (self : WavePy) :
  EvalSI self = inl (AttributeError "makePupil")
  /\ getattr self "MakePupil" = inr "MakePupil"%string.
Proof.
  unfold EvalSI, getattr. destruct (rytov self); split; reflexivity.
Qed.

End Budget.

(** ** Facts: construction and indexing of [Atmos], the von Karman PSD *)

Module AtmosBehaviour.
Import Num Atmos.

Lemma bind_inr {A B : Type} (m : result A) (f : A -> result B) (b : B) :
  bind m f = inr b -> exists a, m = inr a /\ f a = inr b.
Proof. destruct m as [e|a]; cbn [bind]; [discriminate|]. intros H. now exists a. Qed.

Lemma mapM_getitem_KeyError (d : dict) (keys : list string) (e : exn) :
  mapM (getitem d) keys = inl e -> exists key, e = KeyError key.
Proof.
  induction keys as [|x keys IH]; cbn [mapM]; [discriminate|].
  unfold getitem at 1. destruct (d !! x) as [v|]; cbn [bind raise ret].
  - destruct (mapM (getitem d) keys) as [e'|l]; cbn [bind]; [|discriminate].
    intros [= <-]. now apply IH.
  - intros [= <-]. now eexists.
Qed.

Lemma lookup_val_KeyError {A : Type} (t : gmap string A) (v : pyval) (e : exn) :
  lookup_val t v = inl e -> e = KeyError v.
Proof.
  unfold lookup_val. destruct v; try (intros [= <-]; reflexivity).
  destruct (t !! s); [discriminate|]. now intros [= <-].
Qed.

(** [__psd_setup] raises nothing but [KeyError]. *)
Lemma psd_setup_KeyError (nm : pyval) (s : dict) (e : exn) :
  psd_setup nm s = inl e -> exists key, e = KeyError key.
Proof.
  unfold psd_setup.
  destruct (lookup_val psd_dict nm) as [e1|c] eqn:H1; cbn [bind].
  { intros [= <-]. apply lookup_val_KeyError in H1. exists nm. exact H1. }
  destruct (lookup_val psd_input_dict nm) as [e2|names] eqn:H2; cbn [bind].
  { intros [= <-]. apply lookup_val_KeyError in H2. exists nm. exact H2. }
  destruct (mapM (getitem s) names) as [e3|args] eqn:H3; cbn [bind ret]; [|discriminate].
  intros [= <-]. now apply mapM_getitem_KeyError in H3.
Qed.

(** The value the [try] block of the constructor leaves in [psd_name] and
    [psd]. *)
Definition psd_state (settings ss : dict) : option pyval * pyval :=
  match settings !! "psd_name" with
  | None => (None, VNone)
  | Some nm =>
      match psd_setup nm ss with
      | inr psd => (Some nm, psd)
      | inl _ => (Some nm, VNone)
      end
  end.

Lemma try_block (settings ss : dict) :
  except_KeyError
    (do psd_name <- getitem settings "psd_name";
     except_KeyError
       (do psd <- psd_setup psd_name ss; ret (Some psd_name, psd))
       (Some psd_name, VNone))
    (None, VNone)
  = inr (psd_state settings ss).
Proof.
  unfold psd_state, getitem. destruct (settings !! "psd_name") as [nm|]; cbn [bind ret raise].
  - destruct (psd_setup nm ss) as [e|v] eqn:H; cbn [bind ret except_KeyError].
    + destruct (psd_setup_KeyError nm ss e H) as [key ->]. reflexivity.
    + reflexivity.
  - reflexivity.
Qed.

(** The constructor on a non-empty array of locations, with the [try]
    block replaced by its value. *)
Lemma init_unfold (n : nat) (z : list R) (dx_0 dx_n : R) (settings : dict) :
  z <> [] ->
  __init__ n z dx_0 dx_n settings =
  (let prop_frac := (fun x => x / List.last z 0) <$> z in
   let dx_sampling := (fun f => (dx_n - dx_0) * f + dx_0) <$> prop_frac in
   let n_scr := length z in
   do screen_method_name <- getitem settings "screen_method_name";
   do screen_method <- lookup_val screen_method_dict screen_method_name;
   let self_settings := delete "psd_name" (delete "screen_method_name" settings) in
   let psd_name := fst (psd_state settings self_settings) in
   let psd := snd (psd_state settings self_settings) in
   let self_settings :=
     if is_str screen_method_name "vacuum"
     then <[ "r0" := VInf ]> self_settings
     else self_settings in
   do r0 <- getitem self_settings "r0";
   do r0_scr <- truediv r0 (fpow (INR n_scr) (- 3 / 5));
   let r0s := replicate n_scr r0_scr in
   do keys <- lookup_val phase_screen_input_dict screen_method_name;
   let a := self_settings ∪ {[ "N" := VInt (Z.of_nat n); "psd" := psd ]} in
   do screen <- make_screens screen_method keys a (zip dx_sampling r0s);
   ret {| n_gridpts := n;
          screen_locations := z;
          dx_sampling := dx_sampling;
          n_scr := n_scr;
          screen_method_name := screen_method_name;
          screen_method := screen_method;
          settings := self_settings;
          psd_name := psd_name;
          psd := psd;
          r0s := r0s;
          screen := screen |}).
Proof.
  intros Hz. destruct z as [|z0 zs]; [contradiction|].
  unfold __init__. cbn zeta.
  destruct (getitem settings "screen_method_name") as [e|name]; cbn [bind]; [reflexivity|].
  destruct (lookup_val screen_method_dict name) as [e|method]; cbn [bind]; [reflexivity|].
  rewrite try_block. cbn [bind].
  destruct (psd_state settings _) as [pn pv]. reflexivity.
Qed.

(** The fields of an object the constructor returned. *)
Record built (n : nat) (z : list R) (dx_0 dx_n : R) (settings : dict) (self : Atmos)
  : Prop := {
  built_z : z <> [];
  built_n_gridpts : n_gridpts self = n;
  built_n_scr : n_scr self = length z;
  built_dx_sampling :
    dx_sampling self
    = (fun f => (dx_n - dx_0) * f + dx_0) <$> ((fun x => x / List.last z 0) <$> z);
  built_name : settings !! "screen_method_name" = Some (screen_method_name self);
  built_method :
    lookup_val screen_method_dict (screen_method_name self) = inr (screen_method self);
  built_settings :
    Atmos.settings self
    = (if is_str (screen_method_name self) "vacuum"
       then <[ "r0" := VInf ]> (delete "psd_name" (delete "screen_method_name" settings))
       else delete "psd_name" (delete "screen_method_name" settings));
  built_psd :
    (psd_name self, psd self)
    = psd_state settings (delete "psd_name" (delete "screen_method_name" settings));
  built_r0s :
    exists r0 r0_scr,
      Atmos.settings self !! "r0" = Some r0
      /\ truediv r0 (fpow (INR (length z)) (- 3 / 5)) = inr r0_scr
      /\ r0s self = replicate (length z) r0_scr;
  built_screen :
    exists keys,
      lookup_val phase_screen_input_dict (screen_method_name self) = inr keys
      /\ make_screens (screen_method self) keys
           (Atmos.settings self
              ∪ {[ "N" := VInt (Z.of_nat n); "psd" := psd self ]})
           (zip (dx_sampling self) (r0s self))
         = inr (screen self)
}.

Lemma getitem_inr (d : dict) (key : string) (v : pyval) :
  getitem d key = inr v -> d !! key = Some v.
Proof. unfold getitem. destruct (d !! key); [now intros [= ->]|discriminate]. Qed.

Lemma init_built (n : nat) (z : list R) (dx_0 dx_n : R) (settings : dict) (self : Atmos) :
  __init__ n z dx_0 dx_n settings = inr self -> built n z dx_0 dx_n settings self.
Proof.
  intros H.
  assert (Hz : z <> []) by (destruct z; [discriminate|discriminate]).
  rewrite init_unfold in H by exact Hz. cbn zeta in H.
  apply bind_inr in H. destruct H as (name & Hname & H).
  apply bind_inr in H. destruct H as (method & Hmethod & H).
  apply bind_inr in H. destruct H as (r0 & Hr0 & H).
  apply bind_inr in H. destruct H as (r0_scr & Hscr & H).
  apply bind_inr in H. destruct H as (keys & Hkeys & H).
  apply bind_inr in H. destruct H as (screens & Hscreens & H).
  injection H as <-. apply getitem_inr in Hname. apply getitem_inr in Hr0.
  constructor; cbn [n_gridpts n_scr dx_sampling screen_method_name screen_method
                    Atmos.settings psd_name psd r0s screen]; try reflexivity; try assumption.
  - now destruct (psd_state settings _).
  - exists r0, r0_scr. repeat split; assumption.
  - exists keys. split; assumption.
Qed.

Lemma make_screens_shape (method : screen_fn) (keys : list string)
  (inputs : list (R * pyval)) :
  forall (a : dict) (l : list screen_t),
    make_screens method keys a inputs = inr l ->
    length l = length inputs /\ Forall (fun s => screen_by s = method) l.
Proof.
  induction inputs as [|[dx r0] rest IH]; intros a l H; cbn [make_screens] in H.
  - injection H as <-. split; [reflexivity|constructor].
  - apply bind_inr in H. destruct H as (args & _ & H).
    apply bind_inr in H. destruct H as (screens & Hs & H).
    injection H as <-. destruct (IH _ _ Hs) as [Hlen Hall].
    split; [cbn [length]; now rewrite Hlen|].
    constructor; [reflexivity|exact Hall].
Qed.

Lemma built_lengths n z dx_0 dx_n settings self :
  built n z dx_0 dx_n settings self ->
  length (dx_sampling self) = length z
  /\ length (r0s self) = length z
  /\ length (screen self) = length z
  /\ Forall (fun s => screen_by s = screen_method self) (screen self).
Proof.
  intros B.
  assert (H1 : length (dx_sampling self) = length z)
    by (rewrite (built_dx_sampling _ _ _ _ _ _ B), !length_fmap; reflexivity).
  destruct (built_r0s _ _ _ _ _ _ B) as (r0 & r0_scr & _ & _ & Hr).
  assert (H2 : length (r0s self) = length z) by (rewrite Hr; apply length_replicate).
  destruct (built_screen _ _ _ _ _ _ B) as (keys & _ & Hs).
  apply make_screens_shape in Hs. destruct Hs as [Hlen Hall].
  repeat split; try assumption.
  rewrite Hlen, length_zip_with. lia.
Qed.

Lemma getitem_at (self : Atmos) (k : nat) (s : screen_t) :
  screen self !! k = Some s ->
  __getitem__ self (Z.of_nat k) = inr s
  /\ __getitem__ self (Z.of_nat k - Z.of_nat (length (screen self))) = inr s.
Proof.
  intros Hk. pose proof (lookup_lt_Some _ _ _ Hk) as Hlt.
  unfold __getitem__. cbn zeta. split.
  - destruct (Z.ltb_spec (Z.of_nat k) 0); [lia|].
    destruct (Z.ltb_spec (Z.of_nat k) 0); [lia|].
    now rewrite Nat2Z.id, Hk.
  - destruct (Z.ltb_spec (Z.of_nat k - Z.of_nat (length (screen self))) 0); [|lia].
    replace (Z.of_nat k - Z.of_nat (length (screen self))
             + Z.of_nat (length (screen self)))%Z with (Z.of_nat k) by lia.
    destruct (Z.ltb_spec (Z.of_nat k) 0); [lia|].
    now rewrite Nat2Z.id, Hk.
Qed.

Lemma getitem_out_of_range (self : Atmos) :
  __getitem__ self (Z.of_nat (length (screen self))) = inl IndexError
  /\ __getitem__ self (- Z.of_nat (length (screen self)) - 1) = inl IndexError.
Proof.
  unfold __getitem__. cbn zeta. split.
  - destruct (Z.ltb_spec (Z.of_nat (length (screen self))) 0); [lia|].
    destruct (Z.ltb_spec (Z.of_nat (length (screen self))) 0); [lia|].
    rewrite Nat2Z.id, lookup_ge_None_2 by lia. reflexivity.
  - destruct (Z.ltb_spec (- Z.of_nat (length (screen self)) - 1) 0); [|lia].
    destruct (Z.ltb_spec (- Z.of_nat (length (screen self)) - 1
                          + Z.of_nat (length (screen self))) 0); [|lia].
    reflexivity.
Qed.

(** X23.  An object the constructor returned holds one screen per location, made
    by the screen method that was chosen; [len] is the number of
    locations, an index from [-len] to [len - 1] returns a screen (a
    negative one counts from the end) and the indices [len] and
    [-len - 1] raise [IndexError]. *)
Theorem Atmos_screen_count
  (n : nat) (z : list R) (dx_0 dx_n : R) (settings : dict) (self : Atmos) :
  __init__ n z dx_0 dx_n settings = inr self ->
  z <> []
  /\ n_scr self = length z
  /\ length (dx_sampling self) = length z
  /\ length (r0s self) = length z
  /\ __len__ self = length z
  /\ Forall (fun s => screen_by s = screen_method self) (screen self)
  /\ (forall k, (k < length z)%nat ->
        exists s,
          __getitem__ self (Z.of_nat k) = inr s
          /\ __getitem__ self (Z.of_nat k - Z.of_nat (length z)) = inr s)
  /\ __getitem__ self (Z.of_nat (length z)) = inl IndexError
  /\ __getitem__ self (- Z.of_nat (length z) - 1) = inl IndexError.
Proof.
  intros H. apply init_built in H.
  destruct (built_lengths _ _ _ _ _ _ H) as (H1 & H2 & H3 & H4).
  split; [apply (built_z _ _ _ _ _ _ H)|].
  split; [apply (built_n_scr _ _ _ _ _ _ H)|].
  split; [exact H1|]. split; [exact H2|]. split; [exact H3|]. split; [exact H4|].
  rewrite <- H3. split; [|apply getitem_out_of_range].
  intros k Hk. destruct (lookup_lt_is_Some_2 (screen self) k Hk) as [s Hs].
  exists s. now apply getitem_at.
Qed.

Lemma mapM_getitem_inr (d : dict) (keys : list string) :
  (forall key, key ∈ keys -> is_Some (d !! key)) ->
  exists args, mapM (getitem d) keys = inr args.
Proof.
  induction keys as [|x keys IH]; intros H; [now exists []|].
  destruct (H x ltac:(left)) as [v Hv].
  destruct IH as [args Hargs]; [intros; apply H; now right|].
  exists (v :: args). cbn [mapM]. unfold getitem at 1. rewrite Hv. cbn [bind ret].
  now rewrite Hargs.
Qed.

Lemma make_screens_total (method : screen_fn) (keys : list string)
  (inputs : list (R * pyval)) :
  forall a : dict,
    (forall key, key ∈ keys -> is_Some (a !! key)) ->
    exists l, make_screens method keys a inputs = inr l.
Proof.
  induction inputs as [|[dx r0] rest IH]; intros a Ha; [now exists []|].
  cbn [make_screens].
  set (a' := a ∪ {[ "dx" := VFloat dx; "r0" := r0 ]}).
  assert (Ha' : forall key, key ∈ keys -> is_Some (a' !! key)).
  { intros key Hk. unfold a'. rewrite lookup_union_is_Some. left. now apply Ha. }
  destruct (mapM_getitem_inr a' keys Ha') as [args Hargs].
  destruct (IH a' Ha') as [l Hl].
  exists (Screen method args :: l). now rewrite Hargs, Hl.
Qed.

(** With the vacuum method the constructor returns for every settings
    dictionary. *)
Lemma init_vacuum (n : nat) (z : list R) (dx_0 dx_n : R) (settings : dict) :
  z <> [] -> settings !! "screen_method_name" = Some (VStr "vacuum") ->
  exists self, __init__ n z dx_0 dx_n settings = inr self.
Proof.
  intros Hz Hm. rewrite init_unfold by exact Hz. cbn zeta.
  unfold getitem at 1. rewrite Hm. cbn [bind ret].
  change (lookup_val screen_method_dict (VStr "vacuum")) with (ret vacuum).
  cbn [bind ret].
  change (is_str (VStr "vacuum") "vacuum") with true. cbv iota.
  unfold getitem at 1. rewrite lookup_insert_eq. cbn [bind ret truediv].
  change (lookup_val phase_screen_input_dict (VStr "vacuum")) with (ret ["N"]).
  cbn [bind ret].
  match goal with
  | |- context [make_screens vacuum ["N"] ?a ?inputs] =>
      destruct (make_screens_total vacuum ["N"] inputs a) as [l Hl]
  end.
  { intros key Hk. apply list_elem_of_singleton in Hk. subst key.
    rewrite lookup_union_is_Some. right. rewrite lookup_insert_eq. now eexists. }
  rewrite Hl. cbn [bind ret]. now eexists.
Qed.

(** Settings that name the vacuum method and nothing else. *)
Definition vacuum_only : dict := {[ "screen_method_name" := VStr "vacuum" ]}.

(** The theorem at a vacuum path with two screen locations. *)
Lemma Atmos_screen_count_witness :
  exists self,
    __init__ 64 [500; 1000] 0.01 0.02 vacuum_only = inr self /\ __len__ self = 2%nat.
Proof.
  destruct (init_vacuum 64 [500; 1000] 0.01 0.02 vacuum_only) as [self H];
    [discriminate|reflexivity|].
  exists self. split; [exact H|].
  apply (Atmos_screen_count 64 [500; 1000] 0.01 0.02 vacuum_only self H).
Defined.

(** Once the carried dictionary holds "dx" and "r0", merging the next
    pair under it changes nothing. *)
Lemma union_absorbs (a : dict) (dx r0 : pyval) :
  is_Some (a !! "dx") -> is_Some (a !! "r0") ->
  a ∪ {[ "dx" := dx; "r0" := r0 ]} = a.
Proof.
  intros [v1 H1] [v2 H2]. apply map_eq. intros key.
  rewrite lookup_union. destruct (a !! key) as [v|] eqn:Hk.
  - now destruct ({[ "dx" := dx; "r0" := r0 ]} !! key).
  - destruct (decide (key = "dx")) as [->|Hd]; [congruence|].
    destruct (decide (key = "r0")) as [->|Hr]; [congruence|].
    rewrite lookup_insert_ne by congruence.
    rewrite lookup_singleton_ne by congruence. reflexivity.
Qed.

Lemma mapM_getitem_lookup (d : dict) (keys : list string) (args : list pyval) :
  mapM (getitem d) keys = inr args ->
  length args = length keys
  /\ forall i key, keys !! i = Some key -> args !! i = d !! key.
Proof.
  revert args. induction keys as [|x keys IH]; intros args H; cbn [mapM] in H.
  - injection H as <-. split; [reflexivity|]. intros i key Hk. discriminate.
  - apply bind_inr in H. destruct H as (v & Hv & H).
    apply bind_inr in H. destruct H as (vs & Hvs & H). injection H as <-.
    apply getitem_inr in Hv. destruct (IH vs Hvs) as [Hlen Hall].
    split; [cbn [length]; now rewrite Hlen|].
    intros [|i] key Hk; cbn in Hk |- *.
    + injection Hk as <-. now rewrite Hv.
    + now apply Hall.
Qed.

Lemma make_screens_fixed (method : screen_fn) (keys : list string) (a : dict)
  (inputs : list (R * pyval)) :
  is_Some (a !! "dx") -> is_Some (a !! "r0") ->
  forall l, make_screens method keys a inputs = inr l ->
  Forall (fun s => mapM (getitem a) keys = inr (screen_inputs s)) l.
Proof.
  intros Hdx Hr0. induction inputs as [|[dx r0] rest IH]; intros l H;
    cbn [make_screens] in H.
  - injection H as <-. constructor.
  - rewrite union_absorbs in H by assumption.
    apply bind_inr in H. destruct H as (args & Hargs & H).
    apply bind_inr in H. destruct H as (screens & Hs & H). injection H as <-.
    constructor; [exact Hargs|]. now apply IH.
Qed.

(** Every screen is made from the dictionary of the first round. *)
Lemma make_screens_first (method : screen_fn) (keys : list string) (a : dict)
  (dx : R) (r0 : pyval) (rest : list (R * pyval)) (l : list screen_t) :
  make_screens method keys a ((dx, r0) :: rest) = inr l ->
  Forall (fun s =>
            mapM (getitem (a ∪ {[ "dx" := VFloat dx; "r0" := r0 ]})) keys
            = inr (screen_inputs s)) l.
Proof.
  intros H. cbn [make_screens] in H.
  set (a' := a ∪ {[ "dx" := VFloat dx; "r0" := r0 ]}) in *.
  assert (Hdx : is_Some (a' !! "dx")).
  { unfold a'. rewrite lookup_union_is_Some.
    right. rewrite lookup_insert_eq. now eexists. }
  assert (Hr0 : is_Some (a' !! "r0")).
  { unfold a'. rewrite lookup_union_is_Some.
    right. rewrite lookup_insert_ne by discriminate.
    rewrite lookup_singleton_eq. now eexists. }
  apply bind_inr in H. destruct H as (args & Hargs & H).
  apply bind_inr in H. destruct H as (screens & Hs & H). injection H as <-.
  constructor; [exact Hargs|]. now apply (make_screens_fixed method keys a' rest).
Qed.

(** The dictionary every screen of an object is made from: the settings,
    under them the grid size and the PSD, under them the pitch of the
    first plane. *)
Definition shared_inputs (self : Atmos) : dict :=
  settings self
  ∪ {[ "N" := VInt (Z.of_nat (n_gridpts self)); "psd" := psd self ]}
  ∪ {[ "dx" := VFloat (List.hd 0 (dx_sampling self)) ]}.

(** X24.  Every screen of an object is made from the same inputs, read from
    [shared_inputs]: the pitch handed to every screen is that of the
    first plane (unless the settings hold a "dx" of their own), and the
    Fried parameter is the "r0" of the settings, not the per-screen value
    [r0s]. *)
Theorem Atmos_screens_share_inputs
  (n : nat) (z : list R) (dx_0 dx_n : R) (settings : dict) (self : Atmos)
  (keys : list string) :
  __init__ n z dx_0 dx_n settings = inr self ->
  lookup_val phase_screen_input_dict (screen_method_name self) = inr keys ->
  Forall (fun s =>
            length (screen_inputs s) = length keys
            /\ forall i key, keys !! i = Some key ->
                 screen_inputs s !! i = shared_inputs self !! key) (screen self)
  /\ shared_inputs self !! "r0" = Atmos.settings self !! "r0"
  /\ is_Some (Atmos.settings self !! "r0").
Proof.
  intros H Hkeys. apply init_built in H.
  destruct (built_lengths _ _ _ _ _ _ H) as (H1 & H2 & _ & _).
  destruct (built_r0s _ _ _ _ _ _ H) as (r0 & r0_scr & Hr0 & _ & Hr0s).
  destruct (built_screen _ _ _ _ _ _ H) as (keys' & Hkeys' & Hs).
  rewrite Hkeys in Hkeys'. injection Hkeys' as <-.
  pose proof (built_z _ _ _ _ _ _ H) as Hz.
  unfold shared_inputs. rewrite (built_n_gridpts _ _ _ _ _ _ H).
  set (base := Atmos.settings self ∪ {[ "N" := VInt (Z.of_nat n); "psd" := psd self ]}) in *.
  assert (Hbase : base !! "r0" = Some r0).
  { unfold base. apply lookup_union_Some_l. exact Hr0. }
  destruct (dx_sampling self) as [|d ds] eqn:Hd.
  { destruct z; [contradiction|discriminate]. }
  destruct (r0s self) as [|r rs] eqn:Hr.
  { destruct z; [contradiction|discriminate]. }
  cbn [zip zip_with List.hd] in *.
  apply make_screens_first in Hs.
  assert (Hsame : forall key,
            (base ∪ {[ "dx" := VFloat d; "r0" := r ]}) !! key
            = (base ∪ {[ "dx" := VFloat d ]}) !! key).
  { intros key. rewrite !lookup_union. destruct (base !! key) as [v|] eqn:Hk.
    - destruct ({[ "dx" := VFloat d; "r0" := r ]} !! key),
               ({[ "dx" := VFloat d ]} !! key); reflexivity.
    - destruct (decide (key = "dx")) as [->|Hne].
      + now rewrite lookup_insert_eq, lookup_singleton_eq.
      + rewrite lookup_insert_ne, !lookup_singleton_ne by congruence.
        reflexivity. }
  split; [|split].
  - eapply Forall_impl; [exact Hs|]. intros s Hsi. cbv beta in Hsi.
    apply mapM_getitem_lookup in Hsi. destruct Hsi as [Hlen Hall].
    split; [exact Hlen|]. intros i key Hk. rewrite (Hall i key Hk). apply Hsame.
  - rewrite lookup_union, Hbase, Hr0. now destruct ({[ "dx" := VFloat d ]} !! "r0").
  - exists r0. exact Hr0.
Qed.

(** The theorem at a vacuum path with two screen locations. *)
Lemma Atmos_screens_share_inputs_witness :
  exists self,
    __init__ 64 [500; 1000] 0.01 0.02 vacuum_only = inr self
    /\ lookup_val phase_screen_input_dict (screen_method_name self) = inr ["N"]
    /\ is_Some (Atmos.settings self !! "r0").
Proof.
  destruct (init_vacuum 64 [500; 1000] 0.01 0.02 vacuum_only) as [self H];
    [discriminate|reflexivity|].
  assert (Hk : lookup_val phase_screen_input_dict (screen_method_name self) = inr ["N"]).
  { pose proof (init_built _ _ _ _ _ _ H) as B.
    pose proof (built_name _ _ _ _ _ _ B) as Hn.
    change (vacuum_only !! "screen_method_name") with (Some (VStr "vacuum")) in Hn.
    injection Hn as <-. reflexivity. }
  exists self. split; [exact H|]. split; [exact Hk|].
  apply (Atmos_screens_share_inputs 64 [500; 1000] 0.01 0.02 vacuum_only self ["N"] H Hk).
Defined.

(** X25.  The constructor fails early, in this order: an empty array of
    locations raises [IndexError] at [z[-1]] whatever the settings hold;
    settings without "screen_method_name" raise [KeyError] for that key;
    a method name that [screen_method_dict] does not hold raises
    [KeyError] for the name. *)
Theorem Atmos_method_errors (n : nat) (z : list R) (dx_0 dx_n : R) (settings : dict) :
  (z = [] -> __init__ n z dx_0 dx_n settings = inl IndexError)
  /\ (z <> [] -> settings !! "screen_method_name" = None ->
      __init__ n z dx_0 dx_n settings = inl (KeyError (VStr "screen_method_name")))
  /\ (z <> [] ->
      forall name,
        settings !! "screen_method_name" = Some name ->
        (forall s, name = VStr s -> screen_method_dict !! s = None) ->
        __init__ n z dx_0 dx_n settings = inl (KeyError name)).
Proof.
  split; [intros ->; reflexivity|]. split.
  - intros Hz Hm. rewrite init_unfold by exact Hz. cbn zeta.
    unfold getitem at 1. now rewrite Hm.
  - intros Hz name Hm Hname. rewrite init_unfold by exact Hz. cbn zeta.
    unfold getitem at 1. rewrite Hm. cbn [bind ret].
    assert (E : lookup_val screen_method_dict name = inl (KeyError name)).
    { unfold lookup_val. destruct name; try reflexivity.
      now rewrite (Hname s eq_refl). }
    now rewrite E.
Qed.

(** X26.  With a screen method other than the vacuum, settings without "r0"
    raise [KeyError] for "r0", whatever else they hold: no failure of the
    PSD set-up comes first, since the [try] block swallows it. *)
Theorem Atmos_requires_r0
  (n : nat) (z : list R) (dx_0 dx_n : R) (settings : dict) (name : string) :
  z <> [] ->
  settings !! "screen_method_name" = Some (VStr name) ->
  name = "ft"%string \/ name = "ft_sh"%string ->
  settings !! "r0" = None ->
  __init__ n z dx_0 dx_n settings = inl (KeyError (VStr "r0")).
Proof.
  intros Hz Hm Hname Hr0. rewrite init_unfold by exact Hz. cbn zeta.
  unfold getitem at 1. rewrite Hm. cbn [bind ret].
  assert (Hr : delete "psd_name" (delete "screen_method_name" settings) !! "r0" = None).
  { rewrite !lookup_delete_ne by discriminate. exact Hr0. }
  destruct Hname as [-> | ->].
  - change (lookup_val screen_method_dict (VStr "ft")) with (ret ft_phase_screen).
    cbn [bind ret]. change (is_str (VStr "ft") "vacuum") with false. cbv iota.
    unfold getitem at 1. now rewrite Hr.
  - change (lookup_val screen_method_dict (VStr "ft_sh")) with (ret ft_sh_phase_screen).
    cbn [bind ret]. change (is_str (VStr "ft_sh") "vacuum") with false. cbv iota.
    unfold getitem at 1. now rewrite Hr.
Qed.

(** Settings that name the method "ft" and nothing else. *)
Definition ft_only : dict := {[ "screen_method_name" := VStr "ft" ]}.

(** The theorem at settings that only name the method "ft". *)
Lemma Atmos_requires_r0_witness :
  [500; 1000] <> []
  /\ ft_only !! "screen_method_name" = Some (VStr "ft")
  /\ ("ft"%string = "ft"%string \/ "ft"%string = "ft_sh"%string)
  /\ ft_only !! "r0" = None
  /\ __init__ 64 [500; 1000] 0.01 0.02 ft_only = inl (KeyError (VStr "r0")).
Proof.
  assert (H1 : [500; 1000] <> []) by discriminate.
  assert (H2 : ft_only !! "screen_method_name" = Some (VStr "ft")) by reflexivity.
  assert (H3 : "ft"%string = "ft"%string \/ "ft"%string = "ft_sh"%string) by now left.
  assert (H4 : ft_only !! "r0" = None) by reflexivity.
  repeat (split; [assumption|]).
  exact (Atmos_requires_r0 64 [500; 1000] 0.01 0.02 ft_only "ft" H1 H2 H3 H4).
Defined.

(** X27.  With the vacuum method the constructor returns for every settings
    dictionary and at least one location: "r0" is overwritten by
    [float('inf')], every per-screen value of [r0s] is infinite, every
    screen is a vacuum screen, and when the PSD set-up fails or no PSD is
    named, [psd] is [None]. *)
Theorem Atmos_vacuum_always_constructs
  (n : nat) (z : list R) (dx_0 dx_n : R) (settings : dict) :
  z <> [] -> settings !! "screen_method_name" = Some (VStr "vacuum") ->
  exists self,
    __init__ n z dx_0 dx_n settings = inr self
    /\ Atmos.settings self !! "r0" = Some VInf
    /\ r0s self = replicate (length z) VInf
    /\ length (screen self) = length z
    /\ Forall (fun s => screen_by s = vacuum) (screen self)
    /\ (settings !! "psd_name" = None -> psd_name self = None /\ psd self = VNone)
    /\ (forall nm e,
          settings !! "psd_name" = Some nm ->
          psd_setup nm (delete "psd_name" (delete "screen_method_name" settings)) = inl e ->
          psd_name self = Some nm /\ psd self = VNone).
Proof.
  intros Hz Hm. destruct (init_vacuum n z dx_0 dx_n settings Hz Hm) as [self H].
  exists self. split; [exact H|]. apply init_built in H.
  destruct (built_lengths _ _ _ _ _ _ H) as (_ & _ & Hlen & Hall).
  pose proof (built_name _ _ _ _ _ _ H) as Hn. rewrite Hm in Hn. injection Hn as Hn.
  pose proof (built_method _ _ _ _ _ _ H) as Hmeth. rewrite <- Hn in Hmeth.
  change (lookup_val screen_method_dict (VStr "vacuum")) with (@inr exn _ vacuum) in Hmeth.
  injection Hmeth as Hmeth.
  pose proof (built_settings _ _ _ _ _ _ H) as Hset. rewrite <- Hn in Hset.
  change (is_str (VStr "vacuum") "vacuum") with true in Hset. cbv iota in Hset.
  assert (Hr0 : Atmos.settings self !! "r0" = Some VInf)
    by (rewrite Hset; apply lookup_insert_eq).
  split; [exact Hr0|].
  destruct (built_r0s _ _ _ _ _ _ H) as (r0 & r0_scr & Hr & Hdiv & Hr0s).
  rewrite Hr0 in Hr. injection Hr as <-. cbn [truediv ret] in Hdiv. injection Hdiv as <-.
  split; [exact Hr0s|]. split; [exact Hlen|].
  split; [now rewrite Hmeth|].
  pose proof (built_psd _ _ _ _ _ _ H) as Hpsd. unfold psd_state in Hpsd.
  split.
  - intros Hnone. rewrite Hnone in Hpsd. now injection Hpsd as -> ->.
  - intros nm e Hsome He. rewrite Hsome, He in Hpsd. now injection Hpsd as -> ->.
Qed.

(** The theorem at a vacuum path with two screen locations. *)
Lemma Atmos_vacuum_always_constructs_witness :
  [500; 1000] <> []
  /\ vacuum_only !! "screen_method_name" = Some (VStr "vacuum")
  /\ exists self,
       __init__ 64 [500; 1000] 0.01 0.02 vacuum_only = inr self
       /\ Atmos.settings self !! "r0" = Some VInf.
Proof.
  assert (H1 : [500; 1000] <> []) by discriminate.
  assert (H2 : vacuum_only !! "screen_method_name" = Some (VStr "vacuum")) by reflexivity.
  split; [exact H1|]. split; [exact H2|].
  destruct (Atmos_vacuum_always_constructs 64 [500; 1000] 0.01 0.02 vacuum_only H1 H2)
    as (self & H & Hr & _).
  exists self. split; assumption.
Defined.

(** X28.  A PSD that [psd_dict] registers but for which [psd_input_dict] has no
    entry can never be set up: [__psd_setup] raises [KeyError] for its
    name with any settings, and a constructor call that names it and
    returns leaves [psd] at [None]. *)
Theorem Atmos_registered_psd_without_inputs
  (n : nat) (z : list R) (dx_0 dx_n : R) (settings : dict) (name : string)
  (c : psd_ctor) :
  psd_dict !! name = Some c -> psd_input_dict !! name = None ->
  (forall ss, psd_setup (VStr name) ss = inl (KeyError (VStr name)))
  /\ (forall self,
        settings !! "psd_name" = Some (VStr name) ->
        __init__ n z dx_0 dx_n settings = inr self ->
        psd_name self = Some (VStr name) /\ psd self = VNone).
Proof.
  intros Hd Hi.
  assert (E : forall ss, psd_setup (VStr name) ss = inl (KeyError (VStr name))).
  { intros ss. unfold psd_setup, lookup_val. rewrite Hd, Hi. reflexivity. }
  split; [exact E|].
  intros self Hname H. apply init_built in H.
  pose proof (built_psd _ _ _ _ _ _ H) as Hpsd. unfold psd_state in Hpsd.
  rewrite Hname, E in Hpsd. now injection Hpsd as -> ->.
Qed.

(** The theorem at the registered name "wavepy_og". *)
Lemma Atmos_registered_psd_without_inputs_witness :
  psd_dict !! "wavepy_og" = Some wavepy_og /\ psd_input_dict !! "wavepy_og" = None
  /\ forall ss, psd_setup (VStr "wavepy_og") ss = inl (KeyError (VStr "wavepy_og")).
Proof.
  assert (H1 : psd_dict !! "wavepy_og" = Some wavepy_og) by reflexivity.
  assert (H2 : psd_input_dict !! "wavepy_og" = None) by reflexivity.
  split; [exact H1|]. split; [exact H2|].
  apply (Atmos_registered_psd_without_inputs 64 [500; 1000] 0.01 0.02 vacuum_only
           "wavepy_og" wavepy_og H1 H2).
Defined.

Lemma last_fmap (f : R -> R) (l : list R) (d : R) :
  l <> [] -> List.last (f <$> l) d = f (List.last l d).
Proof.
  induction l as [|x l IH]; intros Hl; [contradiction|].
  destruct l as [|y l]; [reflexivity|].
  change (List.last (f <$> x :: y :: l) d) with (List.last (f <$> y :: l) d).
  change (List.last (x :: y :: l) d) with (List.last (y :: l) d).
  now apply IH.
Qed.

Lemma fpow_neg (x y : R) : 0 < x -> fpow x (- y) = / fpow x y.
Proof.
  intros Hx. rewrite !fpow_Rpower by exact Hx. apply Rpower_Ropp.
Qed.

(** X29.  The per-plane values of an object the constructor returned: the pitch
    of plane [i] interpolates between [dx_0] and [dx_n] by the fraction
    [z[i] / z[-1]], so the last plane has pitch [dx_n] when [z[-1]] is not
    zero; and for a float "r0" every per-screen Fried parameter is
    [r0 * n_scr ** (3/5)]. *)
Theorem Atmos_per_plane_values
  (n : nat) (z : list R) (dx_0 dx_n : R) (settings : dict) (self : Atmos) :
  __init__ n z dx_0 dx_n settings = inr self ->
  (forall i zi, z !! i = Some zi ->
     dx_sampling self !! i = Some ((dx_n - dx_0) * (zi / List.last z 0) + dx_0))
  /\ (List.last z 0 <> 0 -> List.last (dx_sampling self) 0 = dx_n)
  /\ (forall r, Atmos.settings self !! "r0" = Some (VFloat r) ->
        r0s self = replicate (length z) (VFloat (r / fpow (INR (length z)) (- 3 / 5)))
        /\ r / fpow (INR (length z)) (- 3 / 5) = r * fpow (INR (length z)) (3 / 5)).
Proof.
  intros H. apply init_built in H.
  pose proof (built_z _ _ _ _ _ _ H) as Hz.
  rewrite (built_dx_sampling _ _ _ _ _ _ H).
  split; [|split].
  - intros i zi Hi. now rewrite !list_lookup_fmap, Hi.
  - intros Hlast. rewrite !last_fmap; [|exact Hz|now destruct z].
    field. exact Hlast.
  - intros r Hr. destruct (built_r0s _ _ _ _ _ _ H) as (r0 & r0_scr & Hr0 & Hdiv & Hr0s).
    rewrite Hr in Hr0. injection Hr0 as <-. cbn [truediv ret] in Hdiv.
    injection Hdiv as <-. split; [exact Hr0s|].
    assert (Hn : 0 < INR (length z)).
    { apply lt_0_INR. destruct z; [contradiction|cbn [length]; lia]. }
    replace (- 3 / 5) with (- (3 / 5)) by lra.
    rewrite fpow_neg by exact Hn. field.
    pose proof (fpow_pos (INR (length z)) (3 / 5) Hn). lra.
Qed.

(** The theorem at a vacuum path with two screen locations. *)
Lemma Atmos_per_plane_values_witness :
  exists self,
    __init__ 64 [500; 1000] 0.01 0.02 vacuum_only = inr self
    /\ dx_sampling self !! 1%nat
       = Some ((0.02 - 0.01) * (1000 / List.last [500; 1000] 0) + 0.01).
Proof.
  destruct (init_vacuum 64 [500; 1000] 0.01 0.02 vacuum_only) as [self H];
    [discriminate|reflexivity|].
  exists self. split; [exact H|].
  apply (Atmos_per_plane_values 64 [500; 1000] 0.01 0.02 vacuum_only self H).
  reflexivity.
Defined.

(** A power with a positive exponent is increasing on the positive
    numbers. *)
Lemma fpow_le (x y e : R) : 0 < x <= y -> 0 < e -> fpow x e <= fpow y e.
Proof.
  intros [Hx [Hxy|<-]] He; [|lra].
  rewrite !fpow_Rpower by lra. left. apply Rlt_Rpower_l; lra.
Qed.

(** X30.  [__vonKarman_psd] for a positive [r0] and frequency [f]: the value is
    positive; an inner scale ([fm] finite) or an outer scale ([f0] not
    zero) only lowers it; and without both it is the Kolmogorov spectrum
    [0.023 * r0 ** (-5/3) * f ** (-11/3)]. *)
Theorem vonKarman_psd_limits (r0 f f0 fm : R) :
  0 < r0 -> 0 < f -> 0 <= f0 -> fm <> 0 ->
  0 < __vonKarman_psd r0 f (finite fm) f0
  /\ __vonKarman_psd r0 f (finite fm) f0 <= __vonKarman_psd r0 f inf f0
  /\ __vonKarman_psd r0 f inf f0 <= __vonKarman_psd r0 f inf 0
  /\ __vonKarman_psd r0 f inf 0 = 0.023 * fpow r0 (-5 / 3) * fpow f (- (11 / 3)).
Proof.
  intros Hr Hf Hf0 Hfm. unfold __vonKarman_psd. cbn zeta.
  set (K := 0.023 * fpow r0 (-5 / 3)).
  assert (HK : 0 < K).
  { unfold K. apply Rmult_lt_0_compat; [dec; lra|now apply fpow_pos]. }
  assert (Hs : 0 < f ^ 2 + f0 ^ 2) by nra.
  assert (Hs0 : 0 < f ^ 2 + 0 ^ 2) by nra.
  pose proof (fpow_pos _ (11 / 6) Hs) as HD.
  pose proof (fpow_pos _ (11 / 6) Hs0) as HD0.
  assert (HD' : fpow (f ^ 2 + 0 ^ 2) (11 / 6) <= fpow (f ^ 2 + f0 ^ 2) (11 / 6)).
  { apply fpow_le; [|lra]. split; [exact Hs0|]. nra. }
  assert (He : 0 < exp (- (f / fm) ^ 2) <= 1).
  { split; [apply exp_pos|]. rewrite <- exp_0.
    assert (Hq : 0 <= (f / fm) ^ 2) by apply pow2_ge_0.
    destruct Hq as [Hq|Hq]; [left; apply exp_increasing; lra|].
    rewrite <- Hq. right. f_equal. lra. }
  replace (- 0 ^ 2) with 0 by ring. rewrite exp_0.
  assert (Hi : 0 < / fpow (f ^ 2 + f0 ^ 2) (11 / 6)) by now apply Rinv_0_lt_compat.
  assert (Hi0 : 0 < / fpow (f ^ 2 + 0 ^ 2) (11 / 6)) by now apply Rinv_0_lt_compat.
  assert (Hii : / fpow (f ^ 2 + f0 ^ 2) (11 / 6) <= / fpow (f ^ 2 + 0 ^ 2) (11 / 6))
    by (apply Rinv_le_contravar; assumption).
  unfold Rdiv. repeat split.
  - apply Rmult_lt_0_compat; [|exact Hi]. apply Rmult_lt_0_compat; lra.
  - apply Rmult_le_compat_r; [lra|]. nra.
  - apply Rmult_le_compat_l; [nra|exact Hii].
  - rewrite Rmult_1_r. f_equal.
    replace (f ^ 2 + 0 ^ 2) with (f ^ 2) by ring.
    rewrite fpow_neg by exact Hf. f_equal.
    rewrite !fpow_Rpower by (try apply pow_lt; assumption).
    rewrite <- (Rpower_pow 2 f Hf), Rpower_mult. f_equal. cbn [INR]. lra.
Qed.

(** The theorem at unit arguments. *)
Lemma vonKarman_psd_limits_witness :
  0 < 1 /\ 0 <= 0 /\ 1 <> 0
  /\ __vonKarman_psd 1 1 inf 0 = 0.023 * fpow 1 (-5 / 3) * fpow 1 (- (11 / 3)).
Proof.
  assert (H1 : 0 < 1) by lra. assert (H2 : 0 <= 0) by lra.
  assert (H3 : 1 <> 0) by lra.
  split; [exact H1|]. split; [exact H2|]. split; [exact H3|].
  apply (vonKarman_psd_limits 1 1 0 1 H1 H1 H2 H3).
Defined.

End AtmosBehaviour.
